(** * Pong_8BIT: physics engine, role authority and client reconciliation

    A shallow embedding of the game logic of [components/PongGame.tsx]
    (constants, [handleNetworkState], [resetBall], [update],
    [checkWinCondition], [endGame], [handleInput], [startGame] and the two
    peer data handlers), followed by the properties of the specification
    that concern it.

    Numbers.  The source computes with JavaScript numbers.  They are
    modelled as exact rationals ([Q]); every constant of the program
    (6.5, 0.5, 0.75, ...) is a rational, and statements about computed
    values use rational equality [==].  The rounding of IEEE doubles is
    not modelled.  The record holds rationals only; the infinities and
    NaN are modelled where the code can divide by zero, in the pointer
    handlers ([JsNumber], [pointerOffset]): for a container of height (or
    width) 0 the definitions [handleInput] differ from the code, and the
    statements about pointer input say that the container is laid out.
    Scores are integers ([Z]).

    Mutation.  [gameState.current] is one mutable record; every function
    of the source that writes to it becomes a function from the record to
    the new record.  Calls that talk to the outside (sounds, messages to
    the peer, React state updates) are collected, in program order, in a
    list of effects returned next to the new record.

    Randomness.  [Math.random()] is an argument ([rnd]) of the functions
    that call it.

    Renders.  The names [localNickname] and [uiState.remoteNickname] are
    arguments of the functions that read them; which render's values the
    animation loop passes is fixed in "The component across renders". *)

From Stdlib Require Import QArith Qminmax Qabs Lqa ZArith Lia String List Bool.
Import ListNotations.

Open Scope Q_scope.

(** ** Constants *)

Definition GAME_WIDTH : Q := 800.
Definition GAME_HEIGHT : Q := 600.
Definition PADDLE_WIDTH : Q := 15.
Definition PADDLE_HEIGHT : Q := 80.
Definition BALL_SIZE : Q := 12.
Definition WINNING_SCORE : Z := 11.
Definition COMPUTER_SPEED : Q := 6.5.
Definition INITIAL_BALL_SPEED : Q := 7.
Definition MAX_BALL_SPEED : Q := 14.
Definition PADDLE_OFFSET : Q := 35.

(** ** Comparisons of numbers, as booleans *)

Definition Qltb (a b : Q) : bool := negb (Qle_bool b a).
Definition Qgtb (a b : Q) : bool := negb (Qle_bool a b).
Definition Qleb (a b : Q) : bool := Qle_bool a b.
Definition Qgeb (a b : Q) : bool := Qle_bool b a.

Declare Scope js_scope.
Delimit Scope js_scope with js.
Infix "<?" := Qltb (at level 70, no associativity) : js_scope.
Infix ">?" := Qgtb (at level 70, no associativity) : js_scope.
Infix "<=?" := Qleb (at level 70, no associativity) : js_scope.
Infix ">=?" := Qgeb (at level 70, no associativity) : js_scope.
Open Scope js_scope.

(** [Math.max], [Math.min] and [Math.abs]. *)
Definition Math_max : Q -> Q -> Q := Qmax.
Definition Math_min : Q -> Q -> Q := Qmin.
Definition Math_abs : Q -> Q := Qabs.

(** ** Types *)

Inductive Mode : Type := SINGLE | HOST | CLIENT.

Definition Mode_eqb (a b : Mode) : bool :=
  match a, b with
  | SINGLE, SINGLE | HOST, HOST | CLIENT, CLIENT => true
  | _, _ => false
  end.

(** [enum SoundType] of [utils/sound.ts]. *)
Inductive SoundType : Type :=
  PADDLE_HIT | WALL_HIT | SCORE_PLAYER | SCORE_ENEMY | GAME_OVER | GAME_START.

(** The argument ['left' | 'right'] of [resetBall]. *)
Inductive Side : Type := Left | Right.

Record Ball : Type := mkBall {
  ball_x : Q;
  ball_y : Q;
  ball_dx : Q;
  ball_dy : Q;
  ball_speed : Q
}.

Record GameState : Type := mkGameState {
  ball : Ball;
  paddleLeftY : Q;
  paddleRightY : Q;
  scoreLeft : Z;
  scoreRight : Z;
  isRunning : bool;
  isGameOver : bool;
  winner : option string;
  mode : Mode
}.

Record NetworkState : Type := mkNetworkState {
  net_ball : Ball;
  pLeft : Q;
  pRight : Q;
  sLeft : Z;
  sRight : Z
}.

(** Messages exchanged over the peer connection ([data.type]). *)
Inductive Message : Type :=
| STATE (state : NetworkState)
| INPUT (y : Q)
| SOUND (sound : SoundType)
| OVER (winnerName : string)
| NICKNAME (name : string).

(** What a function does besides writing to [gameState.current]. *)
Inductive Effect : Type :=
| Play (t : SoundType)                 (* playSound(t) *)
| Send (m : Message)                   (* connRef.current.send(m) *)
| SetScores (scoreL scoreR : Z)        (* setUiState: scoreL, scoreR *)
| SetGameOver (winnerName : string)    (* setUiState: gameStatus 'GAME_OVER' *)
| SetPlaying                           (* setUiState: gameStatus 'PLAYING' *)
| SetRemoteNickname (name : string).   (* setUiState: remoteNickname *)

(** A rectangle [{x, y, w, h}]. *)
Record Rect : Type := mkRect { rect_x : Q; rect_y : Q; rect_w : Q; rect_h : Q }.

(** ** Field assignments on the mutable records *)

Definition set_ball_x (v : Q) (b : Ball) : Ball :=
  mkBall v (ball_y b) (ball_dx b) (ball_dy b) (ball_speed b).
Definition set_ball_y (v : Q) (b : Ball) : Ball :=
  mkBall (ball_x b) v (ball_dx b) (ball_dy b) (ball_speed b).
Definition set_ball_dx (v : Q) (b : Ball) : Ball :=
  mkBall (ball_x b) (ball_y b) v (ball_dy b) (ball_speed b).
Definition set_ball_dy (v : Q) (b : Ball) : Ball :=
  mkBall (ball_x b) (ball_y b) (ball_dx b) v (ball_speed b).
Definition set_ball_speed (v : Q) (b : Ball) : Ball :=
  mkBall (ball_x b) (ball_y b) (ball_dx b) (ball_dy b) v.

Definition set_ball (b : Ball) (s : GameState) : GameState :=
  mkGameState b (paddleLeftY s) (paddleRightY s) (scoreLeft s) (scoreRight s)
              (isRunning s) (isGameOver s) (winner s) (mode s).
Definition set_paddleLeftY (v : Q) (s : GameState) : GameState :=
  mkGameState (ball s) v (paddleRightY s) (scoreLeft s) (scoreRight s)
              (isRunning s) (isGameOver s) (winner s) (mode s).
Definition set_paddleRightY (v : Q) (s : GameState) : GameState :=
  mkGameState (ball s) (paddleLeftY s) v (scoreLeft s) (scoreRight s)
              (isRunning s) (isGameOver s) (winner s) (mode s).
Definition set_scoreLeft (v : Z) (s : GameState) : GameState :=
  mkGameState (ball s) (paddleLeftY s) (paddleRightY s) v (scoreRight s)
              (isRunning s) (isGameOver s) (winner s) (mode s).
Definition set_scoreRight (v : Z) (s : GameState) : GameState :=
  mkGameState (ball s) (paddleLeftY s) (paddleRightY s) (scoreLeft s) v
              (isRunning s) (isGameOver s) (winner s) (mode s).

(** ** Threading of state and effects

    A command maps the record to the new record and the effects it
    raised; [c1 ;; c2] runs [c1], then [c2] on the record [c1] left. *)

Definition Cmd : Type := GameState -> GameState * list Effect.

Definition skip : Cmd := fun s => (s, []).
Definition assign (f : GameState -> GameState) : Cmd := fun s => (f s, []).
Definition emit (f : GameState -> list Effect) : Cmd := fun s => (s, f s).
Definition seq (c1 c2 : Cmd) : Cmd :=
  fun s => let (s1, e1) := c1 s in let (s2, e2) := c2 s1 in (s2, e1 ++ e2).
Definition when (c : GameState -> bool) (body : Cmd) : Cmd :=
  fun s => if c s then body s else skip s.

Notation "c1 ;; c2" := (seq c1 c2) (at level 61, right associativity).

(** The record a command leaves, and the effects it raises. *)
Definition after (c : Cmd) (s : GameState) : GameState := fst (c s).
Definition effects (c : Cmd) (s : GameState) : list Effect := snd (c s).

(** ** The game logic *)

Section Engine.

(** What the closures of the component see besides [gameState]: the two
    display names ([localNickname] and [uiState.remoteNickname]) and the
    peer connection.  [conn = None] is [connRef.current === null];
    [Some o] is a connection whose [open] flag is [o].  The names are
    those of the render that created the closure: a later
    [setUiState] (the effect [SetRemoteNickname]) does not change them. *)
Variable localNickname : string.
Variable remoteNickname : string.
Variable conn : option bool.

Definition connOpen : bool :=
  match conn with Some o => o | None => false end.
Definition connPresent : bool :=
  match conn with Some _ => true | None => false end.

(** [handleNetworkState].  [Math.sqrt(d2) > 50] is decided on the
    squared distance: for [d2 >= 0], [sqrt d2 > 50] exactly when
    [d2 > 2500] (see [snap_threshold_squared]). *)
Definition dist2 (b nb : Ball) : Q :=
  (ball_x b - ball_x nb) * (ball_x b - ball_x nb)
  + (ball_y b - ball_y nb) * (ball_y b - ball_y nb).

Definition reconcileBall (b nb : Ball) : Ball :=
  let b :=
    if dist2 b nb >? 50 * 50 then
      set_ball_y (ball_y nb) (set_ball_x (ball_x nb) b)
    else
      let b := set_ball_x (ball_x b + (ball_x nb - ball_x b) * 0.5) b in
      set_ball_y (ball_y b + (ball_y nb - ball_y b) * 0.5) b in
  set_ball_dy (ball_dy nb) (set_ball_dx (ball_dx nb) b).

Definition handleNetworkState (netState : NetworkState) : Cmd :=
  assign (set_scoreLeft (sLeft netState)) ;;
  assign (set_scoreRight (sRight netState)) ;;
  assign (set_paddleLeftY (pLeft netState)) ;;
  assign (fun s => set_ball (reconcileBall (ball s) (net_ball netState)) s) ;;
  emit (fun s => [SetScores (scoreLeft s) (scoreRight s)]).

Definition sendHostUpdate : Cmd :=
  emit (fun s =>
    if connOpen then
      [Send (STATE (mkNetworkState (ball s) (paddleLeftY s) (paddleRightY s)
                                   (scoreLeft s) (scoreRight s)))]
    else []).

Definition sendClientInput : Cmd :=
  emit (fun s => if connOpen then [Send (INPUT (paddleRightY s))] else []).

Definition sendSound (t : SoundType) : Cmd :=
  emit (fun s =>
    Play t :: (if Mode_eqb (mode s) HOST && connOpen then [Send (SOUND t)] else [])).

(** [resetBall]; [rnd] is the value of its [Math.random()]. *)
Definition resetBall (winnerSide : Side) (rnd : Q) : Cmd :=
  assign (fun s =>
    let b := set_ball_x (GAME_WIDTH / 2 - BALL_SIZE / 2) (ball s) in
    let b := set_ball_y (GAME_HEIGHT / 2 - BALL_SIZE / 2) b in
    let b := set_ball_speed INITIAL_BALL_SPEED b in
    let directionX : Q := match winnerSide with Left => 1 | Right => -1 end in
    let directionY : Q := if rnd >? 0.5 then 1 else -1 in
    let b := set_ball_dx (directionX * ball_speed b) b in
    let b := set_ball_dy (directionY * (ball_speed b * 0.75)) b in
    set_ball b s).

(** [endGame]. *)
Definition endGame (winnerName : string) : Cmd :=
  assign (fun s =>
    mkGameState (ball s) (paddleLeftY s) (paddleRightY s) (scoreLeft s)
                (scoreRight s) false true (Some winnerName) (mode s)) ;;
  emit (fun _ => [SetGameOver winnerName]) ;;
  emit (fun s =>
    if Mode_eqb (mode s) HOST && connPresent then [Send (OVER winnerName)] else []) ;;
  emit (fun _ => [Play GAME_OVER]).

(** [checkWinCondition]. *)
Definition checkWinCondition : Cmd :=
  emit (fun s => [SetScores (scoreLeft s) (scoreRight s)]) ;;
  fun s =>
    if (scoreLeft s >=? WINNING_SCORE)%Z then
      endGame (if Mode_eqb (mode s) CLIENT then remoteNickname else localNickname) s
    else if (scoreRight s >=? WINNING_SCORE)%Z then
      endGame (if Mode_eqb (mode s) CLIENT then localNickname else remoteNickname) s
    else skip s.

(** The AI opponent of [update] (only when [mode === 'SINGLE']). *)
Definition aiControl : Cmd :=
  when (fun s => Mode_eqb (mode s) SINGLE)
    (fun s =>
       let targetY := ball_y (ball s) - PADDLE_HEIGHT / 2 in
       (assign (fun s =>
          if targetY >? paddleRightY s + 10 then
            set_paddleRightY (paddleRightY s + COMPUTER_SPEED) s
          else if targetY <? paddleRightY s - 10 then
            set_paddleRightY (paddleRightY s - COMPUTER_SPEED) s
          else s) ;;
        assign (fun s =>
          set_paddleRightY
            (Math_max 0 (Math_min (GAME_HEIGHT - PADDLE_HEIGHT) (paddleRightY s))) s)) s).

(** [state.ball.x += state.ball.dx; state.ball.y += state.ball.dy]. *)
Definition moveBall : Cmd :=
  assign (fun s => set_ball (set_ball_x (ball_x (ball s) + ball_dx (ball s)) (ball s)) s) ;;
  assign (fun s => set_ball (set_ball_y (ball_y (ball s) + ball_dy (ball s)) (ball s)) s).

Definition hitsWall (s : GameState) : bool :=
  (ball_y (ball s) <=? 0) || (ball_y (ball s) + BALL_SIZE >=? GAME_HEIGHT).

Definition wallCollision : Cmd :=
  when hitsWall
    (assign (fun s => set_ball (set_ball_dy (ball_dy (ball s) * -1) (ball s)) s) ;;
     assign (fun s =>
       set_ball (set_ball_y (if ball_y (ball s) <=? 0 then 0 else GAME_HEIGHT - BALL_SIZE)
                            (ball s)) s) ;;
     sendSound WALL_HIT).

(** The overlap test of [update], the same for both paddles. *)
Definition overlaps (ballRect paddle : Rect) : bool :=
  (rect_x ballRect <? rect_x paddle + rect_w paddle) &&
  (rect_x ballRect + rect_w ballRect >? rect_x paddle) &&
  (rect_y ballRect <? rect_y paddle + rect_h paddle) &&
  (rect_y ballRect + rect_h ballRect >? rect_y paddle).

Definition hitPoint (ballRect paddle : Rect) : Q :=
  rect_y ballRect + rect_h ballRect / 2 - (rect_y paddle + rect_h paddle / 2).

(** The body of the left-paddle branch, on the ball. *)
Definition hitLeft (ballRect paddleLeft : Rect) (b : Ball) : Ball :=
  let b := set_ball_dx (Math_abs (ball_dx b)) b in
  let b := set_ball_dy ((hitPoint ballRect paddleLeft / (rect_h paddleLeft / 2)) * 10) b in
  if ball_speed b <? MAX_BALL_SPEED then
    let b := set_ball_speed (ball_speed b + 0.5) b in
    set_ball_dx (ball_speed b) b
  else b.

(** The body of the right-paddle branch, on the ball. *)
Definition hitRight (ballRect paddleRight : Rect) (b : Ball) : Ball :=
  let b := set_ball_dx (- Math_abs (ball_dx b)) b in
  let b := set_ball_dy ((hitPoint ballRect paddleRight / (rect_h paddleRight / 2)) * 10) b in
  if ball_speed b <? MAX_BALL_SPEED then
    let b := set_ball_speed (ball_speed b + 0.5) b in
    set_ball_dx (- ball_speed b) b
  else b.

Definition paddleLeftRect (s : GameState) : Rect :=
  mkRect PADDLE_OFFSET (paddleLeftY s) PADDLE_WIDTH PADDLE_HEIGHT.
Definition paddleRightRect (s : GameState) : Rect :=
  mkRect (GAME_WIDTH - PADDLE_OFFSET - PADDLE_WIDTH) (paddleRightY s) PADDLE_WIDTH PADDLE_HEIGHT.
Definition ballRectOf (s : GameState) : Rect :=
  mkRect (ball_x (ball s)) (ball_y (ball s)) BALL_SIZE BALL_SIZE.

(** The three rectangles are built once, before the two tests. *)
Definition paddleCollisions : Cmd :=
  fun s =>
    let paddleLeft := paddleLeftRect s in
    let paddleRight := paddleRightRect s in
    let ballRect := ballRectOf s in
    (when (fun _ => overlaps ballRect paddleLeft)
       (assign (fun s => set_ball (hitLeft ballRect paddleLeft (ball s)) s) ;;
        sendSound PADDLE_HIT) ;;
     when (fun _ => overlaps ballRect paddleRight)
       (assign (fun s => set_ball (hitRight ballRect paddleRight (ball s)) s) ;;
        sendSound PADDLE_HIT)) s.

Definition scoring (rnd : Q) : Cmd :=
  fun s =>
    if ball_x (ball s) <? 0 then
      (assign (fun s => set_scoreRight (scoreRight s + 1)%Z s) ;;
       sendSound SCORE_ENEMY ;;
       checkWinCondition ;;
       resetBall Right rnd) s
    else if ball_x (ball s) >? GAME_WIDTH then
      (assign (fun s => set_scoreLeft (scoreLeft s + 1)%Z s) ;;
       sendSound SCORE_PLAYER ;;
       checkWinCondition ;;
       resetBall Left rnd) s
    else skip s.

(** [update]: one tick.  [rnd] is the value [Math.random()] returns if
    the tick resets the ball. *)
Definition update (rnd : Q) : Cmd :=
  fun s =>
    if negb (isRunning s) || isGameOver s then skip s
    else if Mode_eqb (mode s) CLIENT then
      (moveBall ;; sendClientInput) s
    else
      (aiControl ;;
       moveBall ;;
       wallCollision ;;
       paddleCollisions ;;
       scoring rnd ;;
       when (fun s => Mode_eqb (mode s) HOST) sendHostUpdate) s.

(** [handleInput].  [playing] is [uiState.gameStatus === 'PLAYING'];
    [container] is [containerRef.current] with the [top] and [height] of
    its bounding rectangle.  The offset written is the code's for a
    container of non-zero height ([pointerOffset_laid_out]); for height 0
    the code divides by zero and gets an infinity or NaN, which
    [pointerOffset] computes. *)
Definition handleInput (playing : bool) (container : option (Q * Q)) (clientY : Q) : Cmd :=
  fun s =>
    if negb (isRunning s) && negb playing then skip s
    else match container with
         | None => skip s
         | Some (top, height) =>
           let scaleY := GAME_HEIGHT / height in
           let relativeY := (clientY - top) * scaleY in
           let newY := Math_max 0 (Math_min (GAME_HEIGHT - PADDLE_HEIGHT)
                                            (relativeY - PADDLE_HEIGHT / 2)) in
           if Mode_eqb (mode s) CLIENT then assign (set_paddleRightY newY) s
           else assign (set_paddleLeftY newY) s
         end.

(** [startGame]: [gameState.current] is replaced by a fresh record. *)
Definition startGame (m : Mode) (rnd : Q) : Cmd :=
  assign (fun _ =>
    mkGameState
      (mkBall (GAME_WIDTH / 2) (GAME_HEIGHT / 2)
              INITIAL_BALL_SPEED INITIAL_BALL_SPEED INITIAL_BALL_SPEED)
      (GAME_HEIGHT / 2 - PADDLE_HEIGHT / 2)
      (GAME_HEIGHT / 2 - PADDLE_HEIGHT / 2)
      0%Z 0%Z true false None m) ;;
  when (fun _ => Mode_eqb m SINGLE) (emit (fun _ => [SetRemoteNickname "CPU"%string])) ;;
  when (fun _ => negb (Mode_eqb m CLIENT))
    (when (fun _ => rnd >? 0.5)
       (assign (fun s => set_ball (set_ball_dx (- INITIAL_BALL_SPEED) (ball s)) s)) ;;
     sendSound GAME_START) ;;
  emit (fun _ => [SetScores 0 0; SetPlaying]).

(** The [conn.on('data', ...)] handler installed by [startHost]. *)
Definition hostOnData (data : Message) (rnd : Q) : Cmd :=
  match data with
  | INPUT y => assign (set_paddleRightY y)
  | NICKNAME name =>
    emit (fun _ => [SetRemoteNickname name; SetPlaying]) ;; startGame HOST rnd
  | _ => skip
  end.

(** The [conn.on('data', ...)] handler installed by [joinGame]. *)
Definition clientOnData (data : Message) (rnd : Q) : Cmd :=
  match data with
  | STATE state => handleNetworkState state
  | SOUND sound => emit (fun _ => [Play sound])
  | OVER winnerName => endGame winnerName
  | NICKNAME name =>
    emit (fun _ => [SetRemoteNickname name; SetPlaying]) ;; startGame CLIENT rnd
  | INPUT _ => skip
  end.

End Engine.

(** ** Events of a session

    What can happen to [gameState.current]: a frame of the animation loop
    ([update]), a pointer event ([handleInput]) and a message from the
    peer, handled by the handler the role installed. *)

Inductive Event : Type :=
| Tick (rnd : Q)
| Pointer (playing : bool) (container : option (Q * Q)) (clientY : Q)
| HostData (data : Message) (rnd : Q)
| ClientData (data : Message) (rnd : Q).

Definition step (localNickname remoteNickname : string) (conn : option bool)
           (e : Event) : Cmd :=
  match e with
  | Tick rnd => update localNickname remoteNickname conn rnd
  | Pointer playing container clientY => handleInput playing container clientY
  | HostData data rnd => hostOnData conn data rnd
  | ClientData data rnd => clientOnData conn data rnd
  end.

Fixpoint run (localNickname remoteNickname : string) (conn : option bool)
         (es : list Event) : Cmd :=
  match es with
  | [] => skip
  | e :: es' =>
    step localNickname remoteNickname conn e ;; run localNickname remoteNickname conn es'
  end.

(** The number of transitions to 'GAME_OVER' in a list of effects. *)
Fixpoint gameOvers (es : list Effect) : nat :=
  match es with
  | [] => 0
  | SetGameOver _ :: es' => S (gameOvers es')
  | _ :: es' => gameOvers es'
  end.

(** ** Predicates of the specification *)

(** Both paddle offsets are within [0, GAME_HEIGHT - PADDLE_HEIGHT]. *)
Definition paddles_ok (s : GameState) : Prop :=
  0 <= paddleLeftY s <= GAME_HEIGHT - PADDLE_HEIGHT /\
  0 <= paddleRightY s <= GAME_HEIGHT - PADDLE_HEIGHT.

(** The ball of an authoritative match: [speed] is one of 7, 7.5, ..., 14
    and is the magnitude of [dx]. *)
Definition ball_ok (b : Ball) : Prop :=
  (exists k : Z, (14 <= k <= 28)%Z /\ ball_speed b == inject_Z k / 2) /\
  Qabs (ball_dx b) == ball_speed b.

Definition authoritative (s : GameState) : Prop := mode s <> CLIENT.

(** A match that is being played. *)
Definition playing_state (s : GameState) : Prop :=
  isRunning s = true /\ isGameOver s = false.

(** The record at the collision tests of a tick: after the AI, the
    integration and the wall test. *)
Definition atCollision (conn : option bool) (s : GameState) : GameState :=
  after (wallCollision conn) (after moveBall (after aiControl s)).

(** [k] snapshots with the same content, received in a row. *)
Fixpoint applySnapshot (k : nat) (netState : NetworkState) (s : GameState) : GameState :=
  match k with
  | O => s
  | S k' => applySnapshot k' netState (after (handleNetworkState netState) s)
  end.

(** The events an authoritative role (SINGLE, HOST) handles, those of one
    match (no restart by a NICKNAME message), and those a CLIENT handles
    during a match. *)
Definition host_event (e : Event) : Prop :=
  match e with
  | Tick _ | Pointer _ _ _ | HostData _ _ => True
  | ClientData _ _ => False
  end.

Definition match_event (e : Event) : Prop :=
  match e with
  | Tick _ | Pointer _ _ _ => True
  | HostData (NICKNAME _) _ => False
  | HostData _ _ => True
  | ClientData _ _ => False
  end.

Definition client_event (e : Event) : Prop :=
  match e with
  | Tick _ | Pointer _ _ _ => True
  | ClientData (NICKNAME _) _ => False
  | ClientData _ _ => True
  | HostData _ _ => False
  end.

(** The paddle offsets an event carries from the peer are within the
    bounds. *)
Definition offsets_in_bounds (e : Event) : Prop :=
  match e with
  | HostData (INPUT y) _ => 0 <= y <= GAME_HEIGHT - PADDLE_HEIGHT
  | ClientData (STATE state) _ => 0 <= pLeft state <= GAME_HEIGHT - PADDLE_HEIGHT
  | _ => True
  end.


(** The event puts the ball back to the centre: a tick of an
    authoritative match being played whose move takes the ball past the
    left or the right edge, or the start of a new match. *)
Definition resets (e : Event) (s : GameState) : bool :=
  match e with
  | Tick _ =>
    isRunning s && negb (isGameOver s) && negb (Mode_eqb (mode s) CLIENT) &&
    ((ball_x (ball s) + ball_dx (ball s) <? 0) ||
     (ball_x (ball s) + ball_dx (ball s) >? GAME_WIDTH))
  | HostData (NICKNAME _) _ | ClientData (NICKNAME _) _ => true
  | _ => false
  end.

(** A rally: the events of an authoritative role between two resets of
    the ball. *)
Inductive rally (localNickname remoteNickname : string) (conn : option bool) :
  GameState -> GameState -> Prop :=
| rally_here (s : GameState) : rally localNickname remoteNickname conn s s
| rally_next (s s' : GameState) (e : Event) :
    host_event e -> resets e s = false ->
    rally localNickname remoteNickname conn
          (after (step localNickname remoteNickname conn e) s) s' ->
    rally localNickname remoteNickname conn s s'.

(** [gameState] as the component creates it ([useRef]), before any match. *)
Definition initialGameState : GameState :=
  mkGameState
    (mkBall (GAME_WIDTH / 2) (GAME_HEIGHT / 2)
            INITIAL_BALL_SPEED INITIAL_BALL_SPEED INITIAL_BALL_SPEED)
    (GAME_HEIGHT / 2 - PADDLE_HEIGHT / 2)
    (GAME_HEIGHT / 2 - PADDLE_HEIGHT / 2)
    0%Z 0%Z false false None SINGLE.

(** An authoritative match in progress: nobody has reached the winning
    score. *)
Definition live (s : GameState) : Prop :=
  authoritative s /\ playing_state s /\
  (scoreLeft s < WINNING_SCORE)%Z /\ (scoreRight s < WINNING_SCORE)%Z.

(** An authoritative match that has ended: one side is at the winning
    score and the winner recorded is the name [checkWinCondition] holds
    for that side: [localNickname] for the left side, [remoteNickname]
    for the right one, both as the tick's closure has them. *)
Definition won (localNickname remoteNickname : string) (s : GameState) : Prop :=
  authoritative s /\ isGameOver s = true /\ isRunning s = false /\
  ((scoreLeft s = WINNING_SCORE /\ (scoreRight s < WINNING_SCORE)%Z /\
    winner s = Some localNickname) \/
   (scoreRight s = WINNING_SCORE /\ (scoreLeft s < WINNING_SCORE)%Z /\
    winner s = Some remoteNickname)).

(** ** JavaScript numbers with the infinities and NaN

    The four kinds of value a JavaScript number can be, exact on the
    finite ones (no rounding), with the arithmetic the pointer handlers
    use.  Zero is +0, as the sizes of a bounding rectangle are. *)

Inductive JsNumber : Type :=
| Finite (q : Q)
| PosInfinity
| NegInfinity
| NaN.

Definition js_sub (a b : JsNumber) : JsNumber :=
  match a, b with
  | NaN, _ | _, NaN => NaN
  | Finite x, Finite y => Finite (x - y)
  | PosInfinity, PosInfinity | NegInfinity, NegInfinity => NaN
  | PosInfinity, _ => PosInfinity
  | NegInfinity, _ => NegInfinity
  | Finite _, PosInfinity => NegInfinity
  | Finite _, NegInfinity => PosInfinity
  end.

(** The product of a finite number and an infinity. *)
Definition js_scale_infinity (x : Q) (positive : bool) : JsNumber :=
  if x >? 0 then (if positive then PosInfinity else NegInfinity)
  else if x <? 0 then (if positive then NegInfinity else PosInfinity)
  else NaN.

Definition js_mul (a b : JsNumber) : JsNumber :=
  match a, b with
  | NaN, _ | _, NaN => NaN
  | Finite x, Finite y => Finite (x * y)
  | Finite x, PosInfinity | PosInfinity, Finite x => js_scale_infinity x true
  | Finite x, NegInfinity | NegInfinity, Finite x => js_scale_infinity x false
  | PosInfinity, PosInfinity | NegInfinity, NegInfinity => PosInfinity
  | PosInfinity, NegInfinity | NegInfinity, PosInfinity => NegInfinity
  end.

Definition js_div (a b : JsNumber) : JsNumber :=
  match a, b with
  | NaN, _ | _, NaN => NaN
  | Finite x, Finite y =>
    if Qeq_bool y 0 then js_scale_infinity x true else Finite (x / y)
  | Finite _, _ => Finite 0
  | PosInfinity, Finite y => if y <? 0 then NegInfinity else PosInfinity
  | NegInfinity, Finite y => if y <? 0 then PosInfinity else NegInfinity
  | _, _ => NaN
  end.

(** [Math.min] and [Math.max]. *)
Definition js_min (a b : JsNumber) : JsNumber :=
  match a, b with
  | NaN, _ | _, NaN => NaN
  | Finite x, Finite y => Finite (Math_min x y)
  | NegInfinity, _ | _, NegInfinity => NegInfinity
  | PosInfinity, v | v, PosInfinity => v
  end.

Definition js_max (a b : JsNumber) : JsNumber :=
  match a, b with
  | NaN, _ | _, NaN => NaN
  | Finite x, Finite y => Finite (Math_max x y)
  | PosInfinity, _ | _, PosInfinity => PosInfinity
  | NegInfinity, v | v, NegInfinity => v
  end.

(** [newY] of [handleInput], for any height of the container. *)
Definition pointerOffset (top height clientY : Q) : JsNumber :=
  let scaleY := js_div (Finite GAME_HEIGHT) (Finite height) in
  let relativeY := js_mul (js_sub (Finite clientY) (Finite top)) scaleY in
  js_max (Finite 0)
         (js_min (Finite (GAME_HEIGHT - PADDLE_HEIGHT))
                 (js_sub relativeY (Finite (PADDLE_HEIGHT / 2)))).


(** ** The component across renders

    [uiState.remoteNickname] starts as 'CPU' and is replaced by a
    [setUiState] (the effect [SetRemoteNickname]).  The animation loop is
    created once ([useCallback] with an empty dependency list), so the
    [update] it calls is the one of the first render: its closure holds
    the first render's [localNickname] and 'CPU' as
    [uiState.remoteNickname], for the whole life of the component.  The
    handlers and [getScoreboardData] belong to the current render.  A
    session of the component is therefore
    [run mountNickname initialRemoteNickname conn events]. *)

Definition initialRemoteNickname : string := "CPU".

(** [uiState.remoteNickname] after the effects [es], from [current]. *)
Fixpoint remoteNicknameAfter (es : list Effect) (current : string) : string :=
  match es with
  | [] => current
  | SetRemoteNickname name :: es' => remoteNicknameAfter es' name
  | _ :: es' => remoteNicknameAfter es' current
  end.

(** The winners carried by the OVER messages among the effects. *)
Fixpoint oversSent (es : list Effect) : list string :=
  match es with
  | [] => []
  | Send (OVER winnerName) :: es' => winnerName :: oversSent es'
  | _ :: es' => oversSent es'
  end.

(** The winners shown by the UI among the effects. *)
Fixpoint winnersShown (es : list Effect) : list string :=
  match es with
  | [] => []
  | SetGameOver winnerName :: es' => winnerName :: winnersShown es'
  | _ :: es' => winnersShown es'
  end.

(** An effect that leaves [uiState.remoteNickname] as it is. *)
Definition keeps_remote_nickname (e : Effect) : Prop :=
  match e with
  | SetRemoteNickname _ => False
  | _ => True
  end.

(** ** The scoreboard

    [getScoreboardData]; [scoreL] and [scoreR] are [uiState.scoreL] and
    [uiState.scoreR]. *)

Record ScoreboardData : Type := mkScoreboardData {
  name1 : string;
  score1 : Z;
  name2 : string;
  score2 : Z
}.

Definition getScoreboardData (localNickname remoteNickname : string)
           (scoreL scoreR : Z) (s : GameState) : ScoreboardData :=
  let leftName := if Mode_eqb (mode s) CLIENT then remoteNickname else localNickname in
  let leftScore := scoreL in
  let rightName := if Mode_eqb (mode s) CLIENT then localNickname else remoteNickname in
  let rightScore := scoreR in
  mkScoreboardData leftName leftScore rightName rightScore.

(** A list of effects holds no message to the peer. *)
Definition is_send (e : Effect) : bool :=
  match e with Send _ => true | _ => false end.

(** [k] ticks in a row. *)
Fixpoint ticks (localNickname remoteNickname : string) (conn : option bool)
         (rnds : list Q) (s : GameState) : GameState :=
  match rnds with
  | [] => s
  | rnd :: rnds' =>
    ticks localNickname remoteNickname conn rnds'
          (after (update localNickname remoteNickname conn rnd) s)
  end.

(** No message to the peer among the effects. *)
Definition no_send (es : list Effect) : Prop :=
  Forall (fun e => is_send e = false) es.

(** The events of a SINGLE match: frames and pointer events. *)
Definition local_event (e : Event) : Prop :=
  match e with
  | Tick _ | Pointer _ _ _ => True
  | _ => False
  end.

(** A command that, run in SINGLE mode, sends nothing and stays in
    SINGLE mode. *)
Definition offline (c : Cmd) : Prop :=
  forall s : GameState,
    mode s = SINGLE -> no_send (effects c s) /\ mode (after c s) = SINGLE.

(** What the state of the connection allows among the effects: an OVER
    message needs a connection object, any other message an open
    connection; effects that are not messages are always allowed. *)
Definition allowed (conn : option bool) (e : Effect) : Prop :=
  match e with
  | Send (OVER _) => connPresent conn = true
  | Send _ => connOpen conn = true
  | _ => True
  end.

(** A command all of whose effects satisfy [P], in every state. *)
Definition raises_only (P : Effect -> Prop) (c : Cmd) : Prop :=
  forall s : GameState, Forall P (effects c s).

(** ** The layout ([App.tsx])

    [checkLayout] computes the two flags of the component from the user
    agent test and the size of the window; the component then renders
    one of three views. *)

Inductive View : Type := RotatePrompt | MobileGame | DesktopGame.

Definition checkLayout (userAgentIsMobile : bool) (innerWidth innerHeight : Q)
  : bool * bool :=
  let isMobileDevice := userAgentIsMobile || (innerWidth <? 1024) in
  let isLand := innerWidth >=? innerHeight in
  (isMobileDevice, isLand).

Definition App (isMobile isLandscape : bool) : View :=
  if isMobile && negb isLandscape then RotatePrompt
  else if isMobile then MobileGame
  else DesktopGame.

(** ** The rotated mobile view (the version of the component with
    [getRenderCoords])

    This version draws the 800 x 600 field on a 600 x 800 canvas on
    mobile, turned so that the local player is at the bottom, and reads
    the pointer's x instead of its y. *)

Module Rotated.

Definition DESKTOP_WIDTH : Q := 800.
Definition DESKTOP_HEIGHT : Q := 600.
Definition MOBILE_WIDTH : Q := 600.
Definition MOBILE_HEIGHT : Q := 800.

Definition canvasWidth (isMobile : bool) : Q :=
  if isMobile then MOBILE_WIDTH else DESKTOP_WIDTH.
Definition canvasHeight (isMobile : bool) : Q :=
  if isMobile then MOBILE_HEIGHT else DESKTOP_HEIGHT.

(** [getRenderCoords]. *)
Definition getRenderCoords (isMobile : bool) (s : GameState) (x y w h : Q) : Rect :=
  if negb isMobile then mkRect x y w h
  else if Mode_eqb (mode s) CLIENT then
    mkRect (GAME_HEIGHT - y - h) x h w
  else
    mkRect y (GAME_WIDTH - x - w) h w.

(** [handleInput].  [container] is [containerRef.current] with the
    [left], [top], [width] and [height] of its bounding rectangle.  The
    offset written is the code's for a non-zero width (mobile) or height
    (desktop); [pointerOffset] below has the division by zero. *)
Definition handleInput (isMobile playing : bool) (container : option (Q * Q * Q * Q))
           (clientX clientY : Q) : Cmd :=
  fun s =>
    if negb (isRunning s) && negb playing then skip s
    else match container with
         | None => skip s
         | Some (rectLeft, rectTop, width, height) =>
           if isMobile then
             let relativeX := clientX - rectLeft in
             let scaleX := GAME_HEIGHT / width in
             let gameY :=
               if Mode_eqb (mode s) CLIENT then GAME_HEIGHT - (relativeX * scaleX)
               else relativeX * scaleX in
             let newPaddleY := Math_max 0 (Math_min (GAME_HEIGHT - PADDLE_HEIGHT)
                                                    (gameY - PADDLE_HEIGHT / 2)) in
             if Mode_eqb (mode s) CLIENT then assign (set_paddleRightY newPaddleY) s
             else assign (set_paddleLeftY newPaddleY) s
           else
             let scaleY := GAME_HEIGHT / height in
             let relativeY := (clientY - rectTop) * scaleY in
             let newY := Math_max 0 (Math_min (GAME_HEIGHT - PADDLE_HEIGHT)
                                              (relativeY - PADDLE_HEIGHT / 2)) in
             if Mode_eqb (mode s) CLIENT then assign (set_paddleRightY newY) s
             else assign (set_paddleLeftY newY) s
         end.

(** The rectangle of the local player's paddle as [draw] passes it to
    [getRenderCoords]: the right paddle for a CLIENT, the left one
    otherwise. *)
Definition ownPaddleY (s : GameState) : Q :=
  if Mode_eqb (mode s) CLIENT then paddleRightY s else paddleLeftY s.
Definition ownPaddleX (s : GameState) : Q :=
  if Mode_eqb (mode s) CLIENT then GAME_WIDTH - 20 - PADDLE_WIDTH else 20.

(** [newPaddleY] of the mobile branch of [handleInput], for any width
    of the container. *)
Definition pointerOffset (client : bool) (rectLeft width clientX : Q) : JsNumber :=
  let relativeX := js_sub (Finite clientX) (Finite rectLeft) in
  let scaleX := js_div (Finite GAME_HEIGHT) (Finite width) in
  let gameY :=
    if client then js_sub (Finite GAME_HEIGHT) (js_mul relativeX scaleX)
    else js_mul relativeX scaleX in
  js_max (Finite 0)
         (js_min (Finite (GAME_HEIGHT - PADDLE_HEIGHT))
                 (js_sub gameY (Finite (PADDLE_HEIGHT / 2)))).

(** A half-turn of a rectangle on the mobile canvas. *)
Definition halfTurn (r : Rect) : Rect :=
  mkRect (MOBILE_WIDTH - rect_x r - rect_w r) (MOBILE_HEIGHT - rect_y r - rect_h r)
         (rect_w r) (rect_h r).

End Rotated.

(** ** The synthesiser ([utils/sound.ts])

    The module keeps two variables, [audioCtx] and [isMuted].  The calls
    [playSound] makes on the Web Audio API are listed in program order;
    times are offsets from [now = ctx.currentTime].  [suspended] is
    [ctx.state === 'suspended'].  Exceptions of the API (the [catch]
    branch) are not modelled. *)

Module Sound.

Inductive Wave : Type := square | triangle | sawtooth.

Inductive AudioCall : Type :=
| NewAudioContext
| Resume
| CreateOscillator
| CreateGain
| ConnectOscToGain
| ConnectGainToDestination
| SetType (w : Wave)
| FrequencySetValueAtTime (v t : Q)
| FrequencyExponentialRamp (v t : Q)
| FrequencyLinearRamp (v t : Q)
| GainSetValueAtTime (v t : Q)
| GainExponentialRamp (v t : Q)
| GainLinearRamp (v t : Q)
| OscStart (t : Q)
| OscStop (t : Q).

(** [audioCtx] is [true] once the context has been created. *)
Record Module_ : Type := mkModule { audioCtx : bool; isMuted : bool }.

Definition initial : Module_ := mkModule false false.

Definition getAudioContext (m : Module_) : Module_ * list AudioCall :=
  if negb (audioCtx m) then (mkModule true (isMuted m), [NewAudioContext])
  else (m, []).

Definition toggleMute (m : Module_) : Module_ * bool :=
  let m' := mkModule (audioCtx m) (negb (isMuted m)) in
  (m', isMuted m').

Definition getMuted (m : Module_) : bool := isMuted m.

Definition playSound (suspended : bool) (type : SoundType) (m : Module_)
  : Module_ * list AudioCall :=
  if isMuted m then (m, [])
  else
    let (m', created) := getAudioContext m in
    (m',
     created ++
     (if suspended then [Resume] else []) ++
     [CreateOscillator; CreateGain; ConnectOscToGain; ConnectGainToDestination] ++
     match type with
     | PADDLE_HIT =>
       [SetType square;
        FrequencySetValueAtTime 600 0; FrequencyExponentialRamp 300 0.1;
        GainSetValueAtTime 0.1 0; GainExponentialRamp 0.01 0.1;
        OscStart 0; OscStop 0.1]
     | WALL_HIT =>
       [SetType square;
        FrequencySetValueAtTime 200 0; FrequencyExponentialRamp 100 0.1;
        GainSetValueAtTime 0.1 0; GainExponentialRamp 0.01 0.1;
        OscStart 0; OscStop 0.1]
     | SCORE_PLAYER =>
       [SetType triangle;
        FrequencySetValueAtTime 440 0; FrequencySetValueAtTime 880 0.1;
        GainSetValueAtTime 0.1 0; GainLinearRamp 0.1 0.1; GainLinearRamp 0 0.4;
        OscStart 0; OscStop 0.4]
     | SCORE_ENEMY =>
       [SetType sawtooth;
        FrequencySetValueAtTime 150 0; FrequencyLinearRamp 100 0.3;
        GainSetValueAtTime 0.1 0; GainLinearRamp 0 0.3;
        OscStart 0; OscStop 0.3]
     | GAME_START =>
       [SetType square;
        FrequencySetValueAtTime 220 0; FrequencyExponentialRamp 880 0.5;
        GainSetValueAtTime 0.1 0; GainLinearRamp 0 0.5;
        OscStart 0; OscStop 0.5]
     | GAME_OVER =>
       [SetType sawtooth;
        FrequencySetValueAtTime 400 0; FrequencyExponentialRamp 50 1.5;
        GainSetValueAtTime 0.2 0; GainLinearRamp 0 1.5;
        OscStart 0; OscStop 1.5]
     end).

(** [handleToggleMute] of the component: the new flag goes to the UI
    state, and un-muting plays the paddle sound. *)
Definition handleToggleMute (suspended : bool) (m : Module_)
  : Module_ * bool * list AudioCall :=
  let (m1, muted) := toggleMute m in
  if negb muted then
    let (m2, calls) := playSound suspended PADDLE_HIT m1 in (m2, muted, calls)
  else (m1, muted, []).

(** Readings of a list of calls: the gain values scheduled, with their
    times, the times of all scheduled events, and the stop times. *)
Fixpoint gainEvents (cs : list AudioCall) : list (Q * Q) :=
  match cs with
  | [] => []
  | GainSetValueAtTime v t :: cs' => (v, t) :: gainEvents cs'
  | GainExponentialRamp v t :: cs' => (v, t) :: gainEvents cs'
  | GainLinearRamp v t :: cs' => (v, t) :: gainEvents cs'
  | _ :: cs' => gainEvents cs'
  end.

Fixpoint stops (cs : list AudioCall) : list Q :=
  match cs with
  | [] => []
  | OscStop t :: cs' => t :: stops cs'
  | _ :: cs' => stops cs'
  end.

Fixpoint starts (cs : list AudioCall) : list Q :=
  match cs with
  | [] => []
  | OscStart t :: cs' => t :: starts cs'
  | _ :: cs' => starts cs'
  end.

(** [n] calls of [toggleMute]. *)
Fixpoint toggles (n : nat) (m : Module_) : Module_ :=
  match n with
  | O => m
  | S n' => toggles n' (fst (toggleMute m))
  end.

End Sound.

(** ** Concrete records and messages used to exercise the statements *)

(** A HOST match and a CLIENT match right after [startGame]. *)
Definition hostStart : GameState :=
  after (startGame (Some true) HOST 0) initialGameState.
Definition clientStart : GameState :=
  after (startGame (Some true) CLIENT 0) initialGameState.

(** A HOST match at 3-2 and one at 10-2, the ball one tick away from the
    right edge. *)
Definition nearRightEdge : GameState :=
  mkGameState (mkBall 795 300 7 0 7) 260 260 3 2 true false None HOST.
Definition matchPoint : GameState :=
  mkGameState (mkBall 795 300 7 0 7) 260 260 10 2 true false None HOST.

(** SINGLE matches: the ball far below the AI paddle, and the ball with
    its centre 12 below the centre of the AI paddle. *)
Definition ballFarBelow : GameState :=
  mkGameState (mkBall 400 400 7 7 7) 260 260 0 0 true false None SINGLE.
Definition ballJustBelow : GameState :=
  mkGameState (mkBall 400 306 7 7 7) 260 260 0 0 true false None SINGLE.

(** A HOST match, the ball one tick away from the middle of the left
    paddle. *)
Definition centreHit : GameState :=
  mkGameState (mkBall 50 294 (-7) 0 7) 260 260 0 0 true false None HOST.

(** The snapshot a HOST sends after the first hit on the right paddle,
    one far from the ball of [clientStart] and one close to it. *)
Definition snapshotAfterHit : NetworkState :=
  mkNetworkState (mkBall 743 539 (-7.5) 1 7.5) 260 500 0 0.
Definition snapshotNear : NetworkState :=
  mkNetworkState (mkBall 410 300 7 7 7) 260 260 0 0.

(** HOST matches: the ball one tick away from the left edge, from the
    top wall, and from the middle of the right paddle. *)
Definition nearLeftEdge : GameState :=
  mkGameState (mkBall 3 300 (-7) 0 7) 260 260 2 3 true false None HOST.
Definition nearTopWall : GameState :=
  mkGameState (mkBall 400 3 7 (-7) 7) 260 260 0 0 true false None HOST.
Definition rightHit : GameState :=
  mkGameState (mkBall 735 294 7 0 7) 260 260 0 0 true false None HOST.

(** A SINGLE match right after [startGame]. *)
Definition singleStart : GameState :=
  after (startGame None SINGLE 0) initialGameState.

(** A HOST session from the mount of the component: the peer's nickname
    "P2" arrives and starts the match (the draw 0.7 serves to the left),
    then 640 frames follow, each after an INPUT message with the peer's
    paddle at rest at 260; the local paddle is never moved.  The ball
    passes under the left paddle every time: the right side scores at
    frame 58 and then again and again, for the eleventh time before
    frame 640. *)
Definition hostFrame : list Event := [HostData (INPUT 260) 0; Tick 0.7].
Definition hostSession : list Event :=
  HostData (NICKNAME "P2") 0.7 :: concat (repeat hostFrame 640).

(** ** Basic facts *)

Lemma after_seq (c1 c2 : Cmd) (s : GameState) :
  after (c1 ;; c2) s = after c2 (after c1 s).
Proof.
  unfold after, seq. destruct (c1 s) as [s1 e1]. simpl.
  destruct (c2 s1) as [s2 e2]. reflexivity.
Qed.

Lemma effects_seq (c1 c2 : Cmd) (s : GameState) :
  effects (c1 ;; c2) s = effects c1 s ++ effects c2 (after c1 s).
Proof.
  unfold effects, after, seq. destruct (c1 s) as [s1 e1]. simpl.
  destruct (c2 s1) as [s2 e2]. reflexivity.
Qed.

Lemma after_eq (c c' : Cmd) (s : GameState) :
  c s = c' s -> after c s = after c' s.
Proof. unfold after. intro H. rewrite H. reflexivity. Qed.

Lemma effects_eq (c c' : Cmd) (s : GameState) :
  c s = c' s -> effects c s = effects c' s.
Proof. unfold effects. intro H. rewrite H. reflexivity. Qed.

Lemma Qltb_true (a b : Q) : (a <? b) = true <-> a < b.
Proof.
  unfold Qltb. rewrite negb_true_iff.
  split; intro H.
  - apply Qnot_le_lt. intro L. apply Qle_bool_iff in L. congruence.
  - destruct (Qle_bool b a) eqn:E; [|reflexivity].
    apply Qle_bool_iff in E. lra.
Qed.

Lemma Qltb_false (a b : Q) : (a <? b) = false <-> b <= a.
Proof.
  unfold Qltb. rewrite negb_false_iff. apply Qle_bool_iff.
Qed.

Lemma Qgtb_true (a b : Q) : (a >? b) = true <-> b < a.
Proof. apply (Qltb_true b a). Qed.

Lemma Qgtb_false (a b : Q) : (a >? b) = false <-> a <= b.
Proof. apply (Qltb_false b a). Qed.

Lemma Qleb_true (a b : Q) : (a <=? b) = true <-> a <= b.
Proof. apply Qle_bool_iff. Qed.

Lemma Qleb_false (a b : Q) : (a <=? b) = false <-> b < a.
Proof.
  unfold Qleb. split; intro H.
  - apply Qnot_le_lt. intro L. apply Qle_bool_iff in L. congruence.
  - destruct (Qle_bool a b) eqn:E; [|reflexivity].
    apply Qle_bool_iff in E. lra.
Qed.

Lemma Qgeb_true (a b : Q) : (a >=? b) = true <-> b <= a.
Proof. apply (Qleb_true b a). Qed.

Lemma Qgeb_false (a b : Q) : (a >=? b) = false <-> a < b.
Proof. apply (Qleb_false b a). Qed.

(** Case analysis on one comparison of the goal, with the order fact it
    decides left among the hypotheses. *)
Ltac case_cmp :=
  match goal with
  | |- context [Qltb ?a ?b] =>
    let E := fresh "E" in
    destruct (Qltb a b) eqn:E;
    [ apply Qltb_true in E | apply Qltb_false in E ]
  | |- context [Qgtb ?a ?b] =>
    let E := fresh "E" in
    destruct (Qgtb a b) eqn:E;
    [ apply Qgtb_true in E | apply Qgtb_false in E ]
  | |- context [Qleb ?a ?b] =>
    let E := fresh "E" in
    destruct (Qleb a b) eqn:E;
    [ apply Qleb_true in E | apply Qleb_false in E ]
  | |- context [Qgeb ?a ?b] =>
    let E := fresh "E" in
    destruct (Qgeb a b) eqn:E;
    [ apply Qgeb_true in E | apply Qgeb_false in E ]
  end.

(** Unfolding of the command combinators and of the field assignments,
    leaving the arithmetic of [Q] alone. *)
Ltac run_cmd :=
  cbn [after effects seq when assign emit skip fst snd
       set_ball set_paddleLeftY set_paddleRightY set_scoreLeft set_scoreRight
       set_ball_x set_ball_y set_ball_dx set_ball_dy set_ball_speed
       ball paddleLeftY paddleRightY scoreLeft scoreRight isRunning isGameOver
       winner mode ball_x ball_y ball_dx ball_dy ball_speed
       net_ball pLeft pRight sLeft sRight
       rect_x rect_y rect_w rect_h app] in *.

(** Linear arithmetic over the program's constants: the constants are
    unfolded and the divisions by 2, by 4 and by half the paddle height
    are turned into multiplications. *)
Ltac qnorm :=
  unfold GAME_WIDTH, GAME_HEIGHT, PADDLE_WIDTH, PADDLE_HEIGHT, BALL_SIZE,
         COMPUTER_SPEED, INITIAL_BALL_SPEED, MAX_BALL_SPEED, PADDLE_OFFSET,
         Math_abs, Math_max, Math_min in *;
  unfold Qdiv in *;
  change (/ 2) with (1 # 2) in *;
  change (/ 4) with (1 # 4) in *;
  change (/ (80 * (1 # 2))) with (2 # 80) in *.

Ltac qlra := qnorm; lra.

Lemma Qmax_min_bounds (lo hi v : Q) :
  lo <= hi -> lo <= Math_max lo (Math_min hi v) <= hi.
Proof.
  intro H. unfold Math_max, Math_min. split.
  - apply Q.le_max_l.
  - apply Q.max_lub; [exact H | apply Q.le_min_l].
Qed.

(** The comparison of [handleNetworkState] on the squared distance agrees
    with the comparison of the distance itself with 50. *)
Lemma snap_threshold_squared (d2 d : Q) :
  0 <= d -> d * d == d2 -> (50 < d <-> 50 * 50 < d2).
Proof.
  intros Hd Hsq. split; intro H.
  - rewrite <- Hsq. nra.
  - apply Qnot_le_lt. intro L. assert (d * d <= 50 * 50) by nra. lra.
Qed.

(** ** The tick of a stopped match, and the tick of a CLIENT *)

Section Ticks.

Variables localNickname remoteNickname : string.
Variable conn : option bool.

Lemma update_stopped (rnd : Q) (s : GameState) :
  isGameOver s = true \/ isRunning s = false ->
  update localNickname remoteNickname conn rnd s = (s, []).
Proof.
  intro H. unfold update.
  destruct H as [H | H]; rewrite H.
  - rewrite orb_true_r. reflexivity.
  - reflexivity.
Qed.

Lemma update_client (rnd : Q) (s : GameState) :
  playing_state s -> mode s = CLIENT ->
  update localNickname remoteNickname conn rnd s
  = (moveBall ;; sendClientInput conn) s.
Proof.
  intros [Hr Ho] Hm. unfold update. rewrite Hr, Ho, Hm. reflexivity.
Qed.

Lemma update_authoritative (rnd : Q) (s : GameState) :
  playing_state s -> authoritative s ->
  update localNickname remoteNickname conn rnd s
  = (aiControl ;; moveBall ;; wallCollision conn ;; paddleCollisions conn ;;
     scoring localNickname remoteNickname conn rnd ;;
     when (fun s => Mode_eqb (mode s) HOST) (sendHostUpdate conn)) s.
Proof.
  intros [Hr Ho] Hm. unfold update. rewrite Hr, Ho.
  destruct (mode s) eqn:E; try reflexivity. elim Hm. exact E.
Qed.

Lemma stopped_or_playing (s : GameState) :
  (isGameOver s = true \/ isRunning s = false) \/ playing_state s.
Proof.
  unfold playing_state.
  destruct (isGameOver s), (isRunning s); auto.
Qed.

(** C10: in a Match State with [isGameOver = true] or [isRunning = false]
    a tick is a no-op: [update] returns the record it was given, field
    for field, and raises no effect (no sound, no message, no UI update);
    so does any number of ticks in a row. *)
Theorem update_stopped_is_noop (rnd : Q) (s : GameState) :
  isGameOver s = true \/ isRunning s = false ->
  update localNickname remoteNickname conn rnd s = (s, []) /\
  forall rnds : list Q,
    run localNickname remoteNickname conn (map Tick rnds) s = (s, []).
Proof.
  intro H. split; [apply update_stopped; exact H|].
  induction rnds as [|r rnds IH]; simpl.
  - reflexivity.
  - unfold seq. rewrite (update_stopped r s H), IH. reflexivity.
Qed.

(** The record a CLIENT tick leaves while the match is played. *)
Lemma client_tick_after (rnd : Q) (s : GameState) :
  playing_state s -> mode s = CLIENT ->
  after (update localNickname remoteNickname conn rnd) s
  = set_ball (mkBall (ball_x (ball s) + ball_dx (ball s))
                     (ball_y (ball s) + ball_dy (ball s))
                     (ball_dx (ball s)) (ball_dy (ball s)) (ball_speed (ball s))) s.
Proof.
  intros Hp Hm. unfold after. rewrite (update_client rnd s Hp Hm). reflexivity.
Qed.

(** C7: a tick in CLIENT mode changes nothing but the ball's position:
    velocity, speed, scores, paddle offsets, flags, winner and mode are
    those of before, whatever the position (no wall, paddle or scoring
    logic), and the only effect is the INPUT message with the client's
    own paddle offset.  While the match is being played the position
    moves by exactly the velocity. *)
Theorem client_tick_moves_ball_only (rnd : Q) (s : GameState) :
  mode s = CLIENT ->
  let s' := after (update localNickname remoteNickname conn rnd) s in
  ball_dx (ball s') = ball_dx (ball s) /\
  ball_dy (ball s') = ball_dy (ball s) /\
  ball_speed (ball s') = ball_speed (ball s) /\
  scoreLeft s' = scoreLeft s /\
  scoreRight s' = scoreRight s /\
  paddleLeftY s' = paddleLeftY s /\
  paddleRightY s' = paddleRightY s /\
  isRunning s' = isRunning s /\
  isGameOver s' = isGameOver s /\
  winner s' = winner s /\
  mode s' = mode s /\
  (forall e, In e (effects (update localNickname remoteNickname conn rnd) s) ->
             e = Send (INPUT (paddleRightY s))) /\
  (isRunning s = true -> isGameOver s = false ->
   ball_x (ball s') = ball_x (ball s) + ball_dx (ball s) /\
   ball_y (ball s') = ball_y (ball s) + ball_dy (ball s)).
Proof.
  intros Hm s'. subst s'.
  destruct (stopped_or_playing s) as [H | H].
  - unfold after, effects. rewrite (update_stopped rnd s H). cbn [fst snd].
    repeat split; try reflexivity.
    + intros e [].
    + destruct H as [H | H]; congruence.
    + destruct H as [H | H]; congruence.
  - rewrite (client_tick_after rnd s H Hm). run_cmd.
    repeat split; try reflexivity.
    intros e He. unfold effects in He.
    rewrite (update_client rnd s H Hm) in He.
    unfold moveBall, sendClientInput in He. run_cmd.
    destruct (connOpen conn); cbn in He.
    + destruct He as [He | []]. symmetry. exact He.
    + destruct He.
Qed.

(** ** Reconciliation on CLIENT *)

(** The record [handleNetworkState] leaves. *)
Lemma handleNetworkState_after (netState : NetworkState) (s : GameState) :
  after (handleNetworkState netState) s
  = mkGameState (reconcileBall (ball s) (net_ball netState))
                (pLeft netState) (paddleRightY s) (sLeft netState) (sRight netState)
                (isRunning s) (isGameOver s) (winner s) (mode s).
Proof. reflexivity. Qed.

Lemma reconcileBall_speed (b nb : Ball) :
  ball_speed (reconcileBall b nb) = ball_speed b.
Proof.
  unfold reconcileBall. destruct (dist2 b nb >? 50 * 50); reflexivity.
Qed.

(** C8: [handleNetworkState] overwrites both scores and the left
    (HOST-controlled) paddle offset with the snapshot's values, overwrites
    the ball velocity with the snapshot's velocity whatever the distance,
    and leaves the right paddle offset, [isRunning], [isGameOver],
    [winner] and [mode] (and the ball's [speed] field) as they were. *)
Theorem reconciliation_frame (netState : NetworkState) (s : GameState) :
  let s' := after (handleNetworkState netState) s in
  scoreLeft s' = sLeft netState /\
  scoreRight s' = sRight netState /\
  paddleLeftY s' = pLeft netState /\
  ball_dx (ball s') = ball_dx (net_ball netState) /\
  ball_dy (ball s') = ball_dy (net_ball netState) /\
  paddleRightY s' = paddleRightY s /\
  isRunning s' = isRunning s /\
  isGameOver s' = isGameOver s /\
  winner s' = winner s /\
  mode s' = mode s /\
  ball_speed (ball s') = ball_speed (ball s).
Proof.
  unfold handleNetworkState, reconcileBall. run_cmd.
  destruct s as [[x y dx dy sp] pl pr sl sr r o w m].
  destruct netState as [[nx ny ndx ndy nsp] npl npr nsl nsr].
  run_cmd. case_cmp; repeat split; reflexivity.
Qed.

End Ticks.

(** ** The position of the ball under reconciliation *)

Lemma reconcile_snap (netState : NetworkState) (s : GameState) :
  50 * 50 < dist2 (ball s) (net_ball netState) ->
  ball_x (ball (after (handleNetworkState netState) s)) = ball_x (net_ball netState) /\
  ball_y (ball (after (handleNetworkState netState) s)) = ball_y (net_ball netState).
Proof.
  intro H. unfold handleNetworkState, reconcileBall. run_cmd.
  apply Qgtb_true in H. rewrite H. split; reflexivity.
Qed.

Lemma reconcile_blend (netState : NetworkState) (s : GameState) :
  dist2 (ball s) (net_ball netState) <= 50 * 50 ->
  ball_x (ball (after (handleNetworkState netState) s))
  = ball_x (ball s) + (ball_x (net_ball netState) - ball_x (ball s)) * 0.5 /\
  ball_y (ball (after (handleNetworkState netState) s))
  = ball_y (ball s) + (ball_y (net_ball netState) - ball_y (ball s)) * 0.5.
Proof.
  intro H. unfold handleNetworkState, reconcileBall. run_cmd.
  apply Qgtb_false in H. rewrite H. split; reflexivity.
Qed.

Lemma reconcile_blend_dist2 (netState : NetworkState) (s : GameState) :
  dist2 (ball s) (net_ball netState) <= 50 * 50 ->
  dist2 (ball (after (handleNetworkState netState) s)) (net_ball netState)
  == dist2 (ball s) (net_ball netState) / 4.
Proof.
  intro H. destruct (reconcile_blend netState s H) as [Hx Hy].
  unfold dist2 at 1. rewrite Hx, Hy. unfold dist2. field.
Qed.

Lemma Qsquare_nonneg (a : Q) : 0 <= a * a.
Proof.
  destruct (Qlt_le_dec a 0) as [H | H].
  - setoid_replace (a * a) with ((- a) * (- a)) by ring.
    apply Qmult_le_0_compat; lra.
  - apply Qmult_le_0_compat; exact H.
Qed.

Lemma dist2_nonneg (b nb : Ball) : 0 <= dist2 b nb.
Proof.
  unfold dist2.
  pose proof (Qsquare_nonneg (ball_x b - ball_x nb)).
  pose proof (Qsquare_nonneg (ball_y b - ball_y nb)).
  lra.
Qed.

Lemma applySnapshot_below (k : nat) (netState : NetworkState) (s : GameState) :
  dist2 (ball s) (net_ball netState) <= 50 * 50 ->
  dist2 (ball (applySnapshot k netState s)) (net_ball netState) <= 50 * 50.
Proof.
  revert s. induction k as [|k IH]; intros s H; simpl.
  - exact H.
  - apply IH. rewrite (reconcile_blend_dist2 netState s H).
    pose proof (dist2_nonneg (ball s) (net_ball netState)). qlra.
Qed.

Lemma applySnapshot_S (k : nat) (netState : NetworkState) (s : GameState) :
  applySnapshot (S k) netState s
  = after (handleNetworkState netState) (applySnapshot k netState s).
Proof.
  revert s. induction k as [|k IH]; intro s.
  - reflexivity.
  - change (applySnapshot (S (S k)) netState s)
      with (applySnapshot (S k) netState (after (handleNetworkState netState) s)).
    rewrite IH. reflexivity.
Qed.

(** C3: reconciliation of the ball's position.  If the distance between
    the predicted and the snapshot position exceeds 50 (squared distance
    above 2500) the predicted position becomes the snapshot position.
    Otherwise the vector from the predicted to the snapshot position is
    exactly halved (same direction, so no overshoot; the squared distance
    is divided by 4), and this goes on at every further application of
    the same snapshot. *)
Theorem reconciliation_snaps_or_halves (netState : NetworkState) (s : GameState) :
  let nb := net_ball netState in
  let s' := after (handleNetworkState netState) s in
  (50 * 50 < dist2 (ball s) nb ->
   ball_x (ball s') = ball_x nb /\ ball_y (ball s') = ball_y nb) /\
  (dist2 (ball s) nb <= 50 * 50 ->
   ball_x nb - ball_x (ball s') == (ball_x nb - ball_x (ball s)) / 2 /\
   ball_y nb - ball_y (ball s') == (ball_y nb - ball_y (ball s)) / 2 /\
   dist2 (ball s') nb == dist2 (ball s) nb / 4 /\
   forall k : nat,
     let sk := applySnapshot k netState s in
     let sk' := applySnapshot (S k) netState s in
     ball_x nb - ball_x (ball sk') == (ball_x nb - ball_x (ball sk)) / 2 /\
     ball_y nb - ball_y (ball sk') == (ball_y nb - ball_y (ball sk)) / 2 /\
     dist2 (ball sk') nb == dist2 (ball sk) nb / 4).
Proof.
  intros nb s'. subst nb s'. split.
  - apply reconcile_snap.
  - intro H.
    assert (G : forall t, dist2 (ball t) (net_ball netState) <= 50 * 50 ->
      ball_x (net_ball netState) - ball_x (ball (after (handleNetworkState netState) t))
      == (ball_x (net_ball netState) - ball_x (ball t)) / 2 /\
      ball_y (net_ball netState) - ball_y (ball (after (handleNetworkState netState) t))
      == (ball_y (net_ball netState) - ball_y (ball t)) / 2 /\
      dist2 (ball (after (handleNetworkState netState) t)) (net_ball netState)
      == dist2 (ball t) (net_ball netState) / 4).
    { intros t Ht. destruct (reconcile_blend netState t Ht) as [Hx Hy].
      rewrite Hx, Hy. repeat split; try field.
      apply reconcile_blend_dist2. exact Ht. }
    destruct (G s H) as (Gx & Gy & Gd).
    repeat split; try assumption.
    + rewrite applySnapshot_S. apply G. apply applySnapshot_below. exact H.
    + rewrite applySnapshot_S. apply G. apply applySnapshot_below. exact H.
    + rewrite applySnapshot_S. apply G. apply applySnapshot_below. exact H.
Qed.

(** ** The phases of an authoritative tick *)

Section Physics.

Variables localNickname remoteNickname : string.
Variable conn : option bool.

Lemma aiControl_other (s : GameState) :
  mode s <> SINGLE -> aiControl s = (s, []).
Proof.
  intro H. unfold aiControl, when.
  destruct (mode s); try reflexivity. elim H. reflexivity.
Qed.

(** The offset the AI branch leaves, before the clamp. *)
Lemma aiControl_single (s : GameState) :
  mode s = SINGLE ->
  after aiControl s
  = set_paddleRightY
      (Math_max 0 (Math_min (GAME_HEIGHT - PADDLE_HEIGHT)
         (if ball_y (ball s) - PADDLE_HEIGHT / 2 >? paddleRightY s + 10
          then paddleRightY s + COMPUTER_SPEED
          else if ball_y (ball s) - PADDLE_HEIGHT / 2 <? paddleRightY s - 10
               then paddleRightY s - COMPUTER_SPEED
               else paddleRightY s))) s.
Proof.
  intro H. unfold after, aiControl, when. rewrite H.
  cbn [Mode_eqb]. run_cmd.
  destruct (ball_y (ball s) - PADDLE_HEIGHT / 2 >? paddleRightY s + 10);
    [reflexivity|].
  destruct (ball_y (ball s) - PADDLE_HEIGHT / 2 <? paddleRightY s - 10);
    reflexivity.
Qed.

Lemma aiControl_frame (s : GameState) :
  ball (after aiControl s) = ball s /\
  paddleLeftY (after aiControl s) = paddleLeftY s /\
  scoreLeft (after aiControl s) = scoreLeft s /\
  scoreRight (after aiControl s) = scoreRight s /\
  isRunning (after aiControl s) = isRunning s /\
  isGameOver (after aiControl s) = isGameOver s /\
  winner (after aiControl s) = winner s /\
  mode (after aiControl s) = mode s.
Proof.
  destruct (mode s) eqn:E.
  - rewrite (aiControl_single s E). cbn. repeat split; auto.
  - unfold after. rewrite aiControl_other by congruence. cbn. repeat split; auto.
  - unfold after. rewrite aiControl_other by congruence. cbn. repeat split; auto.
Qed.

Lemma aiControl_effects (s : GameState) : effects aiControl s = [].
Proof.
  unfold effects, aiControl, when.
  destruct (Mode_eqb (mode s) SINGLE); reflexivity.
Qed.

Lemma moveBall_after (s : GameState) :
  after moveBall s
  = set_ball (mkBall (ball_x (ball s) + ball_dx (ball s))
                     (ball_y (ball s) + ball_dy (ball s))
                     (ball_dx (ball s)) (ball_dy (ball s)) (ball_speed (ball s))) s.
Proof. reflexivity. Qed.

Lemma wallCollision_after (s : GameState) :
  after (wallCollision conn) s
  = if hitsWall s then
      set_ball (mkBall (ball_x (ball s))
                       (if ball_y (ball s) <=? 0 then 0 else GAME_HEIGHT - BALL_SIZE)
                       (ball_dx (ball s)) (ball_dy (ball s) * -1)
                       (ball_speed (ball s))) s
    else s.
Proof.
  unfold wallCollision, when, after. destruct (hitsWall s); reflexivity.
Qed.

Lemma paddleCollisions_after (s : GameState) :
  after (paddleCollisions conn) s
  = set_ball
      ((if overlaps (ballRectOf s) (paddleRightRect s)
        then hitRight (ballRectOf s) (paddleRightRect s) else fun b => b)
         ((if overlaps (ballRectOf s) (paddleLeftRect s)
           then hitLeft (ballRectOf s) (paddleLeftRect s) else fun b => b)
            (ball s))) s.
Proof.
  unfold paddleCollisions, when, after.
  destruct (overlaps (ballRectOf s) (paddleLeftRect s));
    destruct (overlaps (ballRectOf s) (paddleRightRect s));
    destruct s as [b pl pr sl sr r o w m]; reflexivity.
Qed.

(** Where the ball is when it overlaps a paddle. *)
Lemma overlaps_left_x (s : GameState) :
  overlaps (ballRectOf s) (paddleLeftRect s) = true ->
  PADDLE_OFFSET - BALL_SIZE < ball_x (ball s) < PADDLE_OFFSET + PADDLE_WIDTH.
Proof.
  unfold overlaps, ballRectOf, paddleLeftRect. cbn [rect_x rect_y rect_w rect_h].
  rewrite !andb_true_iff. intros [[[H1 H2] _] _].
  apply Qltb_true in H1. apply Qgtb_true in H2. qlra.
Qed.

Lemma overlaps_right_x (s : GameState) :
  overlaps (ballRectOf s) (paddleRightRect s) = true ->
  GAME_WIDTH - PADDLE_OFFSET - PADDLE_WIDTH - BALL_SIZE < ball_x (ball s)
  < GAME_WIDTH - PADDLE_OFFSET.
Proof.
  unfold overlaps, ballRectOf, paddleRightRect. cbn [rect_x rect_y rect_w rect_h].
  rewrite !andb_true_iff. intros [[[H1 H2] _] _].
  apply Qltb_true in H1. apply Qgtb_true in H2. qlra.
Qed.

Lemma overlaps_not_both (s : GameState) :
  overlaps (ballRectOf s) (paddleLeftRect s) = true ->
  overlaps (ballRectOf s) (paddleRightRect s) = false.
Proof.
  intro H. apply overlaps_left_x in H.
  destruct (overlaps (ballRectOf s) (paddleRightRect s)) eqn:E; [|reflexivity].
  apply overlaps_right_x in E. qlra.
Qed.

Lemma hitLeft_position (br p : Rect) (b : Ball) :
  ball_x (hitLeft br p b) = ball_x b /\ ball_y (hitLeft br p b) = ball_y b.
Proof.
  unfold hitLeft. cbn [set_ball_dx set_ball_dy set_ball_speed ball_speed ball_x ball_y].
  destruct (ball_speed b <? MAX_BALL_SPEED); split; reflexivity.
Qed.

Lemma hitRight_position (br p : Rect) (b : Ball) :
  ball_x (hitRight br p b) = ball_x b /\ ball_y (hitRight br p b) = ball_y b.
Proof.
  unfold hitRight. cbn [set_ball_dx set_ball_dy set_ball_speed ball_speed ball_x ball_y].
  destruct (ball_speed b <? MAX_BALL_SPEED); split; reflexivity.
Qed.

Lemma hitLeft_dy (br p : Rect) (b : Ball) :
  ball_dy (hitLeft br p b) = (hitPoint br p / (rect_h p / 2)) * 10.
Proof.
  unfold hitLeft. cbn [set_ball_dx set_ball_dy set_ball_speed ball_speed ball_dy].
  destruct (ball_speed b <? MAX_BALL_SPEED); reflexivity.
Qed.

Lemma hitRight_dy (br p : Rect) (b : Ball) :
  ball_dy (hitRight br p b) = (hitPoint br p / (rect_h p / 2)) * 10.
Proof.
  unfold hitRight. cbn [set_ball_dx set_ball_dy set_ball_speed ball_speed ball_dy].
  destruct (ball_speed b <? MAX_BALL_SPEED); reflexivity.
Qed.

Lemma resetBall_after (winnerSide : Side) (rnd : Q) (s : GameState) :
  after (resetBall winnerSide rnd) s
  = set_ball
      (mkBall (GAME_WIDTH / 2 - BALL_SIZE / 2) (GAME_HEIGHT / 2 - BALL_SIZE / 2)
              ((match winnerSide with Left => 1 | Right => -1 end) * INITIAL_BALL_SPEED)
              ((if rnd >? 0.5 then 1 else -1) * (INITIAL_BALL_SPEED * 0.75))
              INITIAL_BALL_SPEED) s.
Proof. reflexivity. Qed.

Lemma endGame_after (winnerName : string) (s : GameState) :
  after (endGame conn winnerName) s
  = mkGameState (ball s) (paddleLeftY s) (paddleRightY s) (scoreLeft s)
                (scoreRight s) false true (Some winnerName) (mode s).
Proof. reflexivity. Qed.

Lemma endGame_gameOvers (winnerName : string) (s : GameState) :
  gameOvers (effects (endGame conn winnerName) s) = 1%nat.
Proof.
  unfold endGame. run_cmd.
  destruct (Mode_eqb (mode s) HOST && connPresent conn); reflexivity.
Qed.

(** The three outcomes of [checkWinCondition]. *)
Lemma checkWinCondition_left (s : GameState) :
  (WINNING_SCORE <= scoreLeft s)%Z ->
  after (checkWinCondition localNickname remoteNickname conn) s
  = after (endGame conn (if Mode_eqb (mode s) CLIENT
                         then remoteNickname else localNickname)) s /\
  gameOvers (effects (checkWinCondition localNickname remoteNickname conn) s) = 1%nat.
Proof.
  intro H. apply Z.geb_le in H.
  unfold checkWinCondition. rewrite after_seq, effects_seq.
  unfold after, effects. cbn [emit fst snd]. rewrite H. split; [reflexivity|].
  cbn [gameOvers app]. apply endGame_gameOvers.
Qed.

Lemma checkWinCondition_right (s : GameState) :
  (scoreLeft s < WINNING_SCORE)%Z -> (WINNING_SCORE <= scoreRight s)%Z ->
  after (checkWinCondition localNickname remoteNickname conn) s
  = after (endGame conn (if Mode_eqb (mode s) CLIENT
                         then localNickname else remoteNickname)) s /\
  gameOvers (effects (checkWinCondition localNickname remoteNickname conn) s) = 1%nat.
Proof.
  intros H1 H2. apply Z.geb_le in H2.
  assert (H1' : (scoreLeft s >=? WINNING_SCORE)%Z = false).
  { rewrite Z.geb_leb. apply Z.leb_gt. exact H1. }
  unfold checkWinCondition. rewrite after_seq, effects_seq.
  unfold after, effects. cbn [emit fst snd]. rewrite H1', H2.
  split; [reflexivity|].
  cbn [gameOvers app]. apply endGame_gameOvers.
Qed.

Lemma checkWinCondition_none (s : GameState) :
  (scoreLeft s < WINNING_SCORE)%Z -> (scoreRight s < WINNING_SCORE)%Z ->
  after (checkWinCondition localNickname remoteNickname conn) s = s /\
  gameOvers (effects (checkWinCondition localNickname remoteNickname conn) s) = 0%nat.
Proof.
  intros H1 H2.
  assert (H1' : (scoreLeft s >=? WINNING_SCORE)%Z = false).
  { rewrite Z.geb_leb. apply Z.leb_gt. exact H1. }
  assert (H2' : (scoreRight s >=? WINNING_SCORE)%Z = false).
  { rewrite Z.geb_leb. apply Z.leb_gt. exact H2. }
  unfold checkWinCondition. rewrite after_seq, effects_seq.
  unfold after, effects. cbn [emit fst snd]. rewrite H1', H2'.
  split; reflexivity.
Qed.

(** The win check writes the two flags and the winner, nothing else. *)
Lemma checkWinCondition_frame (s : GameState) :
  let s' := after (checkWinCondition localNickname remoteNickname conn) s in
  ball s' = ball s /\ paddleLeftY s' = paddleLeftY s /\
  paddleRightY s' = paddleRightY s /\ scoreLeft s' = scoreLeft s /\
  scoreRight s' = scoreRight s /\ mode s' = mode s.
Proof.
  intro s'. subst s'.
  destruct (Z_lt_le_dec (scoreLeft s) WINNING_SCORE) as [L | L].
  - destruct (Z_lt_le_dec (scoreRight s) WINNING_SCORE) as [R | R].
    + destruct (checkWinCondition_none s L R) as [E _]. rewrite E. tauto.
    + destruct (checkWinCondition_right s L R) as [E _]. rewrite E, endGame_after.
      cbn. tauto.
  - destruct (checkWinCondition_left s L) as [E _]. rewrite E, endGame_after.
    cbn. tauto.
Qed.

(** The three outcomes of the scoring test. *)
Lemma scoring_none (rnd : Q) (s : GameState) :
  0 <= ball_x (ball s) <= GAME_WIDTH ->
  scoring localNickname remoteNickname conn rnd s = (s, []).
Proof.
  intros [H1 H2]. unfold scoring.
  apply Qltb_false in H1. apply Qgtb_false in H2. rewrite H1, H2. reflexivity.
Qed.

Lemma scoring_right_edge (rnd : Q) (s : GameState) :
  GAME_WIDTH < ball_x (ball s) ->
  after (scoring localNickname remoteNickname conn rnd) s
  = after (resetBall Left rnd)
      (after (checkWinCondition localNickname remoteNickname conn)
         (set_scoreLeft (scoreLeft s + 1) s)) /\
  gameOvers (effects (scoring localNickname remoteNickname conn rnd) s)
  = gameOvers (effects (checkWinCondition localNickname remoteNickname conn)
                       (set_scoreLeft (scoreLeft s + 1) s)).
Proof.
  intro H.
  assert (H1 : (ball_x (ball s) <? 0) = false).
  { apply Qltb_false. qlra. }
  apply Qgtb_true in H.
  assert (E : scoring localNickname remoteNickname conn rnd s
              = (assign (fun s0 => set_scoreLeft (scoreLeft s0 + 1) s0) ;;
                 sendSound conn SCORE_PLAYER ;;
                 checkWinCondition localNickname remoteNickname conn ;;
                 resetBall Left rnd) s).
  { unfold scoring. rewrite H1, H. reflexivity. }
  rewrite (after_eq _ _ _ E), (effects_eq _ _ _ E).
  rewrite !after_seq, !effects_seq, ?after_seq. split; [reflexivity|].
  change (after (sendSound conn SCORE_PLAYER)
            (after (assign (fun s0 => set_scoreLeft (scoreLeft s0 + 1) s0)) s))
    with (set_scoreLeft (scoreLeft s + 1) s).
  change (effects (assign (fun s0 => set_scoreLeft (scoreLeft s0 + 1) s0)) s)
    with (@nil Effect).
  change (effects (resetBall Left rnd) ?t) with (@nil Effect).
  rewrite app_nil_r. cbn [app].
  unfold sendSound at 1. unfold effects at 1. cbn [emit snd].
  destruct (Mode_eqb _ _ && connOpen conn); reflexivity.
Qed.

Lemma scoring_left_edge (rnd : Q) (s : GameState) :
  ball_x (ball s) < 0 ->
  after (scoring localNickname remoteNickname conn rnd) s
  = after (resetBall Right rnd)
      (after (checkWinCondition localNickname remoteNickname conn)
         (set_scoreRight (scoreRight s + 1) s)) /\
  gameOvers (effects (scoring localNickname remoteNickname conn rnd) s)
  = gameOvers (effects (checkWinCondition localNickname remoteNickname conn)
                       (set_scoreRight (scoreRight s + 1) s)).
Proof.
  intro H. apply Qltb_true in H.
  assert (E : scoring localNickname remoteNickname conn rnd s
              = (assign (fun s0 => set_scoreRight (scoreRight s0 + 1) s0) ;;
                 sendSound conn SCORE_ENEMY ;;
                 checkWinCondition localNickname remoteNickname conn ;;
                 resetBall Right rnd) s).
  { unfold scoring. rewrite H. reflexivity. }
  rewrite (after_eq _ _ _ E), (effects_eq _ _ _ E).
  rewrite !after_seq, !effects_seq, ?after_seq. split; [reflexivity|].
  change (after (sendSound conn SCORE_ENEMY)
            (after (assign (fun s0 => set_scoreRight (scoreRight s0 + 1) s0)) s))
    with (set_scoreRight (scoreRight s + 1) s).
  change (effects (assign (fun s0 => set_scoreRight (scoreRight s0 + 1) s0)) s)
    with (@nil Effect).
  change (effects (resetBall Right rnd) ?t) with (@nil Effect).
  rewrite app_nil_r. cbn [app].
  unfold sendSound at 1. unfold effects at 1. cbn [emit snd].
  destruct (Mode_eqb _ _ && connOpen conn); reflexivity.
Qed.

Lemma gameOvers_app (es1 es2 : list Effect) :
  gameOvers (es1 ++ es2) = (gameOvers es1 + gameOvers es2)%nat.
Proof.
  induction es1 as [|e es1 IH]; [reflexivity|].
  destruct e; cbn [app gameOvers]; rewrite IH; reflexivity.
Qed.

Lemma sendSound_quiet (t : SoundType) (s : GameState) :
  after (sendSound conn t) s = s /\ gameOvers (effects (sendSound conn t) s) = 0%nat.
Proof.
  unfold sendSound, after, effects, emit.
  destruct (Mode_eqb (mode s) HOST && connOpen conn); split; reflexivity.
Qed.

Lemma sendHostUpdate_quiet (s : GameState) :
  after (when (fun s => Mode_eqb (mode s) HOST) (sendHostUpdate conn)) s = s /\
  gameOvers (effects (when (fun s => Mode_eqb (mode s) HOST) (sendHostUpdate conn)) s)
  = 0%nat.
Proof.
  unfold when, sendHostUpdate, after, effects, emit, skip.
  destruct (Mode_eqb (mode s) HOST); [|split; reflexivity].
  destruct (connOpen conn); split; reflexivity.
Qed.

Lemma wallCollision_gameOvers (s : GameState) :
  gameOvers (effects (wallCollision conn) s) = 0%nat.
Proof.
  unfold wallCollision, when, effects.
  destruct (hitsWall s); [|reflexivity].
  fold (effects (assign (fun s0 : GameState =>
          set_ball (set_ball_dy (ball_dy (ball s0) * -1) (ball s0)) s0) ;;
        assign (fun s0 : GameState =>
          set_ball (set_ball_y (if ball_y (ball s0) <=? 0 then 0
                                else GAME_HEIGHT - BALL_SIZE) (ball s0)) s0) ;;
        sendSound conn WALL_HIT) s).
  rewrite !effects_seq, !gameOvers_app.
  rewrite (proj2 (sendSound_quiet WALL_HIT _)). reflexivity.
Qed.

Lemma paddleCollisions_gameOvers (s : GameState) :
  gameOvers (effects (paddleCollisions conn) s) = 0%nat.
Proof.
  unfold paddleCollisions, effects.
  fold (effects
    (when (fun _ => overlaps (ballRectOf s) (paddleLeftRect s))
       (assign (fun s0 => set_ball (hitLeft (ballRectOf s) (paddleLeftRect s) (ball s0)) s0) ;;
        sendSound conn PADDLE_HIT) ;;
     when (fun _ => overlaps (ballRectOf s) (paddleRightRect s))
       (assign (fun s0 => set_ball (hitRight (ballRectOf s) (paddleRightRect s) (ball s0)) s0) ;;
        sendSound conn PADDLE_HIT)) s).
  rewrite effects_seq, gameOvers_app.
  assert (G : forall c f t,
    gameOvers (effects (when (fun _ => c) (assign f ;; sendSound conn PADDLE_HIT)) t)
    = 0%nat).
  { intros c f t. unfold when, effects. destruct c; [|reflexivity].
    fold (effects (assign f ;; sendSound conn PADDLE_HIT) t).
    rewrite effects_seq, gameOvers_app.
    rewrite (proj2 (sendSound_quiet PADDLE_HIT _)). reflexivity. }
  rewrite !G. reflexivity.
Qed.

(** The record at the collision tests, field by field. *)
Lemma atCollision_fields (s : GameState) :
  let m := atCollision conn s in
  ball_x (ball m) = ball_x (ball s) + ball_dx (ball s) /\
  ball_dx (ball m) = ball_dx (ball s) /\
  ball_speed (ball m) = ball_speed (ball s) /\
  paddleLeftY m = paddleLeftY s /\
  paddleRightY m = paddleRightY (after aiControl s) /\
  scoreLeft m = scoreLeft s /\ scoreRight m = scoreRight s /\
  isRunning m = isRunning s /\ isGameOver m = isGameOver s /\
  winner m = winner s /\ mode m = mode s.
Proof.
  intro m. subst m. unfold atCollision.
  destruct (aiControl_frame s) as (Hb & Hl & Hsl & Hsr & Hr & Ho & Hw & Hm).
  rewrite wallCollision_after, moveBall_after.
  destruct (hitsWall _);
    cbn [set_ball ball ball_x ball_dx ball_speed paddleLeftY paddleRightY
         scoreLeft scoreRight isRunning isGameOver winner mode];
    rewrite Hb; repeat split; assumption.
Qed.

(** The record an authoritative tick leaves, and its transitions to
    'GAME_OVER', are those of the scoring test. *)
Lemma tick_after (rnd : Q) (s : GameState) :
  playing_state s -> authoritative s ->
  after (update localNickname remoteNickname conn rnd) s
  = after (scoring localNickname remoteNickname conn rnd)
      (after (paddleCollisions conn) (atCollision conn s)) /\
  gameOvers (effects (update localNickname remoteNickname conn rnd) s)
  = gameOvers (effects (scoring localNickname remoteNickname conn rnd)
                 (after (paddleCollisions conn) (atCollision conn s))).
Proof.
  intros Hp Ha.
  rewrite (after_eq _ _ _ (update_authoritative localNickname remoteNickname conn rnd s Hp Ha)).
  rewrite (effects_eq _ _ _ (update_authoritative localNickname remoteNickname conn rnd s Hp Ha)).
  rewrite !after_seq, !effects_seq, ?after_seq, !gameOvers_app.
  rewrite (proj1 (sendHostUpdate_quiet _)), (proj2 (sendHostUpdate_quiet _)).
  rewrite aiControl_effects, wallCollision_gameOvers, paddleCollisions_gameOvers.
  unfold atCollision. split; [reflexivity|].
  change (effects moveBall ?t) with (@nil Effect). cbn [gameOvers].
  rewrite Nat.add_0_r. reflexivity.
Qed.

(** The paddle tests change the ball's velocity and speed only. *)
Lemma paddleCollisions_fields (s : GameState) :
  let s' := after (paddleCollisions conn) s in
  ball_x (ball s') = ball_x (ball s) /\ ball_y (ball s') = ball_y (ball s) /\
  paddleLeftY s' = paddleLeftY s /\ paddleRightY s' = paddleRightY s /\
  scoreLeft s' = scoreLeft s /\ scoreRight s' = scoreRight s /\
  isRunning s' = isRunning s /\ isGameOver s' = isGameOver s /\
  winner s' = winner s /\ mode s' = mode s.
Proof.
  intro s'. subst s'. rewrite paddleCollisions_after.
  cbn [set_ball ball paddleLeftY paddleRightY scoreLeft scoreRight
       isRunning isGameOver winner mode].
  destruct (overlaps (ballRectOf s) (paddleRightRect s));
    destruct (overlaps (ballRectOf s) (paddleLeftRect s));
    rewrite ?(proj1 (hitRight_position _ _ _)), ?(proj2 (hitRight_position _ _ _)),
            ?(proj1 (hitLeft_position _ _ _)), ?(proj2 (hitLeft_position _ _ _));
    repeat split; reflexivity.
Qed.

End Physics.

(** ** One authoritative tick: scoring, AI, paddle hits *)

Section AuthoritativeTick.

Variables localNickname remoteNickname : string.
Variable conn : option bool.

Lemma scoring_frame (rnd : Q) (s : GameState) :
  let s' := after (scoring localNickname remoteNickname conn rnd) s in
  paddleLeftY s' = paddleLeftY s /\ paddleRightY s' = paddleRightY s /\
  mode s' = mode s.
Proof.
  intro s'. subst s'.
  destruct (Qlt_le_dec (ball_x (ball s)) 0) as [L | L].
  - destruct (scoring_left_edge localNickname remoteNickname conn rnd s L) as [E _].
    rewrite E, resetBall_after.
    destruct (checkWinCondition_frame localNickname remoteNickname conn
                (set_scoreRight (scoreRight s + 1) s)) as (_ & Hl & Hr & _ & _ & Hm).
    cbn [set_ball paddleLeftY paddleRightY mode]. rewrite Hl, Hr, Hm.
    repeat split; reflexivity.
  - destruct (Qlt_le_dec GAME_WIDTH (ball_x (ball s))) as [R | R].
    + destruct (scoring_right_edge localNickname remoteNickname conn rnd s R) as [E _].
      rewrite E, resetBall_after.
      destruct (checkWinCondition_frame localNickname remoteNickname conn
                  (set_scoreLeft (scoreLeft s + 1) s)) as (_ & Hl & Hr & _ & _ & Hm).
      cbn [set_ball paddleLeftY paddleRightY mode]. rewrite Hl, Hr, Hm.
      repeat split; reflexivity.
    + unfold after. rewrite scoring_none by (split; assumption).
      repeat split; reflexivity.
Qed.

(** The paddle offsets and the mode after a tick of a match being played
    by an authoritative role. *)
Lemma tick_paddles (rnd : Q) (s : GameState) :
  playing_state s -> authoritative s ->
  let s' := after (update localNickname remoteNickname conn rnd) s in
  paddleLeftY s' = paddleLeftY s /\
  paddleRightY s' = paddleRightY (after aiControl s) /\
  mode s' = mode s.
Proof.
  intros Hp Ha s'. subst s'.
  rewrite (proj1 (tick_after localNickname remoteNickname conn rnd s Hp Ha)).
  destruct (scoring_frame rnd (after (paddleCollisions conn) (atCollision conn s)))
    as (Hl & Hr & Hm).
  destruct (paddleCollisions_fields conn (atCollision conn s))
    as (_ & _ & Pl & Pr & _ & _ & _ & _ & _ & Pm).
  destruct (atCollision_fields conn s)
    as (_ & _ & _ & Al & Ar & _ & _ & _ & _ & _ & Am).
  rewrite Hl, Hr, Hm, Pl, Pr, Pm, Al, Ar, Am. repeat split; reflexivity.
Qed.

(** C4: an authoritative tick in which the ball's x, after the move,
    exceeds the right edge.  The left score goes up by exactly 1 and the
    right score stays; the record left is the ball reset applied to the
    result of the win check on the incremented score (win check first,
    reset second); the ball's centre is the centre of the field, its
    speed is the initial speed, its dx is +speed (towards the right side,
    which lost the point) and its dy is 0.75 of the speed in magnitude,
    upwards or downwards by the random draw.  The win check sees the
    incremented score: when the point is the eleventh the match is over
    in this very tick ([isGameOver] true, [isRunning] false, one
    transition to 'GAME_OVER'), with the ball reset all the same; when
    both scores stay below 11 the flags and the winner are untouched and
    no transition is made. *)
Theorem right_edge_scores_left_and_resets (rnd : Q) (s : GameState) :
  playing_state s -> authoritative s ->
  GAME_WIDTH < ball_x (ball s) + ball_dx (ball s) ->
  let s' := after (update localNickname remoteNickname conn rnd) s in
  scoreLeft s' = (scoreLeft s + 1)%Z /\
  scoreRight s' = scoreRight s /\
  (exists scored : GameState,
     scoreLeft scored = (scoreLeft s + 1)%Z /\
     scoreRight scored = scoreRight s /\
     isGameOver scored = false /\
     s' = after (resetBall Left rnd)
            (after (checkWinCondition localNickname remoteNickname conn) scored)) /\
  ball_x (ball s') + BALL_SIZE / 2 == GAME_WIDTH / 2 /\
  ball_y (ball s') + BALL_SIZE / 2 == GAME_HEIGHT / 2 /\
  ball_speed (ball s') = INITIAL_BALL_SPEED /\
  ball_dx (ball s') == ball_speed (ball s') /\
  0 < ball_dx (ball s') /\
  Qabs (ball_dy (ball s')) == 0.75 * ball_speed (ball s') /\
  (0.5 < rnd -> 0 < ball_dy (ball s')) /\
  (rnd <= 0.5 -> ball_dy (ball s') < 0) /\
  ((WINNING_SCORE <= scoreLeft s + 1)%Z ->
   isGameOver s' = true /\ isRunning s' = false /\
   gameOvers (effects (update localNickname remoteNickname conn rnd) s) = 1%nat) /\
  ((scoreLeft s + 1 < WINNING_SCORE)%Z -> (scoreRight s < WINNING_SCORE)%Z ->
   isGameOver s' = false /\ isRunning s' = true /\ winner s' = winner s /\
   gameOvers (effects (update localNickname remoteNickname conn rnd) s) = 0%nat).
Proof.
  intros Hp Ha Hx s'. subst s'.
  destruct (tick_after localNickname remoteNickname conn rnd s Hp Ha) as [T N].
  rewrite T, N. clear T N.
  destruct (atCollision_fields conn s)
    as (Ax & _ & _ & _ & _ & Asl & Asr & Ar & Ao & Aw & _).
  destruct (paddleCollisions_fields conn (atCollision conn s))
    as (Px & _ & _ & _ & Psl & Psr & Pr & Po & Pw & _).
  set (p := after (paddleCollisions conn) (atCollision conn s)) in *.
  assert (R : GAME_WIDTH < ball_x (ball p)) by (rewrite Px, Ax; exact Hx).
  destruct (scoring_right_edge localNickname remoteNickname conn rnd p R) as [E N].
  rewrite E, N, resetBall_after. clear E N.
  assert (W : forall b : Ball,
    let q := set_scoreLeft (scoreLeft p + 1) p in
    let c := after (checkWinCondition localNickname remoteNickname conn) q in
    let n := gameOvers (effects (checkWinCondition localNickname remoteNickname conn) q) in
    ((WINNING_SCORE <= scoreLeft s + 1)%Z ->
     isGameOver (set_ball b c) = true /\ isRunning (set_ball b c) = false /\ n = 1%nat) /\
    ((scoreLeft s + 1 < WINNING_SCORE)%Z -> (scoreRight s < WINNING_SCORE)%Z ->
     isGameOver (set_ball b c) = false /\ isRunning (set_ball b c) = true /\
     winner (set_ball b c) = winner s /\ n = 0%nat)).
  { intros b q c n. subst c n. split.
    - intro Hw.
      destruct (checkWinCondition_left localNickname remoteNickname conn q) as [C1 C2].
      { subst q. cbn [set_scoreLeft scoreLeft]. rewrite Psl, Asl. exact Hw. }
      rewrite C1, C2, endGame_after. repeat split; reflexivity.
    - intros H1 H2.
      destruct (checkWinCondition_none localNickname remoteNickname conn q) as [C1 C2].
      { subst q. cbn [set_scoreLeft scoreLeft]. rewrite Psl, Asl. exact H1. }
      { subst q. cbn [set_scoreLeft scoreRight]. rewrite Psr, Asr. exact H2. }
      rewrite C1, C2. subst q.
      cbn [set_ball set_scoreLeft isGameOver isRunning winner].
      rewrite Po, Ao, Pr, Ar, Pw, Aw.
      destruct Hp as [Hr Ho]. repeat split; try reflexivity; assumption. }
  destruct (checkWinCondition_frame localNickname remoteNickname conn
              (set_scoreLeft (scoreLeft p + 1) p)) as (_ & _ & _ & Csl & Csr & _).
  split.
  { cbn [set_ball scoreLeft]. rewrite Csl. cbn [set_scoreLeft scoreLeft].
    rewrite Psl, Asl. reflexivity. }
  split.
  { cbn [set_ball scoreRight]. rewrite Csr. cbn [set_scoreLeft scoreRight].
    rewrite Psr, Asr. reflexivity. }
  split.
  { exists (set_scoreLeft (scoreLeft p + 1) p).
    cbn [set_scoreLeft scoreLeft scoreRight isGameOver].
    rewrite Psl, Psr, Asl, Asr, Po, Ao, resetBall_after.
    repeat split; try reflexivity. apply Hp. }
  cbn [set_ball ball ball_x ball_y ball_dx ball_dy ball_speed].
  split; [qnorm; ring|]. split; [qnorm; ring|].
  split; [reflexivity|]. split; [qnorm; ring|]. split; [qlra|].
  split.
  { destruct (rnd >? 0.5); vm_compute; reflexivity. }
  split.
  { intro H. apply Qgtb_true in H. rewrite H. qlra. }
  split.
  { intro H. apply Qgtb_false in H. rewrite H. qlra. }
  apply W.
Qed.

End AuthoritativeTick.

Section AiAndPaddles.

Variables localNickname remoteNickname : string.
Variable conn : option bool.

(** C6, as the code has it: only in SINGLE mode does a tick move the right
    paddle.  The AI compares the ball's [y] (its top edge, not its
    vertical centre) with the centre of the paddle: more than 10 below,
    the paddle goes down by 6.5; more than 10 above, up by 6.5; otherwise
    it keeps its offset; the result is clamped to [0, 520].  In HOST and
    CLIENT mode the tick leaves the right paddle where it is. *)
Theorem ai_follows_ball_top_edge (rnd : Q) (s : GameState) :
  playing_state s ->
  let s' := after (update localNickname remoteNickname conn rnd) s in
  let centre := paddleRightY s + PADDLE_HEIGHT / 2 in
  let clamp := fun v => Math_max 0 (Math_min (GAME_HEIGHT - PADDLE_HEIGHT) v) in
  (mode s = SINGLE ->
   (centre + 10 < ball_y (ball s) ->
    paddleRightY s' = clamp (paddleRightY s + COMPUTER_SPEED)) /\
   (ball_y (ball s) < centre - 10 ->
    paddleRightY s' = clamp (paddleRightY s - COMPUTER_SPEED)) /\
   (centre - 10 <= ball_y (ball s) <= centre + 10 ->
    paddleRightY s' = clamp (paddleRightY s)) /\
   0 <= paddleRightY s' <= GAME_HEIGHT - PADDLE_HEIGHT) /\
  (mode s <> SINGLE -> paddleRightY s' = paddleRightY s) /\
  (0 <= paddleRightY s <= GAME_HEIGHT - PADDLE_HEIGHT ->
   clamp (paddleRightY s) == paddleRightY s).
Proof.
  intros Hp s' centre clamp. subst s' centre clamp. cbv beta.
  split; [|split].
  - intro Hm.
    assert (Ha : authoritative s) by (unfold authoritative; congruence).
    destruct (tick_paddles localNickname remoteNickname conn rnd s Hp Ha) as (_ & Hr & _).
    rewrite Hr, (aiControl_single s Hm). cbn [set_paddleRightY paddleRightY].
    repeat split.
    + intro H.
      assert (G : (ball_y (ball s) - PADDLE_HEIGHT / 2 >? paddleRightY s + 10) = true).
      { apply Qgtb_true. qlra. }
      rewrite G. reflexivity.
    + intro H.
      assert (G1 : (ball_y (ball s) - PADDLE_HEIGHT / 2 >? paddleRightY s + 10) = false).
      { apply Qgtb_false. qlra. }
      assert (G2 : (ball_y (ball s) - PADDLE_HEIGHT / 2 <? paddleRightY s - 10) = true).
      { apply Qltb_true. qlra. }
      rewrite G1, G2. reflexivity.
    + intros [H1 H2].
      assert (G1 : (ball_y (ball s) - PADDLE_HEIGHT / 2 >? paddleRightY s + 10) = false).
      { apply Qgtb_false. qlra. }
      assert (G2 : (ball_y (ball s) - PADDLE_HEIGHT / 2 <? paddleRightY s - 10) = false).
      { apply Qltb_false. qlra. }
      rewrite G1, G2. reflexivity.
    + apply Qmax_min_bounds. qlra.
    + apply Qmax_min_bounds. qlra.
  - intro Hm. destruct (mode s) eqn:E.
    + elim Hm. reflexivity.
    + assert (Ha : authoritative s) by (unfold authoritative; congruence).
      destruct (tick_paddles localNickname remoteNickname conn rnd s Hp Ha) as (_ & Hr & _).
      rewrite Hr. unfold after. rewrite aiControl_other by congruence. reflexivity.
    + unfold after. rewrite (update_client localNickname remoteNickname conn rnd s Hp E).
      reflexivity.
  - intros [H1 H2]. unfold Math_max, Math_min.
    rewrite Q.min_r by exact H2. apply Q.max_r. exact H1.
Qed.

Lemma hitLeft_dx_positive (br p : Rect) (b : Ball) :
  0 <= ball_speed b -> ball_dx b < 0 -> 0 < ball_dx (hitLeft br p b).
Proof.
  intros Hs Hd. unfold hitLeft.
  cbn [set_ball_dx set_ball_dy set_ball_speed ball_speed ball_dx].
  destruct (ball_speed b <? MAX_BALL_SPEED);
    cbn [set_ball_dx set_ball_dy set_ball_speed ball_speed ball_dx].
  - lra.
  - unfold Math_abs. rewrite Qabs_neg by lra. lra.
Qed.

Lemma hitRight_dx_negative (br p : Rect) (b : Ball) :
  0 <= ball_speed b -> 0 < ball_dx b -> ball_dx (hitRight br p b) < 0.
Proof.
  intros Hs Hd. unfold hitRight.
  cbn [set_ball_dx set_ball_dy set_ball_speed ball_speed ball_dx].
  destruct (ball_speed b <? MAX_BALL_SPEED);
    cbn [set_ball_dx set_ball_dy set_ball_speed ball_speed ball_dx].
  - lra.
  - unfold Math_abs. rewrite Qabs_pos by lra. lra.
Qed.

(** The ball a tick leaves when it overlaps the left paddle, and when it
    overlaps the right paddle. *)
Lemma tick_hits_left (rnd : Q) (s : GameState) :
  playing_state s -> authoritative s ->
  let m := atCollision conn s in
  overlaps (ballRectOf m) (paddleLeftRect m) = true ->
  ball (after (update localNickname remoteNickname conn rnd) s)
  = hitLeft (ballRectOf m) (paddleLeftRect m) (ball m).
Proof.
  intros Hp Ha m Ho.
  rewrite (proj1 (tick_after localNickname remoteNickname conn rnd s Hp Ha)).
  fold m.
  destruct (paddleCollisions_fields conn m) as (Px & _).
  pose proof (overlaps_left_x m Ho) as Hx.
  unfold after at 1. rewrite scoring_none by (rewrite Px; qlra).
  cbn [fst]. rewrite paddleCollisions_after, Ho, (overlaps_not_both m Ho).
  reflexivity.
Qed.

Lemma tick_hits_right (rnd : Q) (s : GameState) :
  playing_state s -> authoritative s ->
  let m := atCollision conn s in
  overlaps (ballRectOf m) (paddleRightRect m) = true ->
  ball (after (update localNickname remoteNickname conn rnd) s)
  = hitRight (ballRectOf m) (paddleRightRect m) (ball m).
Proof.
  intros Hp Ha m Ho.
  rewrite (proj1 (tick_after localNickname remoteNickname conn rnd s Hp Ha)).
  fold m.
  destruct (paddleCollisions_fields conn m) as (Px & _).
  pose proof (overlaps_right_x m Ho) as Hx.
  assert (Hl : overlaps (ballRectOf m) (paddleLeftRect m) = false).
  { destruct (overlaps (ballRectOf m) (paddleLeftRect m)) eqn:E; [|reflexivity].
    rewrite (overlaps_not_both m E) in Ho. discriminate. }
  unfold after at 1. rewrite scoring_none by (rewrite Px; qlra).
  cbn [fst]. rewrite paddleCollisions_after, Ho, Hl.
  reflexivity.
Qed.

(** C9: a paddle hit in an authoritative tick.  With [m] the record at
    the collision tests, the dy the tick leaves is
    (hit / (PADDLE_HEIGHT / 2)) * 10, where hit is the ball's vertical
    centre minus the paddle's vertical centre; it is 0 when the two
    centres are aligned; and a ball that was moving towards the paddle
    moves away from it afterwards (dx changes sign). *)
Theorem paddle_hit_velocity (rnd : Q) (s : GameState) :
  playing_state s -> authoritative s -> 0 <= ball_speed (ball s) ->
  let m := atCollision conn s in
  let s' := after (update localNickname remoteNickname conn rnd) s in
  (overlaps (ballRectOf m) (paddleLeftRect m) = true ->
   let hit := ball_y (ball m) + BALL_SIZE / 2 - (paddleLeftY m + PADDLE_HEIGHT / 2) in
   ball_dy (ball s') = (hit / (PADDLE_HEIGHT / 2)) * 10 /\
   (ball_y (ball m) + BALL_SIZE / 2 == paddleLeftY m + PADDLE_HEIGHT / 2 ->
    ball_dy (ball s') == 0) /\
   (ball_dx (ball s) < 0 -> 0 < ball_dx (ball s'))) /\
  (overlaps (ballRectOf m) (paddleRightRect m) = true ->
   let hit := ball_y (ball m) + BALL_SIZE / 2 - (paddleRightY m + PADDLE_HEIGHT / 2) in
   ball_dy (ball s') = (hit / (PADDLE_HEIGHT / 2)) * 10 /\
   (ball_y (ball m) + BALL_SIZE / 2 == paddleRightY m + PADDLE_HEIGHT / 2 ->
    ball_dy (ball s') == 0) /\
   (0 < ball_dx (ball s) -> ball_dx (ball s') < 0)).
Proof.
  intros Hp Ha Hs m s'. subst s'.
  destruct (atCollision_fields conn s) as (_ & Adx & Asp & _).
  fold m in Adx, Asp.
  split; intros Ho hit; subst hit.
  - rewrite (tick_hits_left rnd s Hp Ha Ho). fold m.
    rewrite hitLeft_dy.
    unfold hitPoint, ballRectOf, paddleLeftRect. cbn [rect_x rect_y rect_w rect_h].
    split; [reflexivity|]. split.
    + intro H. qnorm. lra.
    + intro H. apply hitLeft_dx_positive; [rewrite Asp | rewrite Adx]; assumption.
  - rewrite (tick_hits_right rnd s Hp Ha Ho). fold m.
    rewrite hitRight_dy.
    unfold hitPoint, ballRectOf, paddleRightRect. cbn [rect_x rect_y rect_w rect_h].
    split; [reflexivity|]. split.
    + intro H. qnorm. lra.
    + intro H. apply hitRight_dx_negative; [rewrite Asp | rewrite Adx]; assumption.
Qed.

End AiAndPaddles.

(** ** The paddle offsets along a session *)

Section Paddles.

Variables localNickname remoteNickname : string.
Variable conn : option bool.

Lemma startGame_fields (m : Mode) (rnd : Q) (s0 : GameState) :
  let s := after (startGame conn m rnd) s0 in
  paddleLeftY s = GAME_HEIGHT / 2 - PADDLE_HEIGHT / 2 /\
  paddleRightY s = GAME_HEIGHT / 2 - PADDLE_HEIGHT / 2 /\
  scoreLeft s = 0%Z /\ scoreRight s = 0%Z /\
  isRunning s = true /\ isGameOver s = false /\ winner s = None /\ mode s = m /\
  ball_speed (ball s) = INITIAL_BALL_SPEED /\
  (ball_dx (ball s) = INITIAL_BALL_SPEED \/ ball_dx (ball s) = - INITIAL_BALL_SPEED).
Proof.
  intro s. subst s. unfold startGame, sendSound, when, after, seq, assign, emit, skip.
  destruct m; cbn [Mode_eqb negb]; destruct (rnd >? 0.5); cbn;
    repeat split; auto.
Qed.

Lemma handleInput_fields (playing : bool) (container : option (Q * Q)) (clientY : Q)
      (s : GameState) :
  let s' := after (handleInput playing container clientY) s in
  ball s' = ball s /\ scoreLeft s' = scoreLeft s /\ scoreRight s' = scoreRight s /\
  isRunning s' = isRunning s /\ isGameOver s' = isGameOver s /\
  winner s' = winner s /\ mode s' = mode s /\
  effects (handleInput playing container clientY) s = [] /\
  (paddles_ok s -> paddles_ok s').
Proof.
  intro s'. subst s'. unfold handleInput, after, effects.
  destruct (negb (isRunning s) && negb playing).
  - cbn. repeat (split; [reflexivity|]). intro H; exact H.
  - destruct container as [[top height]|].
    + destruct (Mode_eqb (mode s) CLIENT); cbn [assign fst snd];
        cbn [set_paddleLeftY set_paddleRightY ball scoreLeft scoreRight
             isRunning isGameOver winner mode];
        repeat (split; [reflexivity|]);
        intros [Hl Hr]; unfold paddles_ok;
        cbn [paddleLeftY paddleRightY]; split; try assumption;
        apply Qmax_min_bounds; qlra.
    + cbn. repeat (split; [reflexivity|]). intro H; exact H.
Qed.


Lemma startGame_paddles (m : Mode) (rnd : Q) (s0 : GameState) :
  paddles_ok (after (startGame conn m rnd) s0).
Proof.
  destruct (startGame_fields m rnd s0) as (Hl & Hr & _).
  unfold paddles_ok. rewrite Hl, Hr. qlra.
Qed.


(** For a container of height 0 the code divides by zero: the scale is
    [Infinity], and the offset is NaN for a pointer at the top of the
    container, the upper bound for one below it and 0 for one above it. *)
Lemma pointerOffset_collapsed (top height clientY : Q) :
  height == 0 ->
  pointerOffset top height clientY =
  if clientY - top >? 0 then Finite (Math_max 0 (GAME_HEIGHT - PADDLE_HEIGHT))
  else if clientY - top <? 0 then Finite 0
  else NaN.
Proof.
  intro Hh. unfold pointerOffset. cbn [js_div js_sub].
  destruct (Qeq_bool height 0) eqn:E.
  - replace (js_scale_infinity GAME_HEIGHT true) with PosInfinity by reflexivity.
    cbn [js_mul]. unfold js_scale_infinity.
    destruct (clientY - top >? 0); [reflexivity|].
    destruct (clientY - top <? 0); reflexivity.
  - apply Qeq_bool_neq in E. contradiction.
Qed.




(** The offset a CLIENT sends in its INPUT message is its own right
    paddle offset, within the bounds when its record is. *)
Lemma client_sends_offset_in_bounds (rnd : Q) (s : GameState) (y : Q) :
  playing_state s -> mode s = CLIENT -> paddles_ok s ->
  In (Send (INPUT y)) (effects (update localNickname remoteNickname conn rnd) s) ->
  offsets_in_bounds (HostData (INPUT y) rnd).
Proof.
  intros Hp Hm [_ Hr] Hin. unfold effects in Hin.
  rewrite (update_client localNickname remoteNickname conn rnd s Hp Hm) in Hin.
  unfold moveBall, sendClientInput in Hin. run_cmd.
  destruct (connOpen conn); cbn in Hin.
  - destruct Hin as [Hin | []]. injection Hin as <-. exact Hr.
  - destruct Hin.
Qed.

End Paddles.

(** ** The ball's speed along a rally *)

Section Speed.

Variables localNickname remoteNickname : string.
Variable conn : option bool.

Lemma ball_ok_same_velocity (b b' : Ball) :
  ball_dx b' = ball_dx b -> ball_speed b' = ball_speed b -> ball_ok b -> ball_ok b'.
Proof.
  intros Hd Hs [[k [Hk Hsp]] Ha]. unfold ball_ok. rewrite Hd, Hs.
  split; [exists k; split; assumption | exact Ha].
Qed.

Lemma ball_ok_bounds (b : Ball) :
  ball_ok b -> INITIAL_BALL_SPEED <= ball_speed b <= MAX_BALL_SPEED.
Proof.
  intros [[k [[Hk1 Hk2] Hsp]] _].
  rewrite Zle_Qle in Hk1, Hk2.
  change (inject_Z 14) with 14 in Hk1. change (inject_Z 28) with 28 in Hk2.
  rewrite Hsp. qlra.
Qed.

Lemma ball_ok_step (b : Ball) :
  ball_ok b -> ball_speed b < MAX_BALL_SPEED ->
  exists k : Z, (14 <= k <= 28)%Z /\ ball_speed b + 0.5 == inject_Z k / 2.
Proof.
  intros [[k [[Hk1 Hk2] Hsp]] _] Hlt.
  exists (k + 1)%Z. split.
  - split; [lia|].
    assert (H : inject_Z k < inject_Z 28).
    { rewrite Hsp in Hlt. change (inject_Z 28) with 28. qlra. }
    rewrite <- Zlt_Qlt in H. lia.
  - rewrite inject_Z_plus, Hsp. change (inject_Z 1) with 1. qnorm. ring.
Qed.

Lemma hitLeft_ok (br p : Rect) (b : Ball) :
  ball_ok b ->
  ball_ok (hitLeft br p b) /\ ball_speed b <= ball_speed (hitLeft br p b).
Proof.
  intro Hb. pose proof (ball_ok_bounds b Hb) as Hbd. unfold hitLeft.
  cbn [set_ball_dx set_ball_dy set_ball_speed ball_speed ball_dx].
  destruct (ball_speed b <? MAX_BALL_SPEED) eqn:E;
    cbn [set_ball_dx set_ball_dy set_ball_speed ball_speed ball_dx].
  - apply Qltb_true in E. split; [|run_cmd; lra]. split.
    + run_cmd. apply ball_ok_step; assumption.
    + run_cmd. apply Qabs_pos. qlra.
  - split; [|run_cmd; lra]. destruct Hb as [Hk Ha]. split.
    + exact Hk.
    + run_cmd. unfold Math_abs.
      rewrite Qabs_pos by apply Qabs_nonneg. exact Ha.
Qed.

Lemma hitRight_ok (br p : Rect) (b : Ball) :
  ball_ok b ->
  ball_ok (hitRight br p b) /\ ball_speed b <= ball_speed (hitRight br p b).
Proof.
  intro Hb. pose proof (ball_ok_bounds b Hb) as Hbd. unfold hitRight.
  cbn [set_ball_dx set_ball_dy set_ball_speed ball_speed ball_dx].
  destruct (ball_speed b <? MAX_BALL_SPEED) eqn:E;
    cbn [set_ball_dx set_ball_dy set_ball_speed ball_speed ball_dx].
  - apply Qltb_true in E. split; [|run_cmd; lra]. split.
    + run_cmd. apply ball_ok_step; assumption.
    + run_cmd. rewrite Qabs_opp. apply Qabs_pos. qlra.
  - split; [|run_cmd; lra]. destruct Hb as [Hk Ha]. split.
    + exact Hk.
    + run_cmd. unfold Math_abs.
      rewrite Qabs_opp, Qabs_pos by apply Qabs_nonneg. exact Ha.
Qed.

Lemma paddleCollisions_ok (s : GameState) :
  ball_ok (ball s) ->
  ball_ok (ball (after (paddleCollisions conn) s)) /\
  ball_speed (ball s) <= ball_speed (ball (after (paddleCollisions conn) s)).
Proof.
  intro Hb. rewrite paddleCollisions_after. cbn [set_ball ball].
  destruct (overlaps (ballRectOf s) (paddleLeftRect s)).
  - destruct (hitLeft_ok (ballRectOf s) (paddleLeftRect s) (ball s) Hb) as [H1 H2].
    destruct (overlaps (ballRectOf s) (paddleRightRect s)).
    + destruct (hitRight_ok (ballRectOf s) (paddleRightRect s) _ H1) as [H3 H4].
      split; [exact H3 | lra].
    + split; assumption.
  - destruct (overlaps (ballRectOf s) (paddleRightRect s)).
    + apply hitRight_ok. exact Hb.
    + split; [exact Hb | lra].
Qed.

Lemma resetBall_ok (winnerSide : Side) (rnd : Q) (s : GameState) :
  ball_ok (ball (after (resetBall winnerSide rnd) s)).
Proof.
  rewrite resetBall_after. cbn [set_ball ball]. split.
  - exists 14%Z. split; [lia|]. run_cmd. reflexivity.
  - run_cmd. destruct winnerSide; reflexivity.
Qed.

Lemma startGame_ok (m : Mode) (rnd : Q) (s0 : GameState) :
  ball_ok (ball (after (startGame conn m rnd) s0)).
Proof.
  destruct (startGame_fields conn m rnd s0)
    as (_ & _ & _ & _ & _ & _ & _ & _ & Hs & Hd).
  split.
  - exists 14%Z. split; [lia|]. rewrite Hs. reflexivity.
  - rewrite Hs. destruct Hd as [Hd | Hd]; rewrite Hd; reflexivity.
Qed.

(** An authoritative tick keeps [ball_ok]; when it does not reset the
    ball the speed does not decrease. *)
Lemma tick_ball_ok (rnd : Q) (s : GameState) :
  authoritative s -> ball_ok (ball s) ->
  let s' := after (update localNickname remoteNickname conn rnd) s in
  ball_ok (ball s') /\ mode s' = mode s /\
  (resets (Tick rnd) s = false -> ball_speed (ball s) <= ball_speed (ball s')).
Proof.
  intros Ha Hb s'. subst s'.
  destruct (stopped_or_playing s) as [H | Hp].
  - unfold after. rewrite (update_stopped _ _ _ rnd s H). cbn [fst].
    repeat split; [apply Hb | apply Hb | intros _; lra].
  - destruct (tick_paddles localNickname remoteNickname conn rnd s Hp Ha) as (_ & _ & Tm).
    rewrite (proj1 (tick_after localNickname remoteNickname conn rnd s Hp Ha)) in *.
    destruct (atCollision_fields conn s) as (Ax & Adx & Asp & _).
    assert (Hm : ball_ok (ball (atCollision conn s))).
    { apply (ball_ok_same_velocity (ball s)); assumption. }
    destruct (paddleCollisions_ok (atCollision conn s) Hm) as [Hpk Hps].
    destruct (paddleCollisions_fields conn (atCollision conn s)) as (Px & _).
    set (p := after (paddleCollisions conn) (atCollision conn s)) in *.
    split; [|split; [exact Tm|]].
    + destruct (Qlt_le_dec (ball_x (ball p)) 0) as [L | L].
      * rewrite (proj1 (scoring_left_edge _ _ _ rnd p L)). apply resetBall_ok.
      * destruct (Qlt_le_dec GAME_WIDTH (ball_x (ball p))) as [R | R].
        -- rewrite (proj1 (scoring_right_edge _ _ _ rnd p R)). apply resetBall_ok.
        -- unfold after at 1. rewrite scoring_none by (split; assumption).
           exact Hpk.
    + intro Hr. cbn [resets] in Hr. destruct Hp as [Hrun Hover].
      rewrite Hrun, Hover in Hr.
      assert (Hc : Mode_eqb (mode s) CLIENT = false).
      { unfold authoritative in Ha. destruct (mode s); try reflexivity.
        elim Ha. reflexivity. }
      rewrite Hc in Hr. cbn [negb andb] in Hr.
      apply orb_false_elim in Hr. destruct Hr as [H1 H2].
      apply Qltb_false in H1. apply Qgtb_false in H2.
      unfold after at 1. rewrite scoring_none by (rewrite Px, Ax; split; assumption).
      cbn [fst]. rewrite <- Asp. exact Hps.
Qed.

(** Every event an authoritative role handles keeps [ball_ok] and the
    role; outside a reset the speed does not decrease. *)
Lemma host_step_ball_ok (e : Event) (s : GameState) :
  host_event e -> authoritative s -> ball_ok (ball s) ->
  let s' := after (step localNickname remoteNickname conn e) s in
  ball_ok (ball s') /\ authoritative s' /\
  (resets e s = false -> ball_speed (ball s) <= ball_speed (ball s')).
Proof.
  intros He Ha Hb s'. subst s'.
  destruct e as [rnd | playing container clientY | data rnd | data rnd]; cbn [step].
  - destruct (tick_ball_ok rnd s Ha Hb) as (H1 & H2 & H3).
    split; [exact H1|]. split; [|exact H3].
    unfold authoritative. rewrite H2. exact Ha.
  - destruct (handleInput_fields playing container clientY s)
      as (H1 & _ & _ & _ & _ & _ & H2 & _).
    rewrite H1. unfold authoritative. rewrite H2.
    split; [exact Hb|]. split; [exact Ha | intros _; apply Qle_refl].
  - destruct data; cbn [hostOnData];
      try (split; [exact Hb|]; split; [exact Ha | intros _; apply Qle_refl]).
    rewrite after_seq. split; [apply startGame_ok|]. split.
    + unfold authoritative.
      destruct (startGame_fields conn HOST rnd
                  (after (emit (fun _ => [SetRemoteNickname name; SetPlaying])) s))
        as (_ & _ & _ & _ & _ & _ & _ & Hm & _).
      rewrite Hm. discriminate.
    + cbn [resets]. discriminate.
  - destruct He.
Qed.

(** On a CLIENT no event of a match writes the [speed] field. *)
Lemma client_step_speed (e : Event) (s : GameState) :
  client_event e -> mode s = CLIENT ->
  let s' := after (step localNickname remoteNickname conn e) s in
  ball_speed (ball s') = ball_speed (ball s) /\ mode s' = CLIENT.
Proof.
  intros He Hm s'. subst s'.
  destruct e as [rnd | playing container clientY | data rnd | data rnd]; cbn [step].
  - destruct (stopped_or_playing s) as [H | H].
    + unfold after. rewrite (update_stopped _ _ _ rnd s H).
      split; [reflexivity | exact Hm].
    + rewrite (client_tick_after _ _ _ rnd s H Hm).
      split; [reflexivity | exact Hm].
  - destruct (handleInput_fields playing container clientY s)
      as (H1 & _ & _ & _ & _ & _ & H2 & _).
    rewrite H1, H2. split; [reflexivity | exact Hm].
  - destruct He.
  - destruct data; cbn [clientOnData]; try (split; [reflexivity | exact Hm]).
    + rewrite handleNetworkState_after. cbn [ball mode].
      split; [apply reconcileBall_speed | exact Hm].
    + destruct He.
Qed.

(** [resets] is exact on ticks: a tick it marks leaves the ball where
    [resetBall] puts it, with the initial speed. *)
Lemma resets_tick_resets (rnd : Q) (s : GameState) :
  resets (Tick rnd) s = true ->
  let s' := after (update localNickname remoteNickname conn rnd) s in
  ball_x (ball s') = GAME_WIDTH / 2 - BALL_SIZE / 2 /\
  ball_y (ball s') = GAME_HEIGHT / 2 - BALL_SIZE / 2 /\
  ball_speed (ball s') = INITIAL_BALL_SPEED.
Proof.
  intros Hr s'. subst s'. cbn [resets] in Hr.
  rewrite !andb_true_iff in Hr. destruct Hr as [[[Hrun Hover] Hc] Hx].
  apply negb_true_iff in Hover, Hc.
  assert (Hp : playing_state s) by (split; assumption).
  assert (Ha : authoritative s).
  { unfold authoritative. intro E. rewrite E in Hc. discriminate. }
  rewrite (proj1 (tick_after localNickname remoteNickname conn rnd s Hp Ha)).
  destruct (atCollision_fields conn s) as (Ax & _).
  destruct (paddleCollisions_fields conn (atCollision conn s)) as (Px & _).
  set (p := after (paddleCollisions conn) (atCollision conn s)) in *.
  apply orb_true_iff in Hx. destruct Hx as [Hx | Hx].
  - apply Qltb_true in Hx.
    assert (L : ball_x (ball p) < 0) by (rewrite Px, Ax; exact Hx).
    rewrite (proj1 (scoring_left_edge _ _ _ rnd p L)), resetBall_after.
    repeat split; reflexivity.
  - apply Qgtb_true in Hx.
    assert (R : GAME_WIDTH < ball_x (ball p)) by (rewrite Px, Ax; exact Hx).
    rewrite (proj1 (scoring_right_edge _ _ _ rnd p R)), resetBall_after.
    repeat split; reflexivity.
Qed.

End Speed.

Section SpeedClaim.

Variables localNickname remoteNickname : string.
Variable conn : option bool.

Lemma rally_speed (s s' : GameState) :
  rally localNickname remoteNickname conn s s' ->
  authoritative s -> ball_ok (ball s) ->
  ball_ok (ball s') /\ authoritative s' /\ ball_speed (ball s) <= ball_speed (ball s').
Proof.
  intro R. induction R as [s | s s' e He Hr R IH]; intros Ha Hb.
  - split; [exact Hb|]. split; [exact Ha | apply Qle_refl].
  - destruct (host_step_ball_ok localNickname remoteNickname conn e s He Ha Hb)
      as (H1 & H2 & H3).
    destruct (IH H2 H1) as (I1 & I2 & I3).
    split; [exact I1|]. split; [exact I2|].
    apply Qle_trans with (2 := I3). apply H3. exact Hr.
Qed.

(** C2, as the code has it.  On the authoritative side (SINGLE, HOST):
    the ball of a new match has [speed] 7 = |dx|; every event keeps
    [speed] among 7, 7.5, ..., 14 and equal to |dx|; and along a rally
    (events between two resets of the ball) [speed] never decreases and
    never exceeds 14.  On a CLIENT no event of a match writes [speed]: it
    keeps the value it had, while [dx] is replaced by each snapshot. *)
Theorem speed_tracks_dx_on_authority :
  (forall (m : Mode) (rnd : Q) (s0 : GameState),
     ball_ok (ball (after (startGame conn m rnd) s0))) /\
  (forall (e : Event) (s : GameState),
     host_event e -> authoritative s -> ball_ok (ball s) ->
     ball_ok (ball (after (step localNickname remoteNickname conn e) s)) /\
     authoritative (after (step localNickname remoteNickname conn e) s)) /\
  (forall s s' : GameState,
     authoritative s -> ball_ok (ball s) ->
     rally localNickname remoteNickname conn s s' ->
     ball_speed (ball s) <= ball_speed (ball s') /\
     ball_speed (ball s') <= MAX_BALL_SPEED /\
     Qabs (ball_dx (ball s')) == ball_speed (ball s')) /\
  (forall (e : Event) (s : GameState),
     client_event e -> mode s = CLIENT ->
     ball_speed (ball (after (step localNickname remoteNickname conn e) s))
     = ball_speed (ball s) /\
     mode (after (step localNickname remoteNickname conn e) s) = CLIENT).
Proof.
  split; [|split; [|split]].
  - intros m rnd s0. apply startGame_ok.
  - intros e s He Ha Hb.
    destruct (host_step_ball_ok localNickname remoteNickname conn e s He Ha Hb)
      as (H1 & H2 & _).
    split; assumption.
  - intros s s' Ha Hb R.
    destruct (rally_speed s s' R Ha Hb) as (H1 & _ & H3).
    split; [exact H3|]. split.
    + apply ball_ok_bounds. exact H1.
    + apply H1.
  - intros e s He Hm. apply client_step_speed; assumption.
Qed.

End SpeedClaim.

(** ** The end of a match *)

Section GameOver.

Variables localNickname remoteNickname : string.
Variable conn : option bool.

Lemma authoritative_winner_names (s : GameState) :
  authoritative s ->
  (if Mode_eqb (mode s) CLIENT then remoteNickname else localNickname) = localNickname /\
  (if Mode_eqb (mode s) CLIENT then localNickname else remoteNickname) = remoteNickname.
Proof.
  unfold authoritative. intro Ha.
  destruct (mode s); cbn [Mode_eqb]; try (split; reflexivity).
  elim Ha. reflexivity.
Qed.

(** The win check on a record whose left score was just incremented. *)
Lemma win_check_after_left_point (rnd : Q) (p : GameState) :
  live p ->
  let q := set_scoreLeft (scoreLeft p + 1) p in
  let s' := after (resetBall Left rnd)
              (after (checkWinCondition localNickname remoteNickname conn) q) in
  let n := gameOvers (effects (checkWinCondition localNickname remoteNickname conn) q) in
  (live s' /\ n = 0%nat) \/ (won localNickname remoteNickname s' /\ n = 1%nat).
Proof.
  intros (Ha & [Hr Ho] & Hl & Hrr) q s' n. subst s' n.
  assert (Hq : authoritative q) by exact Ha.
  destruct (Z_lt_le_dec (scoreLeft q) WINNING_SCORE) as [L | L].
  - left. destruct (checkWinCondition_none localNickname remoteNickname conn q L Hrr)
      as [E N].
    rewrite E, N, resetBall_after. split; [|reflexivity].
    unfold live, authoritative, playing_state.
    cbn [set_ball mode isRunning isGameOver scoreLeft scoreRight].
    repeat split; assumption.
  - right. destruct (checkWinCondition_left localNickname remoteNickname conn q L)
      as [E N].
    rewrite E, N, endGame_after, resetBall_after.
    rewrite (proj1 (authoritative_winner_names q Hq)).
    split; [|reflexivity].
    unfold won, authoritative.
    cbn [set_ball mode isRunning isGameOver scoreLeft scoreRight winner].
    split; [exact Ha|]. split; [reflexivity|]. split; [reflexivity|].
    left. subst q. cbn [set_scoreLeft scoreLeft scoreRight] in *.
    unfold WINNING_SCORE in *. repeat split; try assumption. lia.
Qed.

(** The win check on a record whose right score was just incremented. *)
Lemma win_check_after_right_point (rnd : Q) (p : GameState) :
  live p ->
  let q := set_scoreRight (scoreRight p + 1) p in
  let s' := after (resetBall Right rnd)
              (after (checkWinCondition localNickname remoteNickname conn) q) in
  let n := gameOvers (effects (checkWinCondition localNickname remoteNickname conn) q) in
  (live s' /\ n = 0%nat) \/ (won localNickname remoteNickname s' /\ n = 1%nat).
Proof.
  intros (Ha & [Hr Ho] & Hl & Hrr) q s' n. subst s' n.
  assert (Hq : authoritative q) by exact Ha.
  destruct (Z_lt_le_dec (scoreRight q) WINNING_SCORE) as [L | L].
  - left. destruct (checkWinCondition_none localNickname remoteNickname conn q Hl L)
      as [E N].
    rewrite E, N, resetBall_after. split; [|reflexivity].
    unfold live, authoritative, playing_state.
    cbn [set_ball mode isRunning isGameOver scoreLeft scoreRight].
    repeat split; assumption.
  - right. destruct (checkWinCondition_right localNickname remoteNickname conn q Hl L)
      as [E N].
    rewrite E, N, endGame_after, resetBall_after.
    rewrite (proj2 (authoritative_winner_names q Hq)).
    split; [|reflexivity].
    unfold won, authoritative.
    cbn [set_ball mode isRunning isGameOver scoreLeft scoreRight winner].
    split; [exact Ha|]. split; [reflexivity|]. split; [reflexivity|].
    right. subst q. cbn [set_scoreRight scoreLeft scoreRight] in *.
    unfold WINNING_SCORE in *. repeat split; try assumption. lia.
Qed.

Lemma tick_live (rnd : Q) (s : GameState) :
  live s ->
  let s' := after (update localNickname remoteNickname conn rnd) s in
  let n := gameOvers (effects (update localNickname remoteNickname conn rnd) s) in
  (live s' /\ n = 0%nat) \/ (won localNickname remoteNickname s' /\ n = 1%nat).
Proof.
  intros Hlive s' n. subst s' n.
  destruct Hlive as (Ha & Hp & Hl & Hr).
  destruct (tick_after localNickname remoteNickname conn rnd s Hp Ha) as [E N].
  rewrite E, N. clear E N.
  destruct (atCollision_fields conn s)
    as (_ & _ & _ & _ & _ & Asl & Asr & Ar & Ao & _ & Am).
  destruct (paddleCollisions_fields conn (atCollision conn s))
    as (_ & _ & _ & _ & Psl & Psr & Pr & Po & _ & Pm).
  set (p := after (paddleCollisions conn) (atCollision conn s)) in *.
  assert (Lp : live p).
  { unfold live, authoritative, playing_state.
    rewrite Pm, Am, Pr, Ar, Po, Ao, Psl, Asl, Psr, Asr.
    split; [exact Ha|]. split; [exact Hp|]. split; assumption. }
  destruct (Qlt_le_dec (ball_x (ball p)) 0) as [L | L].
  - destruct (scoring_left_edge localNickname remoteNickname conn rnd p L) as [E N].
    rewrite E, N. apply win_check_after_right_point. exact Lp.
  - destruct (Qlt_le_dec GAME_WIDTH (ball_x (ball p))) as [R | R].
    + destruct (scoring_right_edge localNickname remoteNickname conn rnd p R) as [E N].
      rewrite E, N. apply win_check_after_left_point. exact Lp.
    + left. unfold after at 1. unfold effects.
      rewrite scoring_none by (split; assumption).
      split; [exact Lp | reflexivity].
Qed.

Lemma step_live (e : Event) (s : GameState) :
  match_event e -> live s ->
  let s' := after (step localNickname remoteNickname conn e) s in
  let n := gameOvers (effects (step localNickname remoteNickname conn e) s) in
  (live s' /\ n = 0%nat) \/ (won localNickname remoteNickname s' /\ n = 1%nat).
Proof.
  intros He Hl s' n. subst s' n.
  destruct e as [rnd | playing container clientY | data rnd | data rnd]; cbn [step].
  - apply tick_live. exact Hl.
  - left.
    destruct (handleInput_fields playing container clientY s)
      as (_ & H1 & H2 & H3 & H4 & _ & H5 & H6 & _).
    rewrite H6. split; [|reflexivity].
    unfold live, authoritative, playing_state. rewrite H1, H2, H3, H4, H5.
    exact Hl.
  - left. destruct data; cbn [hostOnData]; try (split; [exact Hl | reflexivity]).
    destruct He.
  - destruct He.
Qed.

Lemma step_won (e : Event) (s : GameState) :
  match_event e -> won localNickname remoteNickname s ->
  won localNickname remoteNickname (after (step localNickname remoteNickname conn e) s) /\
  gameOvers (effects (step localNickname remoteNickname conn e) s) = 0%nat.
Proof.
  intros He Hw.
  destruct e as [rnd | playing container clientY | data rnd | data rnd]; cbn [step].
  - unfold after, effects.
    rewrite (update_stopped localNickname remoteNickname conn rnd s)
      by (left; apply Hw).
    split; [exact Hw | reflexivity].
  - destruct (handleInput_fields playing container clientY s)
      as (_ & H1 & H2 & H3 & H4 & H5 & H6 & H7 & _).
    rewrite H7. split; [|reflexivity].
    unfold won, authoritative. rewrite H1, H2, H3, H4, H5, H6. exact Hw.
  - destruct data; cbn [hostOnData]; try (split; [exact Hw | reflexivity]).
    destruct He.
  - destruct He.
Qed.

Lemma run_won (es : list Event) (s : GameState) :
  Forall match_event es -> won localNickname remoteNickname s ->
  won localNickname remoteNickname (after (run localNickname remoteNickname conn es) s) /\
  gameOvers (effects (run localNickname remoteNickname conn es) s) = 0%nat.
Proof.
  intro Hes. revert s. induction Hes as [|e es He Hes IH]; intros s Hw.
  - split; [exact Hw | reflexivity].
  - cbn [run]. rewrite after_seq, effects_seq, gameOvers_app.
    destruct (step_won e s He Hw) as [W N].
    destruct (IH _ W) as [W' N'].
    rewrite N, N'. split; [exact W' | reflexivity].
Qed.

Lemma run_live (es : list Event) (s : GameState) :
  Forall match_event es -> live s ->
  let s' := after (run localNickname remoteNickname conn es) s in
  let n := gameOvers (effects (run localNickname remoteNickname conn es) s) in
  (live s' /\ n = 0%nat) \/ (won localNickname remoteNickname s' /\ n = 1%nat).
Proof.
  intro Hes. revert s. induction Hes as [|e es He Hes IH]; intros s Hl; cbv zeta.
  - left. split; [exact Hl | reflexivity].
  - cbn [run]. rewrite after_seq, effects_seq, gameOvers_app.
    destruct (step_live e s He Hl) as [[L N] | [W N]]; rewrite N.
    + apply IH. exact L.
    + right. destruct (run_won es _ Hes W) as [W' N'].
      rewrite N'. split; [exact W' | reflexivity].
Qed.

(** The end of a match, in the names the tick's closure holds: an
    authoritative match in progress (both scores below 11), followed
    through any events of the match.  Whenever a score is at 11 the match
    is over: [isGameOver] is true, [isRunning] is false, the winner
    recorded is the closure's [localNickname] for the left side and the
    closure's [remoteNickname] for the right side, and the transition to
    'GAME_OVER' was made exactly once, however many ticks followed it.
    As long as no score is at 11 no transition is made. *)
Lemma win_ends_match_exactly_once (es : list Event) (s : GameState) :
  live s -> Forall match_event es ->
  let s' := after (run localNickname remoteNickname conn es) s in
  let n := gameOvers (effects (run localNickname remoteNickname conn es) s) in
  (scoreLeft s' = WINNING_SCORE ->
   isGameOver s' = true /\ isRunning s' = false /\
   winner s' = Some localNickname /\ n = 1%nat) /\
  (scoreRight s' = WINNING_SCORE ->
   isGameOver s' = true /\ isRunning s' = false /\
   winner s' = Some remoteNickname /\ n = 1%nat) /\
  (scoreLeft s' <> WINNING_SCORE -> scoreRight s' <> WINNING_SCORE ->
   isGameOver s' = false /\ isRunning s' = true /\ n = 0%nat) /\
  (n <= 1)%nat.
Proof.
  intros Hl Hes s' n. subst s' n.
  destruct (run_live es s Hes Hl) as [[L N] | [W N]]; rewrite N.
  - destruct L as (_ & [Hr Ho] & L1 & L2).
    split; [intro H; lia|]. split; [intro H; lia|].
    split; [intros _ _; repeat split; assumption | lia].
  - destruct W as (_ & Ho & Hr & [(W1 & W2 & W3) | (W1 & W2 & W3)]).
    + split; [intros _; repeat split; assumption|].
      split; [intro H; lia|]. split; [intros H; contradiction | lia].
    + split; [intro H; lia|].
      split; [intros _; repeat split; assumption|].
      split; [intros _ H; contradiction | lia].
Qed.

End GameOver.

(** ** The statements on concrete records *)


Lemma hostStart_ball_ok : ball_ok (ball hostStart).
Proof.
  split.
  - exists 14%Z. split; [lia | reflexivity].
  - reflexivity.
Qed.

Lemma hostStart_authoritative : authoritative hostStart.
Proof. unfold authoritative. cbn. discriminate. Qed.



Lemma speed_tracks_dx_on_authority_witness :
  ball_ok (ball (after (step "P1" "P2" (Some true) (Tick 0)) hostStart)) /\
  ball_speed (ball hostStart)
  <= ball_speed (ball (after (step "P1" "P2" (Some true) (Tick 0)) hostStart)) /\
  ball_speed (ball (after (step "P1" "P2" (Some true)
                                (ClientData (STATE snapshotAfterHit) 0)) clientStart))
  = ball_speed (ball clientStart).
Proof.
  destruct (speed_tracks_dx_on_authority "P1" "P2" (Some true))
    as (_ & Hstep & Hrally & Hclient).
  split; [|split].
  - apply Hstep; [exact I | exact hostStart_authoritative | exact hostStart_ball_ok].
  - apply Hrally; [exact hostStart_authoritative | exact hostStart_ball_ok |].
    apply rally_next with (e := Tick 0); [exact I | reflexivity | apply rally_here].
  - apply Hclient; [exact I | reflexivity].
Defined.

(** C2 fails on a CLIENT: after the snapshot of a HOST whose ball was hit
    once (dx = -7.5), the client's ball has dx = -7.5 and [speed] still 7. *)
Lemma client_speed_does_not_track_dx :
  let s := after (step "P1" "P2" (Some true) (ClientData (STATE snapshotAfterHit) 0))
                 clientStart in
  mode s = CLIENT /\
  Qabs (ball_dx (ball s)) == 7.5 /\
  ball_speed (ball s) == 7 /\
  ~ Qabs (ball_dx (ball s)) == ball_speed (ball s).
Proof.
  cbv zeta. split; [reflexivity|]. split; [reflexivity|]. split; [reflexivity|].
  intro H. vm_compute in H. discriminate H.
Qed.

Lemma reconciliation_snaps_or_halves_witness :
  ball_x (ball (after (handleNetworkState snapshotAfterHit) clientStart)) = 743 /\
  ball_x (net_ball snapshotNear)
  - ball_x (ball (after (handleNetworkState snapshotNear) clientStart))
  == (ball_x (net_ball snapshotNear) - ball_x (ball clientStart)) / 2.
Proof.
  split.
  - apply (proj1 (reconciliation_snaps_or_halves snapshotAfterHit clientStart)).
    reflexivity.
  - destruct (proj2 (reconciliation_snaps_or_halves snapshotNear clientStart)) as [H _].
    + vm_compute. discriminate.
    + exact H.
Defined.

Lemma right_edge_scores_left_and_resets_witness :
  scoreLeft (after (update "P1" "P2" (Some true) 0.7) matchPoint) = 11%Z /\
  isGameOver (after (update "P1" "P2" (Some true) 0.7) matchPoint) = true /\
  isRunning (after (update "P1" "P2" (Some true) 0.7) matchPoint) = false /\
  gameOvers (effects (update "P1" "P2" (Some true) 0.7) matchPoint) = 1%nat /\
  ball_x (ball (after (update "P1" "P2" (Some true) 0.7) matchPoint)) + BALL_SIZE / 2
  == GAME_WIDTH / 2.
Proof.
  assert (Hp : playing_state matchPoint) by (split; reflexivity).
  assert (Ha : authoritative matchPoint) by (unfold authoritative; cbn; discriminate).
  assert (Hx : GAME_WIDTH < ball_x (ball matchPoint) + ball_dx (ball matchPoint))
    by reflexivity.
  destruct (right_edge_scores_left_and_resets "P1" "P2" (Some true) 0.7 matchPoint
              Hp Ha Hx)
    as (H1 & _ & _ & H4 & _ & _ & _ & _ & _ & _ & _ & H12 & _).
  assert (Hw : (WINNING_SCORE <= scoreLeft matchPoint + 1)%Z)
    by (vm_compute; discriminate).
  destruct (H12 Hw) as (G1 & G2 & G3).
  split; [exact H1|]. split; [exact G1|]. split; [exact G2|].
  split; [exact G3 | exact H4].
Defined.

Lemma matchPoint_live : live matchPoint.
Proof.
  unfold live, authoritative, playing_state. cbn.
  repeat split; try reflexivity. discriminate.
Qed.

Lemma win_ends_match_exactly_once_witness :
  isGameOver (after (run "P1" "P2" (Some true) [Tick 0.7; Tick 0.7; Tick 0.7]) matchPoint)
  = true /\
  isRunning (after (run "P1" "P2" (Some true) [Tick 0.7; Tick 0.7; Tick 0.7]) matchPoint)
  = false /\
  winner (after (run "P1" "P2" (Some true) [Tick 0.7; Tick 0.7; Tick 0.7]) matchPoint)
  = Some "P1"%string /\
  gameOvers (effects (run "P1" "P2" (Some true) [Tick 0.7; Tick 0.7; Tick 0.7]) matchPoint)
  = 1%nat.
Proof.
  apply (win_ends_match_exactly_once "P1" "P2" (Some true)
           [Tick 0.7; Tick 0.7; Tick 0.7] matchPoint).
  - exact matchPoint_live.
  - repeat constructor.
  - vm_compute. reflexivity.
Defined.

Lemma ai_follows_ball_top_edge_witness :
  paddleRightY (after (update "P1" "CPU" None 0) ballFarBelow)
  = Math_max 0 (Math_min (GAME_HEIGHT - PADDLE_HEIGHT)
                         (paddleRightY ballFarBelow + COMPUTER_SPEED)).
Proof.
  apply (ai_follows_ball_top_edge "P1" "CPU" None 0 ballFarBelow).
  - split; reflexivity.
  - reflexivity.
  - reflexivity.
Defined.

(** C6 fails as stated: the ball's centre (312) is 12 below the centre of
    the AI paddle (300), more than the dead zone of 10, and the paddle
    keeps its offset 260 instead of moving down to 266.5. *)
Lemma ai_ignores_ball_centre :
  10 < (ball_y (ball ballJustBelow) + BALL_SIZE / 2)
       - (paddleRightY ballJustBelow + PADDLE_HEIGHT / 2) /\
  mode ballJustBelow = SINGLE /\
  paddleRightY (after (update "P1" "CPU" None 0) ballJustBelow)
  == paddleRightY ballJustBelow /\
  ~ paddleRightY (after (update "P1" "CPU" None 0) ballJustBelow)
    == paddleRightY ballJustBelow + COMPUTER_SPEED.
Proof.
  split; [reflexivity|]. split; [reflexivity|]. split; [reflexivity|].
  intro H. vm_compute in H. discriminate H.
Qed.

Lemma client_tick_moves_ball_only_witness :
  ball_dx (ball (after (update "P1" "P2" (Some true) 0) clientStart))
  = ball_dx (ball clientStart).
Proof.
  apply (client_tick_moves_ball_only "P1" "P2" (Some true) 0 clientStart).
  reflexivity.
Defined.

Lemma paddle_hit_velocity_witness :
  ball_dy (ball (after (update "P1" "P2" (Some true) 0) centreHit)) == 0 /\
  0 < ball_dx (ball (after (update "P1" "P2" (Some true) 0) centreHit)).
Proof.
  assert (Hp : playing_state centreHit) by (split; reflexivity).
  assert (Ha : authoritative centreHit) by (unfold authoritative; cbn; discriminate).
  assert (Hs : 0 <= ball_speed (ball centreHit)) by (vm_compute; discriminate).
  assert (Ho : overlaps (ballRectOf (atCollision (Some true) centreHit))
                        (paddleLeftRect (atCollision (Some true) centreHit)) = true)
    by (vm_compute; reflexivity).
  destruct (proj1 (paddle_hit_velocity "P1" "P2" (Some true) 0 centreHit Hp Ha Hs) Ho)
    as (_ & Hdy & Hdx).
  split.
  - apply Hdy. vm_compute. reflexivity.
  - apply Hdx. reflexivity.
Defined.

Lemma update_stopped_is_noop_witness :
  update "P1" "P2" None 0 initialGameState = (initialGameState, []).
Proof.
  apply (update_stopped_is_noop "P1" "P2" None 0 initialGameState).
  right. reflexivity.
Defined.

(** ** The ball in the field *)

Section Field.

Variables localNickname remoteNickname : string.
Variable conn : option bool.

(** The vertical position and velocity at the collision tests. *)
Lemma atCollision_vertical (s : GameState) :
  let y1 := ball_y (ball s) + ball_dy (ball s) in
  let bounced := (y1 <=? 0) || (y1 + BALL_SIZE >=? GAME_HEIGHT) in
  ball_y (ball (atCollision conn s))
  = (if bounced then (if y1 <=? 0 then 0 else GAME_HEIGHT - BALL_SIZE) else y1) /\
  ball_dy (ball (atCollision conn s))
  = (if bounced then ball_dy (ball s) * -1 else ball_dy (ball s)).
Proof.
  intros y1 bounced. subst y1 bounced. unfold atCollision.
  destruct (aiControl_frame s) as (Hb & _).
  rewrite wallCollision_after, moveBall_after. unfold hitsWall.
  cbn [set_ball ball ball_y]. rewrite Hb.
  destruct ((ball_y (ball s) + ball_dy (ball s) <=? 0)
            || (ball_y (ball s) + ball_dy (ball s) + BALL_SIZE >=? GAME_HEIGHT));
    split; reflexivity.
Qed.

Lemma atCollision_y_bounds (s : GameState) :
  0 <= ball_y (ball (atCollision conn s)) <= GAME_HEIGHT - BALL_SIZE.
Proof.
  destruct (atCollision_vertical s) as [Hy _]. rewrite Hy. clear Hy.
  destruct (ball_y (ball s) + ball_dy (ball s) <=? 0) eqn:E1.
  - cbn [orb]. qlra.
  - cbn [orb]. apply Qleb_false in E1.
    destruct (ball_y (ball s) + ball_dy (ball s) + BALL_SIZE >=? GAME_HEIGHT) eqn:E2.
    + qlra.
    + apply Qgeb_false in E2. qlra.
Qed.

(** After a tick of a match being played by an authoritative role the
    ball is inside the field, wherever it was before: [0 <= x <= 800]
    and [0 <= y <= 588]. *)
Theorem tick_keeps_ball_in_field (rnd : Q) (s : GameState) :
  playing_state s -> authoritative s ->
  let s' := after (update localNickname remoteNickname conn rnd) s in
  0 <= ball_x (ball s') <= GAME_WIDTH /\
  0 <= ball_y (ball s') <= GAME_HEIGHT - BALL_SIZE.
Proof.
  intros Hp Ha s'. subst s'.
  rewrite (proj1 (tick_after localNickname remoteNickname conn rnd s Hp Ha)).
  pose proof (atCollision_y_bounds s) as Hy.
  destruct (paddleCollisions_fields conn (atCollision conn s)) as (_ & Py & _).
  set (p := after (paddleCollisions conn) (atCollision conn s)) in *.
  destruct (Qlt_le_dec (ball_x (ball p)) 0) as [L | L].
  - rewrite (proj1 (scoring_left_edge _ _ _ rnd p L)), resetBall_after.
    cbn [set_ball ball ball_x ball_y]. qlra.
  - destruct (Qlt_le_dec GAME_WIDTH (ball_x (ball p))) as [R | R].
    + rewrite (proj1 (scoring_right_edge _ _ _ rnd p R)), resetBall_after.
      cbn [set_ball ball ball_x ball_y]. qlra.
    + unfold after at 1 2 3 4. rewrite scoring_none by (split; assumption).
      cbn [fst]. rewrite Py. split; [split; assumption | exact Hy].
Qed.

(** The paddle tests leave the ball alone when it overlaps no paddle. *)
Lemma paddleCollisions_miss (s : GameState) :
  overlaps (ballRectOf s) (paddleLeftRect s) = false ->
  overlaps (ballRectOf s) (paddleRightRect s) = false ->
  after (paddleCollisions conn) s = s.
Proof.
  intros Hl Hr. rewrite paddleCollisions_after, Hl, Hr.
  destruct s as [b pl pr sl sr r o w m]. reflexivity.
Qed.

Lemma overlaps_false_x (br p : Rect) :
  rect_x p + rect_w p <= rect_x br \/ rect_x br + rect_w br <= rect_x p ->
  overlaps br p = false.
Proof.
  intro H. unfold overlaps.
  destruct H as [H | H].
  - apply Qltb_false in H. rewrite H. reflexivity.
  - apply Qgtb_false in H. rewrite H. rewrite andb_false_r. reflexivity.
Qed.

(** A tick whose move leaves the ball between the two paddle columns:
    the ball flies freely and bounces off the top and bottom walls.  Its
    x advances by dx; if the new y is at or above the top edge, y becomes
    0 and dy changes sign; if the ball's lower side is at or below the
    bottom edge, y becomes 588 and dy changes sign; otherwise y advances
    by dy.  dx, speed, scores and flags are unchanged. *)
Theorem open_field_flight_and_wall_bounce (rnd : Q) (s : GameState) :
  playing_state s -> authoritative s ->
  PADDLE_OFFSET + PADDLE_WIDTH <= ball_x (ball s) + ball_dx (ball s) ->
  ball_x (ball s) + ball_dx (ball s)
  <= GAME_WIDTH - PADDLE_OFFSET - PADDLE_WIDTH - BALL_SIZE ->
  let s' := after (update localNickname remoteNickname conn rnd) s in
  let y1 := ball_y (ball s) + ball_dy (ball s) in
  ball_x (ball s') = ball_x (ball s) + ball_dx (ball s) /\
  ball_dx (ball s') = ball_dx (ball s) /\
  ball_speed (ball s') = ball_speed (ball s) /\
  scoreLeft s' = scoreLeft s /\ scoreRight s' = scoreRight s /\
  isRunning s' = true /\ isGameOver s' = false /\
  (y1 <= 0 ->
   ball_y (ball s') = 0 /\ ball_dy (ball s') = ball_dy (ball s) * -1) /\
  (0 < y1 -> GAME_HEIGHT <= y1 + BALL_SIZE ->
   ball_y (ball s') = GAME_HEIGHT - BALL_SIZE /\
   ball_dy (ball s') = ball_dy (ball s) * -1) /\
  (0 < y1 -> y1 + BALL_SIZE < GAME_HEIGHT ->
   ball_y (ball s') = y1 /\ ball_dy (ball s') = ball_dy (ball s)).
Proof.
  intros Hp Ha H1 H2 s' y1. subst s' y1.
  rewrite (proj1 (tick_after localNickname remoteNickname conn rnd s Hp Ha)).
  destruct (atCollision_fields conn s)
    as (Ax & Adx & Asp & _ & _ & Asl & Asr & Ar & Ao & _).
  destruct (atCollision_vertical s) as [Ay Ady].
  set (m := atCollision conn s) in *.
  assert (Ml : overlaps (ballRectOf m) (paddleLeftRect m) = false).
  { apply overlaps_false_x. left.
    unfold ballRectOf, paddleLeftRect. cbn [rect_x rect_w]. rewrite Ax. exact H1. }
  assert (Mr : overlaps (ballRectOf m) (paddleRightRect m) = false).
  { apply overlaps_false_x. right.
    unfold ballRectOf, paddleRightRect. cbn [rect_x rect_w]. rewrite Ax. qlra. }
  rewrite (paddleCollisions_miss m Ml Mr).
  unfold after at 1 2 3 4 5 6 7 8 9 10 11 12 13.
  rewrite scoring_none by (rewrite Ax; qlra). cbn [fst].
  rewrite Ax, Adx, Asp, Asl, Asr, Ar, Ao, Ay, Ady.
  destruct Hp as [Hr Ho].
  repeat (split; [first [reflexivity | assumption]|]).
  split; [|split].
  - intro H. apply Qleb_true in H. rewrite H. cbn [orb]. split; reflexivity.
  - intros Hpos Hb. apply Qleb_false in Hpos. apply Qgeb_true in Hb.
    rewrite Hpos, Hb. cbn [orb]. split; reflexivity.
  - intros Hpos Hb. apply Qleb_false in Hpos. apply Qgeb_false in Hb.
    rewrite Hpos, Hb. cbn [orb]. split; reflexivity.
Qed.

End Field.

(** ** Points and paddle hits *)

Section Points.

Variables localNickname remoteNickname : string.
Variable conn : option bool.

(** An authoritative tick whose move takes the ball past the left edge
    ([x < 0]): the right score goes up by exactly 1, the left score
    stays, and the ball is served from the centre towards the left side
    (dx = -speed) with the initial speed and |dy| = 0.75 of it. *)
Theorem left_edge_scores_right_and_resets (rnd : Q) (s : GameState) :
  playing_state s -> authoritative s ->
  ball_x (ball s) + ball_dx (ball s) < 0 ->
  let s' := after (update localNickname remoteNickname conn rnd) s in
  scoreRight s' = (scoreRight s + 1)%Z /\
  scoreLeft s' = scoreLeft s /\
  ball_x (ball s') + BALL_SIZE / 2 == GAME_WIDTH / 2 /\
  ball_y (ball s') + BALL_SIZE / 2 == GAME_HEIGHT / 2 /\
  ball_speed (ball s') = INITIAL_BALL_SPEED /\
  ball_dx (ball s') == - ball_speed (ball s') /\
  Qabs (ball_dy (ball s')) == 0.75 * ball_speed (ball s') /\
  (0.5 < rnd -> 0 < ball_dy (ball s')) /\
  (rnd <= 0.5 -> ball_dy (ball s') < 0).
Proof.
  intros Hp Ha Hx s'. subst s'.
  rewrite (proj1 (tick_after localNickname remoteNickname conn rnd s Hp Ha)).
  destruct (atCollision_fields conn s)
    as (Ax & _ & _ & _ & _ & Asl & Asr & _).
  destruct (paddleCollisions_fields conn (atCollision conn s))
    as (Px & _ & _ & _ & Psl & Psr & _).
  set (p := after (paddleCollisions conn) (atCollision conn s)) in *.
  assert (L : ball_x (ball p) < 0) by (rewrite Px, Ax; exact Hx).
  destruct (scoring_left_edge localNickname remoteNickname conn rnd p L) as [E _].
  rewrite E, resetBall_after.
  destruct (checkWinCondition_frame localNickname remoteNickname conn
              (set_scoreRight (scoreRight p + 1) p)) as (_ & _ & _ & Csl & Csr & _).
  cbn [set_ball ball scoreLeft scoreRight ball_x ball_y ball_dx ball_dy ball_speed].
  rewrite Csl, Csr. cbn [set_scoreRight scoreLeft scoreRight].
  rewrite Psl, Psr, Asl, Asr.
  split; [reflexivity|]. split; [reflexivity|].
  split; [qnorm; ring|]. split; [qnorm; ring|].
  split; [reflexivity|]. split; [qnorm; ring|].
  split.
  { destruct (rnd >? 0.5); vm_compute; reflexivity. }
  split.
  - intro H. apply Qgtb_true in H. rewrite H. qlra.
  - intro H. apply Qgtb_false in H. rewrite H. qlra.
Qed.

(** The scores a tick leaves, in any state and any mode: neither score
    decreases and at most one point is given. *)
Theorem tick_gives_at_most_one_point (rnd : Q) (s : GameState) :
  let s' := after (update localNickname remoteNickname conn rnd) s in
  (scoreLeft s <= scoreLeft s')%Z /\
  (scoreRight s <= scoreRight s')%Z /\
  (scoreLeft s' + scoreRight s' <= scoreLeft s + scoreRight s + 1)%Z.
Proof.
  intro s'. subst s'.
  destruct (stopped_or_playing s) as [H | Hp].
  - unfold after. rewrite (update_stopped _ _ _ rnd s H). cbn [fst]. lia.
  - destruct (mode s) eqn:E.
    1, 2: assert (Ha : authoritative s) by (unfold authoritative; congruence).
    3: { rewrite (client_tick_after _ _ _ rnd s Hp E).
         cbn [set_ball scoreLeft scoreRight]. lia. }
    all: rewrite (proj1 (tick_after localNickname remoteNickname conn rnd s Hp Ha));
      destruct (atCollision_fields conn s)
        as (_ & _ & _ & _ & _ & Asl & Asr & _);
      destruct (paddleCollisions_fields conn (atCollision conn s))
        as (_ & _ & _ & _ & Psl & Psr & _);
      set (p := after (paddleCollisions conn) (atCollision conn s)) in *;
      destruct (Qlt_le_dec (ball_x (ball p)) 0) as [L | L];
      [ rewrite (proj1 (scoring_left_edge _ _ _ rnd p L)), resetBall_after;
        destruct (checkWinCondition_frame localNickname remoteNickname conn
                    (set_scoreRight (scoreRight p + 1) p))
          as (_ & _ & _ & Csl & Csr & _);
        cbn [set_ball scoreLeft scoreRight]; rewrite Csl, Csr;
        cbn [set_scoreRight scoreLeft scoreRight]; lia
      | destruct (Qlt_le_dec GAME_WIDTH (ball_x (ball p))) as [R | R];
        [ rewrite (proj1 (scoring_right_edge _ _ _ rnd p R)), resetBall_after;
          destruct (checkWinCondition_frame localNickname remoteNickname conn
                      (set_scoreLeft (scoreLeft p + 1) p))
            as (_ & _ & _ & Csl & Csr & _);
          cbn [set_ball scoreLeft scoreRight]; rewrite Csl, Csr;
          cbn [set_scoreLeft scoreLeft scoreRight]; lia
        | unfold after at 1 2 3 4; rewrite scoring_none by (split; assumption);
          cbn [fst]; lia ] ].
Qed.

(** In an authoritative match that starts below the winning score no
    score ever exceeds 11, whatever the events of the match, and the two
    scores are never both at 11. *)
Theorem scores_never_exceed_winning_score (es : list Event) (s : GameState) :
  live s -> Forall match_event es ->
  let s' := after (run localNickname remoteNickname conn es) s in
  (scoreLeft s' <= WINNING_SCORE)%Z /\ (scoreRight s' <= WINNING_SCORE)%Z /\
  (scoreLeft s' + scoreRight s' < 2 * WINNING_SCORE)%Z.
Proof.
  intros Hl Hes s'. subst s'.
  destruct (run_live localNickname remoteNickname conn es s Hes Hl)
    as [[L _] | [W _]].
  - destruct L as (_ & _ & L1 & L2). unfold WINNING_SCORE in *. lia.
  - destruct W as (_ & _ & _ & [(W1 & W2 & _) | (W1 & W2 & _)]);
      unfold WINNING_SCORE in *; lia.
Qed.

(** A ball with a legal speed cannot jump over a paddle column: if it was
    to the right of the left paddle's face before the tick, is to the
    left of that face after the move, and is level with the paddle at the
    collision test, then it overlaps the paddle and the tick sends it
    back to the right.  (One step is at most 14 wide; paddle and ball
    together are 27 wide.) *)
Theorem ball_cannot_jump_left_paddle (rnd : Q) (s : GameState) :
  playing_state s -> authoritative s -> ball_ok (ball s) ->
  PADDLE_OFFSET + PADDLE_WIDTH <= ball_x (ball s) ->
  ball_x (ball s) + ball_dx (ball s) < PADDLE_OFFSET + PADDLE_WIDTH ->
  let m := atCollision conn s in
  ball_y (ball m) < paddleLeftY m + PADDLE_HEIGHT ->
  paddleLeftY m < ball_y (ball m) + BALL_SIZE ->
  overlaps (ballRectOf m) (paddleLeftRect m) = true /\
  0 < ball_dx (ball (after (update localNickname remoteNickname conn rnd) s)).
Proof.
  intros Hp Ha Hb H1 H2 m Hy1 Hy2.
  destruct (atCollision_fields conn s) as (Ax & Adx & Asp & _).
  fold m in Ax, Adx, Asp.
  pose proof (ball_ok_bounds _ Hb) as [Hs1 Hs2].
  destruct Hb as [_ Hab].
  assert (Hdx : - MAX_BALL_SPEED <= ball_dx (ball s)).
  { assert (G : Qabs (ball_dx (ball s)) <= MAX_BALL_SPEED) by (rewrite Hab; exact Hs2).
    apply Qabs_Qle_condition in G. apply G. }
  assert (Ho : overlaps (ballRectOf m) (paddleLeftRect m) = true).
  { unfold overlaps, ballRectOf, paddleLeftRect. cbn [rect_x rect_y rect_w rect_h].
    rewrite !andb_true_iff. repeat split.
    - apply Qltb_true. rewrite Ax. exact H2.
    - apply Qgtb_true. rewrite Ax. qlra.
    - apply Qltb_true. exact Hy1.
    - apply Qgtb_true. exact Hy2. }
  split; [exact Ho|].
  rewrite (tick_hits_left localNickname remoteNickname conn rnd s Hp Ha Ho). fold m.
  apply hitLeft_dx_positive.
  - rewrite Asp. qlra.
  - rewrite Adx. qlra.
Qed.

(** The same on the right: a ball that was to the left of the right
    paddle's face, has passed it after the move and is level with the
    paddle is sent back to the left. *)
Theorem ball_cannot_jump_right_paddle (rnd : Q) (s : GameState) :
  playing_state s -> authoritative s -> ball_ok (ball s) ->
  ball_x (ball s) + BALL_SIZE <= GAME_WIDTH - PADDLE_OFFSET - PADDLE_WIDTH ->
  GAME_WIDTH - PADDLE_OFFSET - PADDLE_WIDTH
  < ball_x (ball s) + ball_dx (ball s) + BALL_SIZE ->
  let m := atCollision conn s in
  ball_y (ball m) < paddleRightY m + PADDLE_HEIGHT ->
  paddleRightY m < ball_y (ball m) + BALL_SIZE ->
  overlaps (ballRectOf m) (paddleRightRect m) = true /\
  ball_dx (ball (after (update localNickname remoteNickname conn rnd) s)) < 0.
Proof.
  intros Hp Ha Hb H1 H2 m Hy1 Hy2.
  destruct (atCollision_fields conn s) as (Ax & Adx & Asp & _).
  fold m in Ax, Adx, Asp.
  pose proof (ball_ok_bounds _ Hb) as [Hs1 Hs2].
  destruct Hb as [_ Hab].
  assert (Hdx : ball_dx (ball s) <= MAX_BALL_SPEED).
  { assert (G : Qabs (ball_dx (ball s)) <= MAX_BALL_SPEED) by (rewrite Hab; exact Hs2).
    apply Qabs_Qle_condition in G. apply G. }
  assert (Ho : overlaps (ballRectOf m) (paddleRightRect m) = true).
  { unfold overlaps, ballRectOf, paddleRightRect. cbn [rect_x rect_y rect_w rect_h].
    rewrite !andb_true_iff. repeat split.
    - apply Qltb_true. rewrite Ax. qlra.
    - apply Qgtb_true. rewrite Ax. qlra.
    - apply Qltb_true. exact Hy1.
    - apply Qgtb_true. exact Hy2. }
  split; [exact Ho|].
  rewrite (tick_hits_right localNickname remoteNickname conn rnd s Hp Ha Ho). fold m.
  apply hitRight_dx_negative.
  - rewrite Asp. qlra.
  - rewrite Adx. qlra.
Qed.

End Points.

Section Hits.

Variables localNickname remoteNickname : string.
Variable conn : option bool.

Lemma overlaps_hitPoint (br p : Rect) :
  rect_h br = BALL_SIZE -> rect_h p = PADDLE_HEIGHT ->
  overlaps br p = true ->
  - (PADDLE_HEIGHT / 2 + BALL_SIZE / 2) < hitPoint br p < PADDLE_HEIGHT / 2 + BALL_SIZE / 2.
Proof.
  intros Hb Hp. unfold overlaps, hitPoint. rewrite Hb, Hp.
  rewrite !andb_true_iff. intros [[_ H1] H2].
  apply Qltb_true in H1. apply Qgtb_true in H2. qlra.
Qed.

(** The ball a paddle returns: its vertical speed is below 11.5 in
    magnitude, and its [speed] is 0.5 more than before, or unchanged once
    it is at the maximum 14; |dx| is the new speed. *)
Theorem paddle_hit_speeds (rnd : Q) (s : GameState) :
  playing_state s -> authoritative s -> ball_ok (ball s) ->
  let m := atCollision conn s in
  let s' := after (update localNickname remoteNickname conn rnd) s in
  overlaps (ballRectOf m) (paddleLeftRect m) = true \/
  overlaps (ballRectOf m) (paddleRightRect m) = true ->
  Qabs (ball_dy (ball s')) < 11.5 /\
  (ball_speed (ball s) < MAX_BALL_SPEED ->
   ball_speed (ball s') = ball_speed (ball s) + 0.5) /\
  (ball_speed (ball s) == MAX_BALL_SPEED ->
   ball_speed (ball s') = ball_speed (ball s)) /\
  Qabs (ball_dx (ball s')) == ball_speed (ball s').
Proof.
  intros Hp Ha Hb m s' Ho. subst s'.
  destruct (atCollision_fields conn s) as (_ & Adx & Asp & _).
  fold m in Adx, Asp.
  assert (Hm : ball_ok (ball m)).
  { apply (ball_ok_same_velocity (ball s)); assumption. }
  destruct Ho as [Ho | Ho].
  - rewrite (tick_hits_left localNickname remoteNickname conn rnd s Hp Ha Ho). fold m.
    destruct (hitLeft_ok (ballRectOf m) (paddleLeftRect m) (ball m) Hm) as [[_ Hk] _].
    split; [|split; [|split; [|exact Hk]]].
    + rewrite hitLeft_dy.
      pose proof (overlaps_hitPoint (ballRectOf m) (paddleLeftRect m)
                    eq_refl eq_refl Ho) as Hh.
      change (rect_h (paddleLeftRect m)) with PADDLE_HEIGHT.
      apply Qabs_Qlt_condition. qlra.
    + intro Hlt. unfold hitLeft. rewrite <- Asp in Hlt. run_cmd.
      apply Qltb_true in Hlt. rewrite Hlt. run_cmd. rewrite Asp. reflexivity.
    + intro Heq. unfold hitLeft. rewrite <- Asp in Heq. run_cmd.
      assert (G : (ball_speed (ball m) <? MAX_BALL_SPEED) = false).
      { apply Qltb_false. lra. }
      rewrite G. run_cmd. exact Asp.
  - rewrite (tick_hits_right localNickname remoteNickname conn rnd s Hp Ha Ho). fold m.
    destruct (hitRight_ok (ballRectOf m) (paddleRightRect m) (ball m) Hm) as [[_ Hk] _].
    split; [|split; [|split; [|exact Hk]]].
    + rewrite hitRight_dy.
      pose proof (overlaps_hitPoint (ballRectOf m) (paddleRightRect m)
                    eq_refl eq_refl Ho) as Hh.
      change (rect_h (paddleRightRect m)) with PADDLE_HEIGHT.
      apply Qabs_Qlt_condition. qlra.
    + intro Hlt. unfold hitRight. rewrite <- Asp in Hlt. run_cmd.
      apply Qltb_true in Hlt. rewrite Hlt. run_cmd. rewrite Asp. reflexivity.
    + intro Heq. unfold hitRight. rewrite <- Asp in Heq. run_cmd.
      assert (G : (ball_speed (ball m) <? MAX_BALL_SPEED) = false).
      { apply Qltb_false. lra. }
      rewrite G. run_cmd. exact Asp.
Qed.

(** A tick never moves the left paddle, and moves the right paddle of a
    record within the bounds by at most the AI's step, 6.5.  Only a
    SINGLE match has the AI: in HOST and CLIENT mode, and when the match
    is not running, a tick leaves the right paddle where it is, whatever
    its offset. *)
Theorem tick_moves_paddles_by_at_most_ai_step (rnd : Q) (s : GameState) :
  let s' := after (update localNickname remoteNickname conn rnd) s in
  paddleLeftY s' = paddleLeftY s /\
  (paddles_ok s -> Qabs (paddleRightY s' - paddleRightY s) <= COMPUTER_SPEED) /\
  (mode s <> SINGLE -> paddleRightY s' = paddleRightY s) /\
  (isRunning s = false \/ isGameOver s = true -> paddleRightY s' = paddleRightY s).
Proof.
  intro s'. subst s'.
  assert (Z0 : forall v, v = paddleRightY s -> Qabs (v - paddleRightY s) <= COMPUTER_SPEED).
  { intros v ->. apply Qabs_Qle_condition. qlra. }
  destruct (stopped_or_playing s) as [H | Hp].
  - unfold after. rewrite (update_stopped _ _ _ rnd s H). cbn [fst].
    split; [reflexivity|]. split; [intros _; apply Z0; reflexivity|].
    split; intros _; reflexivity.
  - assert (Hstop : isRunning s = false \/ isGameOver s = true ->
                    forall v, v = paddleRightY s).
    { destruct Hp as [Hr Ho]. intros [Hs | Hs]; congruence. }
    destruct (mode s) eqn:E.
    + assert (Ha : authoritative s) by (unfold authoritative; congruence).
      destruct (tick_paddles localNickname remoteNickname conn rnd s Hp Ha) as (Tl & Tr & _).
      rewrite Tl, Tr, (aiControl_single s E). cbn [set_paddleRightY paddleRightY].
      split; [reflexivity|]. split; [|split].
      * intros [_ [Hr1 Hr2]].
        apply Qabs_Qle_condition. unfold Math_max, Math_min.
        destruct (ball_y (ball s) - PADDLE_HEIGHT / 2 >? paddleRightY s + 10);
          [|destruct (ball_y (ball s) - PADDLE_HEIGHT / 2 <? paddleRightY s - 10)];
          match goal with
          | |- context [Qmin ?a ?b] =>
            destruct (Q.min_spec a b) as [[? Hmin] | [? Hmin]]; rewrite Hmin
          end;
          match goal with
          | |- context [Qmax ?a ?b] =>
            destruct (Q.max_spec a b) as [[? Hmax] | [? Hmax]]; rewrite Hmax
          end; qlra.
      * intro Hm. elim Hm. reflexivity.
      * intro Hs. apply Hstop. exact Hs.
    + assert (Ha : authoritative s) by (unfold authoritative; congruence).
      destruct (tick_paddles localNickname remoteNickname conn rnd s Hp Ha) as (Tl & Tr & _).
      rewrite Tl, Tr. unfold after. rewrite aiControl_other by congruence.
      split; [reflexivity|]. split; [intros _; apply Z0; reflexivity|].
      split; intros _; reflexivity.
    + rewrite (client_tick_after _ _ _ rnd s Hp E).
      split; [reflexivity|]. split; [intros _; apply Z0; reflexivity|].
      split; intros _; reflexivity.
Qed.

End Hits.

(** ** Messages to the peer *)

Section Network.

Variables localNickname remoteNickname : string.
Variable conn : option bool.

Lemma offline_seq (c1 c2 : Cmd) : offline c1 -> offline c2 -> offline (c1 ;; c2).
Proof.
  intros H1 H2 s Hm. rewrite effects_seq, after_seq.
  destruct (H1 s Hm) as [E1 M1]. destruct (H2 _ M1) as [E2 M2].
  split; [apply Forall_app; split; assumption | exact M2].
Qed.

Lemma offline_assign (f : GameState -> GameState) :
  (forall s, mode (f s) = mode s) -> offline (assign f).
Proof.
  intros Hf s Hm. split; [constructor|].
  unfold after, assign. cbn [fst]. rewrite Hf. exact Hm.
Qed.

Lemma offline_emit (f : GameState -> list Effect) :
  (forall s, mode s = SINGLE -> no_send (f s)) -> offline (emit f).
Proof.
  intros Hf s Hm. split; [apply Hf; exact Hm | exact Hm].
Qed.

Lemma offline_skip : offline skip.
Proof. intros s Hm. split; [constructor | exact Hm]. Qed.

Lemma offline_when (c : GameState -> bool) (body : Cmd) :
  offline body -> offline (when c body).
Proof.
  intros Hb s Hm. unfold when, effects, after.
  destruct (c s); [apply Hb | apply offline_skip]; exact Hm.
Qed.

Lemma offline_branch (c : GameState -> bool) (c1 c2 : Cmd) :
  offline c1 -> offline c2 -> offline (fun s => if c s then c1 s else c2 s).
Proof.
  intros H1 H2 s Hm. unfold effects, after.
  destruct (c s); [apply H1 | apply H2]; exact Hm.
Qed.

Lemma offline_sendSound (t : SoundType) : offline (sendSound conn t).
Proof.
  apply offline_emit. intros s Hm. rewrite Hm. cbn [Mode_eqb andb].
  repeat constructor.
Qed.

Lemma offline_endGame (winnerName : string) : offline (endGame conn winnerName).
Proof.
  unfold endGame. repeat apply offline_seq.
  - apply offline_assign. reflexivity.
  - apply offline_emit. intros s _. repeat constructor.
  - apply offline_emit. intros s Hm. rewrite Hm. cbn [Mode_eqb andb]. constructor.
  - apply offline_emit. intros s _. repeat constructor.
Qed.

Lemma offline_checkWinCondition :
  offline (checkWinCondition localNickname remoteNickname conn).
Proof.
  unfold checkWinCondition. apply offline_seq.
  - apply offline_emit. intros s _. repeat constructor.
  - intros s Hm. unfold effects, after.
    destruct (scoreLeft s >=? WINNING_SCORE)%Z; [apply offline_endGame; exact Hm|].
    destruct (scoreRight s >=? WINNING_SCORE)%Z; [apply offline_endGame; exact Hm|].
    apply offline_skip. exact Hm.
Qed.

Lemma offline_aiControl : offline aiControl.
Proof.
  unfold aiControl. apply offline_when. intros s Hm.
  unfold effects, after. apply offline_seq; [| |exact Hm].
  - apply offline_assign. intro t.
    destruct (_ >? _); [reflexivity|]. destruct (_ <? _); reflexivity.
  - apply offline_assign. reflexivity.
Qed.

Lemma offline_moveBall : offline moveBall.
Proof.
  unfold moveBall. apply offline_seq; apply offline_assign; reflexivity.
Qed.

Lemma offline_wallCollision : offline (wallCollision conn).
Proof.
  unfold wallCollision. apply offline_when.
  apply offline_seq; [apply offline_assign; reflexivity|].
  apply offline_seq; [apply offline_assign; reflexivity|].
  apply offline_sendSound.
Qed.

Lemma offline_paddleCollisions : offline (paddleCollisions conn).
Proof.
  intros s Hm. unfold effects, after, paddleCollisions.
  apply offline_seq; [| |exact Hm]; apply offline_when;
    (apply offline_seq; [apply offline_assign; reflexivity | apply offline_sendSound]).
Qed.

Lemma offline_scoring (rnd : Q) :
  offline (scoring localNickname remoteNickname conn rnd).
Proof.
  assert (G : forall f t side, (forall s, mode (f s) = mode s) ->
    offline (assign f ;; sendSound conn t ;;
             checkWinCondition localNickname remoteNickname conn ;;
             resetBall side rnd)).
  { intros f t side Hf.
    apply offline_seq; [apply offline_assign; exact Hf|].
    apply offline_seq; [apply offline_sendSound|].
    apply offline_seq; [apply offline_checkWinCondition|].
    apply offline_assign. reflexivity. }
  intros s Hm. unfold effects, after, scoring.
  destruct (ball_x (ball s) <? 0); [apply G; [reflexivity | exact Hm]|].
  destruct (ball_x (ball s) >? GAME_WIDTH); [apply G; [reflexivity | exact Hm]|].
  apply offline_skip. exact Hm.
Qed.

Lemma offline_update (rnd : Q) : offline (update localNickname remoteNickname conn rnd).
Proof.
  intros s Hm. unfold effects, after, update.
  destruct (negb (isRunning s) || isGameOver s); [apply offline_skip; exact Hm|].
  rewrite Hm. cbn [Mode_eqb].
  revert s Hm.
  apply offline_seq; [apply offline_aiControl|].
  apply offline_seq; [apply offline_moveBall|].
  apply offline_seq; [apply offline_wallCollision|].
  apply offline_seq; [apply offline_paddleCollisions|].
  apply offline_seq; [apply offline_scoring|].
  intros s Hm. unfold when, effects, after. rewrite Hm. cbn [Mode_eqb].
  apply offline_skip. exact Hm.
Qed.

Lemma offline_handleInput (playing : bool) (container : option (Q * Q)) (clientY : Q) :
  offline (handleInput playing container clientY).
Proof.
  intros s Hm.
  destruct (handleInput_fields playing container clientY s)
    as (_ & _ & _ & _ & _ & _ & H1 & H2 & _).
  rewrite H2, H1. split; [constructor | exact Hm].
Qed.

(** A SINGLE match produces no network traffic: whatever the frames and
    pointer events, with or without an open connection left over from an
    earlier match, no effect is a message to the peer, and the mode stays
    SINGLE. *)
Theorem single_mode_sends_nothing (es : list Event) (s : GameState) :
  mode s = SINGLE -> Forall local_event es ->
  no_send (effects (run localNickname remoteNickname conn es) s) /\
  mode (after (run localNickname remoteNickname conn es) s) = SINGLE.
Proof.
  intros Hm Hes. revert s Hm.
  induction Hes as [|e es He Hes IH]; intros s Hm.
  - split; [constructor | exact Hm].
  - cbn [run]. apply offline_seq; [| |exact Hm].
    + destruct e; cbn [step]; try destruct He.
      * apply offline_update.
      * apply offline_handleInput.
    + intros t Ht. apply IH. exact Ht.
Qed.

End Network.

Section Snapshots.

Variables localNickname remoteNickname : string.
Variable conn : option bool.

(** A tick of a HOST match being played, with the connection open, ends
    with one STATE message that carries the complete record the tick
    left (ball, both paddle offsets, both scores), also on the tick that
    ends the match; a CLIENT that applies it has the HOST's scores, left
    paddle offset and ball velocity. *)
Theorem host_tick_sends_full_snapshot (rnd : Q) (s : GameState) :
  playing_state s -> mode s = HOST -> connOpen conn = true ->
  let s' := after (update localNickname remoteNickname conn rnd) s in
  let snapshot := mkNetworkState (ball s') (paddleLeftY s') (paddleRightY s')
                                 (scoreLeft s') (scoreRight s') in
  (exists es : list Effect,
     effects (update localNickname remoteNickname conn rnd) s
     = es ++ [Send (STATE snapshot)]) /\
  forall c : GameState,
    let c' := after (handleNetworkState snapshot) c in
    scoreLeft c' = scoreLeft s' /\ scoreRight c' = scoreRight s' /\
    paddleLeftY c' = paddleLeftY s' /\
    ball_dx (ball c') = ball_dx (ball s') /\ ball_dy (ball c') = ball_dy (ball s').
Proof.
  intros Hp Hm Ho s' snapshot. subst snapshot s'.
  assert (Ha : authoritative s) by (unfold authoritative; congruence).
  split.
  - destruct (tick_paddles localNickname remoteNickname conn rnd s Hp Ha) as (_ & _ & Tm).
    pose proof (update_authoritative localNickname remoteNickname conn rnd s Hp Ha) as E.
    rewrite (after_eq _ _ _ E) in *. rewrite (effects_eq _ _ _ E).
    rewrite !effects_seq, !after_seq in *.
    set (t := after (scoring localNickname remoteNickname conn rnd)
                (after (paddleCollisions conn)
                   (after (wallCollision conn) (after moveBall (after aiControl s))))) in *.
    assert (Et : after (when (fun s0 => Mode_eqb (mode s0) HOST) (sendHostUpdate conn)) t = t).
    { apply sendHostUpdate_quiet. }
    rewrite Et in *. rewrite Hm in Tm.
    assert (El : effects (when (fun s0 => Mode_eqb (mode s0) HOST) (sendHostUpdate conn)) t
                 = [Send (STATE (mkNetworkState (ball t) (paddleLeftY t) (paddleRightY t)
                                                (scoreLeft t) (scoreRight t)))]).
    { unfold when, effects, sendHostUpdate, emit. rewrite Tm. cbn [Mode_eqb snd].
      rewrite Ho. reflexivity. }
    rewrite El.
    eexists. rewrite !app_assoc. reflexivity.
  - intro c. rewrite handleNetworkState_after.
    cbn [scoreLeft scoreRight paddleLeftY ball sLeft sRight pLeft net_ball].
    unfold reconcileBall.
    destruct (dist2 _ _ >? 50 * 50); repeat split; reflexivity.
Qed.

(** On a CLIENT an OVER message ends the match with the winner it
    carries, sends nothing back, and from then on ticks neither move the
    ball nor send INPUT messages. *)
Theorem over_message_stops_client (winnerName : string) (rnd : Q)
        (rnds : list Q) (s : GameState) :
  mode s = CLIENT ->
  let s1 := after (clientOnData conn (OVER winnerName) rnd) s in
  isGameOver s1 = true /\ isRunning s1 = false /\ winner s1 = Some winnerName /\
  ball s1 = ball s /\ scoreLeft s1 = scoreLeft s /\ scoreRight s1 = scoreRight s /\
  no_send (effects (clientOnData conn (OVER winnerName) rnd) s) /\
  run localNickname remoteNickname conn (map Tick rnds) s1 = (s1, []).
Proof.
  intros Hm s1. subst s1. cbn [clientOnData]. rewrite endGame_after.
  cbn [isGameOver isRunning winner ball scoreLeft scoreRight].
  repeat (split; [reflexivity|]). split.
  - unfold endGame, effects, seq, assign, emit. cbn [fst snd mode app].
    rewrite Hm. cbn [Mode_eqb andb app]. repeat constructor.
  - induction rnds as [|r rnds IH]; [reflexivity|].
    cbn [map run step]. unfold seq.
    rewrite (update_stopped localNickname remoteNickname conn r) by (left; reflexivity).
    rewrite IH. reflexivity.
Qed.

(** Between two snapshots a CLIENT extrapolates in a straight line:
    [k] ticks of a match being played move the ball by [k] times its
    velocity, with no bounce at the walls, and leave the velocity as it
    was. *)
Theorem client_extrapolates_linearly (rnds : list Q) (s : GameState) :
  playing_state s -> mode s = CLIENT ->
  let s' := ticks localNickname remoteNickname conn rnds s in
  let k := inject_Z (Z.of_nat (length rnds)) in
  ball_x (ball s') == ball_x (ball s) + k * ball_dx (ball s) /\
  ball_y (ball s') == ball_y (ball s) + k * ball_dy (ball s) /\
  ball_dx (ball s') = ball_dx (ball s) /\
  ball_dy (ball s') = ball_dy (ball s).
Proof.
  intros Hp Hm. cbv zeta. revert s Hp Hm.
  induction rnds as [|r rnds IH]; intros s Hp Hm.
  - cbn [ticks length Z.of_nat]. change (inject_Z 0) with 0.
    repeat split; try reflexivity; ring.
  - cbn [ticks]. rewrite (client_tick_after _ _ _ r s Hp Hm).
    set (t := set_ball _ s).
    assert (Tp : playing_state t) by exact Hp.
    assert (Tm : mode t = CLIENT) by exact Hm.
    destruct (IH t Tp Tm) as (Ix & Iy & Idx & Idy).
    rewrite Ix, Iy, Idx, Idy. subst t.
    cbn [set_ball ball ball_x ball_y ball_dx ball_dy].
    replace (Z.of_nat (length (r :: rnds))) with (Z.of_nat (length rnds) + 1)%Z
      by (cbn [length]; lia).
    rewrite inject_Z_plus. change (inject_Z 1) with 1.
    repeat split; try reflexivity; ring.
Qed.

(** The pointer moves the local player's paddle and only that one: a
    CLIENT's right paddle, the left paddle otherwise.  Wherever the
    pointer is and whatever the container, the other paddle, the ball,
    the scores, the flags, the winner and the mode are untouched and
    nothing is sent or shown.  When the pointer, scaled to the field of a
    container of positive height, is at least half a paddle away from the
    top and the bottom edge, the centre of the paddle is exactly under
    it; nearer to an edge the paddle stops at that edge.  Nothing happens
    when there is no container, or when the match is not running and the
    UI is not in the PLAYING state. *)
Theorem pointer_centres_own_paddle (playing : bool) (container : option (Q * Q))
        (clientY : Q) (s : GameState) :
  let s' := after (handleInput playing container clientY) s in
  let own := fun t : GameState =>
               if Mode_eqb (mode t) CLIENT then paddleRightY t else paddleLeftY t in
  ball s' = ball s /\ scoreLeft s' = scoreLeft s /\ scoreRight s' = scoreRight s /\
  isRunning s' = isRunning s /\ isGameOver s' = isGameOver s /\
  winner s' = winner s /\ mode s' = mode s /\
  effects (handleInput playing container clientY) s = [] /\
  (mode s = CLIENT -> paddleLeftY s' = paddleLeftY s) /\
  (mode s <> CLIENT -> paddleRightY s' = paddleRightY s) /\
  (isRunning s = false -> playing = false -> s' = s) /\
  (container = None -> s' = s) /\
  (forall top height : Q,
     container = Some (top, height) -> 0 < height ->
     isRunning s = true \/ playing = true ->
     let relativeY := (clientY - top) * (GAME_HEIGHT / height) in
     (PADDLE_HEIGHT / 2 <= relativeY <= GAME_HEIGHT - PADDLE_HEIGHT / 2 ->
      own s' + PADDLE_HEIGHT / 2 == relativeY) /\
     (relativeY <= PADDLE_HEIGHT / 2 -> own s' == 0) /\
     (GAME_HEIGHT - PADDLE_HEIGHT / 2 <= relativeY ->
      own s' == GAME_HEIGHT - PADDLE_HEIGHT)).
Proof.
  intros s' own. subst s' own.
  destruct (handleInput_fields playing container clientY s)
    as (Hb & Hsl & Hsr & Hr & Ho & Hw & Hm & He & _).
  do 8 (split; [assumption|]).
  split; [|split; [|split; [|split]]].
  - intro Hc. unfold handleInput, after.
    destruct (negb (isRunning s) && negb playing); [reflexivity|].
    destruct container as [[top height]|]; [|reflexivity].
    rewrite Hc. reflexivity.
  - intro Hc. unfold handleInput, after.
    destruct (negb (isRunning s) && negb playing); [reflexivity|].
    destruct container as [[top height]|]; [|reflexivity].
    destruct (mode s); try reflexivity. elim Hc. reflexivity.
  - intros Hrun Hpl. unfold handleInput, after. rewrite Hrun, Hpl. reflexivity.
  - intros ->. unfold handleInput, after.
    destruct (negb (isRunning s) && negb playing); reflexivity.
  - intros top height -> Hh Hon relativeY. subst relativeY.
    assert (G : negb (isRunning s) && negb playing = false).
    { destruct Hon as [Hon | Hon]; rewrite Hon; cbn; [reflexivity|].
      apply andb_false_r. }
    rewrite Hm.
    assert (E : (if Mode_eqb (mode s) CLIENT
                 then paddleRightY (after (handleInput playing (Some (top, height)) clientY) s)
                 else paddleLeftY (after (handleInput playing (Some (top, height)) clientY) s))
                = Math_max 0 (Math_min (GAME_HEIGHT - PADDLE_HEIGHT)
                    ((clientY - top) * (GAME_HEIGHT / height) - PADDLE_HEIGHT / 2))).
    { unfold handleInput, after. rewrite G.
      destruct (Mode_eqb (mode s) CLIENT); reflexivity. }
    rewrite E. unfold Math_max, Math_min.
    split; [|split].
    + intros [H1 H2]. rewrite Q.min_r by qlra. rewrite Q.max_r by qlra. ring.
    + intro H1. rewrite Q.min_r by qlra. rewrite Q.max_l by qlra. reflexivity.
    + intro H2. rewrite Q.min_l by qlra. rewrite Q.max_r by qlra. reflexivity.
Qed.

End Snapshots.

(** ** The rotated mobile view *)

(** A rectangle inside the 800 x 600 field is drawn inside the canvas,
    on desktop (800 x 600) and on mobile (600 x 800), from either
    perspective, with the same area. *)
Theorem render_stays_on_canvas (isMobile : bool) (s : GameState) (x y w h : Q) :
  0 <= x -> 0 <= y -> 0 <= w -> 0 <= h ->
  x + w <= GAME_WIDTH -> y + h <= GAME_HEIGHT ->
  let r := Rotated.getRenderCoords isMobile s x y w h in
  0 <= rect_x r /\ 0 <= rect_y r /\ 0 <= rect_w r /\ 0 <= rect_h r /\
  rect_x r + rect_w r <= Rotated.canvasWidth isMobile /\
  rect_y r + rect_h r <= Rotated.canvasHeight isMobile /\
  rect_w r * rect_h r == w * h.
Proof.
  intros Hx Hy Hw Hh Hxw Hyh r. subst r.
  unfold Rotated.getRenderCoords, Rotated.canvasWidth, Rotated.canvasHeight,
    Rotated.MOBILE_WIDTH, Rotated.MOBILE_HEIGHT,
    Rotated.DESKTOP_WIDTH, Rotated.DESKTOP_HEIGHT.
  destruct isMobile; cbn [negb]; [destruct (Mode_eqb (mode s) CLIENT)|];
    cbn [rect_x rect_y rect_w rect_h];
    repeat split; try qlra; ring.
Qed.

(** The two mobile perspectives are half-turns of each other: what a
    CLIENT sees is what the HOST (or a SINGLE player) sees, turned by
    180 degrees on the 600 x 800 canvas. *)
Theorem client_view_is_half_turn_of_host_view (c t : GameState) (x y w h : Q) :
  mode c = CLIENT -> mode t <> CLIENT ->
  let rc := Rotated.getRenderCoords true c x y w h in
  let rt := Rotated.halfTurn (Rotated.getRenderCoords true t x y w h) in
  rect_x rc == rect_x rt /\ rect_y rc == rect_y rt /\
  rect_w rc = rect_w rt /\ rect_h rc = rect_h rt.
Proof.
  intros Hc Ht rc rt. subst rc rt.
  unfold Rotated.getRenderCoords, Rotated.halfTurn,
    Rotated.MOBILE_WIDTH, Rotated.MOBILE_HEIGHT.
  rewrite Hc.
  assert (G : Mode_eqb (mode t) CLIENT = false).
  { destruct (mode t); try reflexivity. elim Ht. reflexivity. }
  rewrite G. cbn [negb Mode_eqb rect_x rect_y rect_w rect_h].
  repeat split; try reflexivity; qnorm; ring.
Qed.

(** On mobile the local player's paddle is drawn in the bottom band of
    the canvas (rows 765 to 780) in every mode, across the columns its
    offset gives. *)
Theorem own_paddle_is_drawn_at_the_bottom (s : GameState) :
  let r := Rotated.getRenderCoords true s (Rotated.ownPaddleX s) (Rotated.ownPaddleY s)
                                   PADDLE_WIDTH PADDLE_HEIGHT in
  rect_y r == Rotated.MOBILE_HEIGHT - 20 - PADDLE_WIDTH /\
  rect_h r = PADDLE_WIDTH /\ rect_w r = PADDLE_HEIGHT /\
  (mode s = CLIENT -> rect_x r == GAME_HEIGHT - PADDLE_HEIGHT - paddleRightY s) /\
  (mode s <> CLIENT -> rect_x r = paddleLeftY s).
Proof.
  intro r. subst r.
  unfold Rotated.getRenderCoords, Rotated.ownPaddleX, Rotated.ownPaddleY,
    Rotated.MOBILE_HEIGHT.
  destruct (mode s); cbn [negb Mode_eqb rect_x rect_y rect_w rect_h];
    repeat split; try reflexivity; try (qnorm; ring);
    try (intro H; first [discriminate H | elim H; reflexivity]);
    intros _; try reflexivity; qnorm; ring.
Qed.

(** Input and drawing agree on mobile: a pointer over the middle of the
    local player's drawn paddle leaves the paddle where it is (for a
    paddle within the bounds and a container of positive width, the
    canvas pixel under the pointer being the pointer's offset scaled by
    600 / width). *)
Theorem pointing_at_own_paddle_keeps_it (playing : bool)
        (rectLeft rectTop width height clientX clientY : Q) (s : GameState) :
  0 < width ->
  isRunning s = true \/ playing = true ->
  0 <= Rotated.ownPaddleY s <= GAME_HEIGHT - PADDLE_HEIGHT ->
  let r := Rotated.getRenderCoords true s (Rotated.ownPaddleX s) (Rotated.ownPaddleY s)
                                   PADDLE_WIDTH PADDLE_HEIGHT in
  (clientX - rectLeft) * (GAME_HEIGHT / width) == rect_x r + rect_w r / 2 ->
  let s' := after (Rotated.handleInput true playing
                     (Some (rectLeft, rectTop, width, height)) clientX clientY) s in
  Rotated.ownPaddleY s' == Rotated.ownPaddleY s /\ mode s' = mode s.
Proof.
  intros Hw Hon Hb r Hptr s'. subst r s'.
  assert (G : negb (isRunning s) && negb playing = false).
  { destruct Hon as [Hon | Hon]; rewrite Hon; cbn; [reflexivity|].
    apply andb_false_r. }
  assert (C : forall v o, v == o -> 0 <= o <= GAME_HEIGHT - PADDLE_HEIGHT ->
                Math_max 0 (Math_min (GAME_HEIGHT - PADDLE_HEIGHT) v) == o).
  { intros v o Hv Ho. unfold Math_max, Math_min.
    rewrite Q.min_r by (rewrite Hv; apply Ho).
    rewrite Q.max_r by (rewrite Hv; apply Ho). exact Hv. }
  unfold Rotated.handleInput, after. rewrite G.
  unfold Rotated.getRenderCoords, Rotated.ownPaddleX, Rotated.ownPaddleY in *.
  destruct (mode s) eqn:E; cbn [negb Mode_eqb rect_x rect_y rect_w rect_h] in *;
    cbn [assign fst set_paddleLeftY set_paddleRightY paddleLeftY paddleRightY mode];
    rewrite ?E; cbn [Mode_eqb];
    (split; [|reflexivity]); apply C; try exact Hb; rewrite Hptr; qnorm; ring.
Qed.

(** The mobile branch of the rotated [handleInput] divides by the width
    of the container: for a non-zero width the code's offset is the
    finite number of the definition, for width 0 and a pointer on the left
    edge it is NaN. *)
Lemma rotated_pointerOffset_laid_out (client : bool) (rectLeft width clientX : Q) :
  ~ width == 0 ->
  Rotated.pointerOffset client rectLeft width clientX =
  Finite (Math_max 0
            (Math_min (GAME_HEIGHT - PADDLE_HEIGHT)
                      ((if client
                        then GAME_HEIGHT - (clientX - rectLeft) * (GAME_HEIGHT / width)
                        else (clientX - rectLeft) * (GAME_HEIGHT / width))
                       - PADDLE_HEIGHT / 2))).
Proof.
  intro Hw. unfold Rotated.pointerOffset. cbn [js_div js_sub].
  destruct (Qeq_bool width 0) eqn:E.
  - apply Qeq_bool_iff in E. contradiction.
  - destruct client; reflexivity.
Qed.

Lemma rotated_pointerOffset_collapsed (client : bool) (rectLeft width : Q) :
  width == 0 ->
  Rotated.pointerOffset client rectLeft width rectLeft = NaN.
Proof.
  intro Hw. unfold Rotated.pointerOffset. cbn [js_div js_sub].
  destruct (Qeq_bool width 0) eqn:E.
  - replace (js_scale_infinity GAME_HEIGHT true) with PosInfinity by reflexivity.
    cbn [js_mul]. unfold js_scale_infinity.
    assert (H0 : rectLeft - rectLeft == 0) by lra.
    assert (Hg : (rectLeft - rectLeft >? 0) = false).
    { apply Qgtb_false. lra. }
    assert (Hl : (rectLeft - rectLeft <? 0) = false).
    { apply Qltb_false. lra. }
    rewrite Hg, Hl. destruct client; reflexivity.
  - apply Qeq_bool_neq in E. contradiction.
Qed.

(** ** The layout *)

(** The view the flags of [checkLayout] select: the rotate prompt
    exactly for a mobile device (by user agent, or a window narrower than
    1024) in portrait; the mobile game exactly for a mobile device in
    landscape; the desktop game exactly for a non-mobile user agent with
    a window at least 1024 wide, whatever its height. *)
Theorem layout_selects_view (userAgentIsMobile : bool) (innerWidth innerHeight : Q) :
  let flags := checkLayout userAgentIsMobile innerWidth innerHeight in
  let view := App (fst flags) (snd flags) in
  (view = RotatePrompt <->
   (userAgentIsMobile = true \/ innerWidth < 1024) /\ innerWidth < innerHeight) /\
  (view = MobileGame <->
   (userAgentIsMobile = true \/ innerWidth < 1024) /\ innerHeight <= innerWidth) /\
  (view = DesktopGame <-> userAgentIsMobile = false /\ 1024 <= innerWidth).
Proof.
  intros flags view. subst flags view. unfold checkLayout, App. cbn [fst snd].
  destruct userAgentIsMobile; cbn [orb];
    destruct (innerWidth <? 1024) eqn:E1;
    destruct (innerWidth >=? innerHeight) eqn:E2;
    cbn [andb negb];
    try apply Qltb_true in E1; try apply Qltb_false in E1;
    try apply Qgeb_true in E2; try apply Qgeb_false in E2;
    repeat split; intros; try discriminate; try reflexivity;
    repeat match goal with
           | H : _ /\ _ |- _ => destruct H
           | H : _ \/ _ |- _ => destruct H
           end;
    try discriminate; try (exfalso; lra); auto; try lra.
Qed.

(** ** The synthesiser *)

Lemma toggles_fields (n : nat) (m : Sound.Module_) :
  Sound.isMuted (Sound.toggles n m) = xorb (Sound.isMuted m) (Nat.odd n) /\
  Sound.audioCtx (Sound.toggles n m) = Sound.audioCtx m.
Proof.
  revert m. induction n as [|n IH]; intro m.
  - cbn [Sound.toggles Nat.odd]. rewrite xorb_false_r. split; reflexivity.
  - cbn [Sound.toggles]. destruct (IH (fst (Sound.toggleMute m))) as [H1 H2].
    rewrite H1, H2. cbn [Sound.toggleMute fst Sound.isMuted Sound.audioCtx].
    split; [|reflexivity].
    rewrite Nat.odd_succ, <- Nat.negb_odd.
    destruct (Sound.isMuted m), (Nat.odd n); reflexivity.
Qed.

(** The mute flag after [n] calls of [toggleMute] is the first flag
    flipped when [n] is odd, and every call returns the flag it leaves.
    While the flag is set [playSound] makes no call on the audio API,
    whatever the sound, and does not create the audio context. *)
Theorem muted_module_is_silent (n : nat) (suspended : bool) (type : SoundType)
        (m : Sound.Module_) :
  let m' := Sound.toggles n m in
  Sound.getMuted m' = xorb (Sound.getMuted m) (Nat.odd n) /\
  snd (Sound.toggleMute m') = Sound.getMuted (fst (Sound.toggleMute m')) /\
  (Sound.getMuted m' = true -> Sound.playSound suspended type m' = (m', [])) /\
  (Sound.getMuted m' = false ->
   Sound.audioCtx (fst (Sound.playSound suspended type m')) = true /\
   snd (Sound.playSound suspended type m') <> []).
Proof.
  intro m'. subst m'. destruct (toggles_fields n m) as [H1 H2].
  unfold Sound.getMuted. split; [exact H1|]. split; [reflexivity|]. split.
  - intro H. unfold Sound.playSound. rewrite H. reflexivity.
  - intro H. unfold Sound.playSound, Sound.getAudioContext. rewrite H.
    destruct (Sound.audioCtx (Sound.toggles n m)) eqn:E; cbn [negb fst snd Sound.audioCtx].
    + split; [exact E|]. destruct suspended; discriminate.
    + split; [reflexivity | discriminate].
Qed.

(** Every sound ends: when not muted, [playSound] starts one oscillator
    at [now] and stops it once, at most 1.5 s later; every gain value
    scheduled is between 0 and 0.2 and is scheduled no later than the
    stop; and the last value of the gain, scheduled exactly at the stop,
    is at most 0.01.  The audio context is created by the first sound
    only. *)
Theorem every_sound_fades_out (suspended : bool) (type : SoundType)
        (m : Sound.Module_) :
  Sound.isMuted m = false ->
  let calls := snd (Sound.playSound suspended type m) in
  Sound.starts calls = [0] /\
  (In Sound.NewAudioContext calls <-> Sound.audioCtx m = false) /\
  exists d : Q,
    Sound.stops calls = [d] /\ 0 < d <= 1.5 /\
    Forall (fun vt => 0 <= fst vt <= 0.2 /\ 0 <= snd vt <= d) (Sound.gainEvents calls) /\
    exists v : Q,
      last (Sound.gainEvents calls) (1, 0) = (v, d) /\ v <= 0.01.
Proof.
  intros Hm calls. subst calls. unfold Sound.playSound, Sound.getAudioContext.
  rewrite Hm.
  destruct (Sound.audioCtx m); destruct suspended; destruct type;
    cbn [negb snd app Sound.starts Sound.stops Sound.gainEvents last];
    (split; [reflexivity|]);
    (split; [split; [intro H; cbn in H; intuition discriminate
                    | intro H; first [discriminate H | left; reflexivity]]|]);
    eexists; (split; [reflexivity|]);
    (split; [split; [reflexivity | discriminate]|]);
    (split; [repeat constructor; cbn [fst snd]; discriminate|]);
    eexists; (split; [reflexivity | discriminate]).
Qed.

(** The mute button: the flag it hands to the UI is the module's new
    flag, the opposite of the old one; muting makes no sound, and
    un-muting plays the paddle sound as a confirmation. *)
Theorem mute_button_beeps_on_unmute (suspended : bool) (m : Sound.Module_) :
  let result := Sound.handleToggleMute suspended m in
  let m' := fst (fst result) in
  let shown := snd (fst result) in
  let calls := snd result in
  shown = negb (Sound.getMuted m) /\
  Sound.getMuted m' = shown /\
  (Sound.getMuted m = false -> calls = [] /\ Sound.audioCtx m' = Sound.audioCtx m) /\
  (Sound.getMuted m = true ->
   calls = snd (Sound.playSound suspended PADDLE_HIT (fst (Sound.toggleMute m))) /\
   calls <> [] /\ Sound.audioCtx m' = true).
Proof.
  cbv zeta. unfold Sound.handleToggleMute, Sound.toggleMute, Sound.getMuted.
  destruct m as [ctx muted]. cbn [Sound.isMuted Sound.audioCtx].
  destruct muted; cbn [negb].
  - unfold Sound.playSound, Sound.getAudioContext. cbn [Sound.isMuted Sound.audioCtx].
    destruct ctx; cbn [negb fst snd Sound.isMuted Sound.audioCtx];
      repeat split; try reflexivity; try discriminate;
      destruct suspended; discriminate.
  - cbn [fst snd Sound.isMuted Sound.audioCtx].
    repeat split; try reflexivity; discriminate.
Qed.

(** ** The further statements on concrete records *)

Lemma nearTopWall_playing : playing_state nearTopWall.
Proof. split; reflexivity. Qed.

Lemma host_record_authoritative (b : Ball) (pl pr : Q) (sl sr : Z) (w : option string) :
  authoritative (mkGameState b pl pr sl sr true false w HOST).
Proof. unfold authoritative. cbn. discriminate. Qed.

Lemma tick_keeps_ball_in_field_witness :
  0 <= ball_x (ball (after (update "P1" "P2" (Some true) 0) nearLeftEdge)) <= GAME_WIDTH /\
  0 <= ball_y (ball (after (update "P1" "P2" (Some true) 0) nearLeftEdge))
  <= GAME_HEIGHT - BALL_SIZE.
Proof.
  apply (tick_keeps_ball_in_field "P1" "P2" (Some true) 0 nearLeftEdge).
  - split; reflexivity.
  - apply host_record_authoritative.
Defined.

Lemma open_field_flight_and_wall_bounce_witness :
  ball_y (ball (after (update "P1" "P2" (Some true) 0) nearTopWall)) = 0 /\
  ball_dy (ball (after (update "P1" "P2" (Some true) 0) nearTopWall))
  = ball_dy (ball nearTopWall) * -1.
Proof.
  apply (open_field_flight_and_wall_bounce "P1" "P2" (Some true) 0 nearTopWall).
  - exact nearTopWall_playing.
  - apply host_record_authoritative.
  - vm_compute. discriminate.
  - vm_compute. discriminate.
  - vm_compute. discriminate.
Defined.

Lemma left_edge_scores_right_and_resets_witness :
  scoreRight (after (update "P1" "P2" (Some true) 0.7) nearLeftEdge) = 4%Z.
Proof.
  apply (left_edge_scores_right_and_resets "P1" "P2" (Some true) 0.7 nearLeftEdge).
  - split; reflexivity.
  - apply host_record_authoritative.
  - reflexivity.
Defined.

Lemma scores_never_exceed_winning_score_witness :
  (scoreLeft (after (run "P1" "P2" (Some true) [Tick 0.7; Tick 0.7]) matchPoint)
   <= WINNING_SCORE)%Z.
Proof.
  apply (scores_never_exceed_winning_score "P1" "P2" (Some true)
           [Tick 0.7; Tick 0.7] matchPoint).
  - exact matchPoint_live.
  - repeat constructor.
Defined.

Lemma centreHit_ball_ok : ball_ok (ball centreHit).
Proof.
  split.
  - exists 14%Z. split; [lia | reflexivity].
  - reflexivity.
Qed.

Lemma rightHit_ball_ok : ball_ok (ball rightHit).
Proof.
  split.
  - exists 14%Z. split; [lia | reflexivity].
  - reflexivity.
Qed.

Lemma ball_cannot_jump_left_paddle_witness :
  0 < ball_dx (ball (after (update "P1" "P2" (Some true) 0) centreHit)).
Proof.
  apply (ball_cannot_jump_left_paddle "P1" "P2" (Some true) 0 centreHit).
  - split; reflexivity.
  - apply host_record_authoritative.
  - exact centreHit_ball_ok.
  - vm_compute. discriminate.
  - reflexivity.
  - reflexivity.
  - reflexivity.
Defined.

Lemma ball_cannot_jump_right_paddle_witness :
  ball_dx (ball (after (update "P1" "P2" (Some true) 0) rightHit)) < 0.
Proof.
  apply (ball_cannot_jump_right_paddle "P1" "P2" (Some true) 0 rightHit).
  - split; reflexivity.
  - apply host_record_authoritative.
  - exact rightHit_ball_ok.
  - vm_compute. discriminate.
  - reflexivity.
  - reflexivity.
  - reflexivity.
Defined.

Lemma paddle_hit_speeds_witness :
  ball_speed (ball (after (update "P1" "P2" (Some true) 0) centreHit))
  = ball_speed (ball centreHit) + 0.5.
Proof.
  apply (paddle_hit_speeds "P1" "P2" (Some true) 0 centreHit).
  - split; reflexivity.
  - apply host_record_authoritative.
  - exact centreHit_ball_ok.
  - left. vm_compute. reflexivity.
  - reflexivity.
Defined.

Lemma tick_moves_paddles_by_at_most_ai_step_witness :
  paddles_ok ballFarBelow /\
  Qabs (paddleRightY (after (update "P1" "CPU" None 0) ballFarBelow)
        - paddleRightY ballFarBelow) <= COMPUTER_SPEED /\
  paddleRightY (after (update "P1" "P2" (Some true) 0) hostStart)
  = paddleRightY hostStart.
Proof.
  assert (Hs : paddles_ok ballFarBelow).
  { unfold paddles_ok. vm_compute. intuition discriminate. }
  split; [exact Hs|]. split.
  - destruct (tick_moves_paddles_by_at_most_ai_step "P1" "CPU" None 0 ballFarBelow)
      as (_ & H & _).
    apply H. exact Hs.
  - destruct (tick_moves_paddles_by_at_most_ai_step "P1" "P2" (Some true) 0 hostStart)
      as (_ & _ & H & _).
    apply H. vm_compute. discriminate.
Defined.

Lemma single_mode_sends_nothing_witness :
  no_send (effects (run "P1" "CPU" (Some true)
                        [Tick 0; Pointer true (Some (0, 600)) 300; Tick 0])
                   singleStart).
Proof.
  apply (single_mode_sends_nothing "P1" "CPU" (Some true)
           [Tick 0; Pointer true (Some (0, 600)) 300; Tick 0] singleStart).
  - reflexivity.
  - repeat constructor.
Defined.

Lemma host_tick_sends_full_snapshot_witness :
  exists es : list Effect,
    effects (update "P1" "P2" (Some true) 0) nearRightEdge
    = es ++ [Send (STATE (mkNetworkState
                            (ball (after (update "P1" "P2" (Some true) 0) nearRightEdge))
                            (paddleLeftY (after (update "P1" "P2" (Some true) 0) nearRightEdge))
                            (paddleRightY (after (update "P1" "P2" (Some true) 0) nearRightEdge))
                            (scoreLeft (after (update "P1" "P2" (Some true) 0) nearRightEdge))
                            (scoreRight (after (update "P1" "P2" (Some true) 0) nearRightEdge))))].
Proof.
  apply (host_tick_sends_full_snapshot "P1" "P2" (Some true) 0 nearRightEdge).
  - split; reflexivity.
  - reflexivity.
  - reflexivity.
Defined.

Lemma over_message_stops_client_witness :
  winner (after (clientOnData (Some true) (OVER "P1") 0) clientStart) = Some "P1"%string.
Proof.
  apply (over_message_stops_client "P1" "P2" (Some true) "P1" 0 [0; 0] clientStart).
  reflexivity.
Defined.

Lemma client_extrapolates_linearly_witness :
  ball_x (ball (ticks "P1" "P2" (Some true) [0; 0; 0] clientStart))
  == ball_x (ball clientStart) + inject_Z (Z.of_nat 3) * ball_dx (ball clientStart).
Proof.
  apply (client_extrapolates_linearly "P1" "P2" (Some true) [0; 0; 0] clientStart).
  - split; reflexivity.
  - reflexivity.
Defined.

Lemma pointer_centres_own_paddle_witness :
  paddleLeftY (after (handleInput true (Some (0, 300)) 150) hostStart)
  + PADDLE_HEIGHT / 2
  == (150 - 0) * (GAME_HEIGHT / 300) /\
  paddleRightY (after (handleInput true (Some (0, 300)) 10) hostStart)
  = paddleRightY hostStart /\
  after (handleInput true None 150) hostStart = hostStart.
Proof.
  split; [|split].
  - destruct (pointer_centres_own_paddle true (Some (0, 300)) 150 hostStart)
      as (_ & _ & _ & _ & _ & _ & _ & _ & _ & _ & _ & _ & H).
    destruct (H 0 300 eq_refl eq_refl (or_introl eq_refl)) as [H1 _].
    apply H1. split; vm_compute; discriminate.
  - destruct (pointer_centres_own_paddle true (Some (0, 300)) 10 hostStart)
      as (_ & _ & _ & _ & _ & _ & _ & _ & _ & H & _).
    apply H. vm_compute. discriminate.
  - destruct (pointer_centres_own_paddle true None 150 hostStart)
      as (_ & _ & _ & _ & _ & _ & _ & _ & _ & _ & _ & H & _).
    apply H. reflexivity.
Defined.

Lemma render_stays_on_canvas_witness :
  rect_y (Rotated.getRenderCoords true hostStart 20 260 PADDLE_WIDTH PADDLE_HEIGHT)
  + rect_h (Rotated.getRenderCoords true hostStart 20 260 PADDLE_WIDTH PADDLE_HEIGHT)
  <= Rotated.canvasHeight true.
Proof.
  apply (render_stays_on_canvas true hostStart 20 260 PADDLE_WIDTH PADDLE_HEIGHT);
    vm_compute; discriminate.
Defined.

Lemma client_view_is_half_turn_of_host_view_witness :
  rect_x (Rotated.getRenderCoords true clientStart 20 260 15 80)
  == rect_x (Rotated.halfTurn (Rotated.getRenderCoords true hostStart 20 260 15 80)).
Proof.
  apply (client_view_is_half_turn_of_host_view clientStart hostStart 20 260 15 80).
  - reflexivity.
  - unfold hostStart. cbn. discriminate.
Defined.

Lemma own_paddle_is_drawn_at_the_bottom_witness :
  rect_x (Rotated.getRenderCoords true clientStart (Rotated.ownPaddleX clientStart)
            (Rotated.ownPaddleY clientStart) PADDLE_WIDTH PADDLE_HEIGHT)
  == GAME_HEIGHT - PADDLE_HEIGHT - paddleRightY clientStart.
Proof.
  apply (own_paddle_is_drawn_at_the_bottom clientStart). reflexivity.
Defined.

Lemma pointing_at_own_paddle_keeps_it_witness :
  Rotated.ownPaddleY
    (after (Rotated.handleInput true true (Some (0, 0, 300, 400)) 150 0) hostStart)
  == Rotated.ownPaddleY hostStart.
Proof.
  apply (pointing_at_own_paddle_keeps_it true 0 0 300 400 150 0 hostStart).
  - reflexivity.
  - left. reflexivity.
  - split; vm_compute; discriminate.
  - vm_compute. reflexivity.
Defined.

Lemma layout_selects_view_witness :
  App (fst (checkLayout true 800 400)) (snd (checkLayout true 800 400)) = MobileGame.
Proof.
  apply (layout_selects_view true 800 400). split.
  - left. reflexivity.
  - vm_compute. discriminate.
Defined.

Lemma muted_module_is_silent_witness :
  Sound.playSound false WALL_HIT (Sound.toggles 3 Sound.initial)
  = (Sound.toggles 3 Sound.initial, []).
Proof.
  apply (muted_module_is_silent 3 false WALL_HIT Sound.initial). reflexivity.
Defined.

Lemma every_sound_fades_out_witness :
  Sound.starts (snd (Sound.playSound true GAME_OVER Sound.initial)) = [0].
Proof.
  apply (every_sound_fades_out true GAME_OVER Sound.initial). reflexivity.
Defined.

Lemma mute_button_beeps_on_unmute_witness :
  snd (Sound.handleToggleMute false (Sound.mkModule true true)) <> [].
Proof.
  apply (mute_button_beeps_on_unmute false (Sound.mkModule true true)). reflexivity.
Defined.

(** ** Messages and the state of the connection *)

Section Connection.

Variables localNickname remoteNickname : string.
Variable conn : option bool.

Lemma raises_only_seq (P : Effect -> Prop) (c1 c2 : Cmd) :
  raises_only P c1 -> raises_only P c2 -> raises_only P (c1 ;; c2).
Proof.
  intros H1 H2 s. rewrite effects_seq. apply Forall_app. split; [apply H1 | apply H2].
Qed.

Lemma raises_only_assign (P : Effect -> Prop) (f : GameState -> GameState) :
  raises_only P (assign f).
Proof. intro s. constructor. Qed.

Lemma raises_only_skip (P : Effect -> Prop) : raises_only P skip.
Proof. intro s. constructor. Qed.

Lemma raises_only_emit (P : Effect -> Prop) (f : GameState -> list Effect) :
  (forall s, Forall P (f s)) -> raises_only P (emit f).
Proof. intros H s. apply H. Qed.

Lemma raises_only_when (P : Effect -> Prop) (c : GameState -> bool) (body : Cmd) :
  raises_only P body -> raises_only P (when c body).
Proof.
  intros H s. unfold when, effects. destruct (c s); [apply H | constructor].
Qed.

Lemma allowed_sendSound (t : SoundType) : raises_only (allowed conn) (sendSound conn t).
Proof.
  apply raises_only_emit. intro s. constructor; [exact I|].
  destruct (Mode_eqb (mode s) HOST); cbn [andb]; [|constructor].
  destruct (connOpen conn) eqn:E; repeat constructor. exact E.
Qed.

Lemma allowed_endGame (winnerName : string) :
  raises_only (allowed conn) (endGame conn winnerName).
Proof.
  unfold endGame.
  apply raises_only_seq; [apply raises_only_assign|].
  apply raises_only_seq; [apply raises_only_emit; intro s; repeat constructor|].
  apply raises_only_seq; [|apply raises_only_emit; intro s; repeat constructor].
  apply raises_only_emit. intro s.
  destruct (Mode_eqb (mode s) HOST); cbn [andb]; [|constructor].
  destruct (connPresent conn) eqn:E; repeat constructor. exact E.
Qed.

Lemma allowed_checkWinCondition :
  raises_only (allowed conn) (checkWinCondition localNickname remoteNickname conn).
Proof.
  unfold checkWinCondition.
  apply raises_only_seq; [apply raises_only_emit; intro s; repeat constructor|].
  intro s. unfold effects.
  destruct (scoreLeft s >=? WINNING_SCORE)%Z; [apply allowed_endGame|].
  destruct (scoreRight s >=? WINNING_SCORE)%Z; [apply allowed_endGame|].
  constructor.
Qed.

Lemma allowed_scoring (rnd : Q) :
  raises_only (allowed conn) (scoring localNickname remoteNickname conn rnd).
Proof.
  assert (G : forall f t side,
    raises_only (allowed conn)
      (assign f ;; sendSound conn t ;;
       checkWinCondition localNickname remoteNickname conn ;; resetBall side rnd)).
  { intros f t side.
    apply raises_only_seq; [apply raises_only_assign|].
    apply raises_only_seq; [apply allowed_sendSound|].
    apply raises_only_seq; [apply allowed_checkWinCondition|].
    apply raises_only_assign. }
  intro s. unfold effects, scoring.
  destruct (ball_x (ball s) <? 0); [apply G|].
  destruct (ball_x (ball s) >? GAME_WIDTH); [apply G|]. constructor.
Qed.

Lemma allowed_update (rnd : Q) :
  raises_only (allowed conn) (update localNickname remoteNickname conn rnd).
Proof.
  intro s. unfold effects, update.
  destruct (negb (isRunning s) || isGameOver s); [constructor|].
  destruct (Mode_eqb (mode s) CLIENT).
  - revert s. apply raises_only_seq.
    + unfold moveBall. apply raises_only_seq; apply raises_only_assign.
    + apply raises_only_emit. intro s.
      destruct (connOpen conn) eqn:E; repeat constructor. exact E.
  - revert s.
    apply raises_only_seq.
    { intro s. rewrite aiControl_effects. constructor. }
    apply raises_only_seq.
    { unfold moveBall. apply raises_only_seq; apply raises_only_assign. }
    apply raises_only_seq.
    { unfold wallCollision. apply raises_only_when.
      apply raises_only_seq; [apply raises_only_assign|].
      apply raises_only_seq; [apply raises_only_assign | apply allowed_sendSound]. }
    apply raises_only_seq.
    { intro s. unfold effects, paddleCollisions.
      apply raises_only_seq; apply raises_only_when;
        (apply raises_only_seq; [apply raises_only_assign | apply allowed_sendSound]). }
    apply raises_only_seq; [apply allowed_scoring|].
    apply raises_only_when. apply raises_only_emit. intro s.
    destruct (connOpen conn) eqn:E; repeat constructor. exact E.
Qed.

Lemma allowed_startGame (m : Mode) (rnd : Q) :
  raises_only (allowed conn) (startGame conn m rnd).
Proof.
  unfold startGame.
  apply raises_only_seq; [apply raises_only_assign|].
  apply raises_only_seq.
  { apply raises_only_when. apply raises_only_emit. intro s. repeat constructor. }
  apply raises_only_seq.
  { apply raises_only_when. apply raises_only_seq.
    - apply raises_only_when. apply raises_only_assign.
    - apply allowed_sendSound. }
  apply raises_only_emit. intro s. repeat constructor.
Qed.

(** Messages need a connection: whatever the event, the mode and the
    record, a STATE, SOUND or INPUT message is among the effects only if
    the connection is open, and an OVER message only if there is a
    connection object (open or not).  With no connection at all nothing
    is ever sent. *)
Theorem messages_need_a_connection (es : list Event) (s : GameState) :
  Forall (allowed conn) (effects (run localNickname remoteNickname conn es) s) /\
  (conn = None -> no_send (effects (run localNickname remoteNickname conn es) s)).
Proof.
  assert (G : raises_only (allowed conn) (run localNickname remoteNickname conn es)).
  { induction es as [|e es IH]; [apply raises_only_skip|].
    cbn [run]. apply raises_only_seq; [|exact IH].
    destruct e as [rnd | playing container clientY | data rnd | data rnd]; cbn [step].
    - apply allowed_update.
    - intro t.
      destruct (handleInput_fields playing container clientY t)
        as (_ & _ & _ & _ & _ & _ & _ & H & _).
      rewrite H. constructor.
    - destruct data; cbn [hostOnData];
        try apply raises_only_skip; try apply raises_only_assign.
      apply raises_only_seq; [|apply allowed_startGame].
      apply raises_only_emit. intro t. repeat constructor.
    - destruct data; cbn [clientOnData]; try apply raises_only_skip.
      + unfold handleNetworkState.
        repeat (apply raises_only_seq; [apply raises_only_assign|]).
        apply raises_only_emit. intro t. repeat constructor.
      + apply raises_only_emit. intro t. repeat constructor.
      + apply allowed_endGame.
      + apply raises_only_seq; [|apply allowed_startGame].
        apply raises_only_emit. intro t. repeat constructor. }
  split; [apply G|].
  intro Hc. specialize (G s). unfold no_send.
  eapply Forall_impl; [|exact G].
  intros e He. destruct e as [t | m | | | |]; try reflexivity.
  rewrite Hc in He. destruct m; cbn in He; discriminate He.
Qed.

End Connection.

Lemma messages_need_a_connection_witness :
  no_send (effects (run "P1" "P2" None [Tick 0.7; Tick 0.7]) matchPoint).
Proof.
  apply (messages_need_a_connection "P1" "P2" None [Tick 0.7; Tick 0.7] matchPoint).
  reflexivity.
Defined.

Section ClosedConnection.

Variables localNickname remoteNickname : string.
Variable conn : option bool.

Lemma endGame_sends_over (winnerName : string) (s : GameState) :
  mode s = HOST -> connPresent conn = true ->
  In (Send (OVER winnerName)) (effects (endGame conn winnerName) s).
Proof.
  intros Hm Hc. unfold endGame, effects, seq, assign, emit.
  cbn [fst snd mode app]. rewrite Hm, Hc. cbn [Mode_eqb andb app].
  right. left. reflexivity.
Qed.

(** [endGame] does not look at the [open] flag: when the HOST's winning
    point is scored (left score 10, ball past the right edge) the OVER
    message is handed to the connection object whenever there is one,
    even if it is closed, while the STATE and SOUND messages of the same
    tick are sent only on an open connection. *)
Theorem over_is_sent_without_open_check (rnd : Q) (s : GameState) :
  playing_state s -> mode s = HOST -> connPresent conn = true ->
  scoreLeft s = 10%Z ->
  GAME_WIDTH < ball_x (ball s) + ball_dx (ball s) ->
  In (Send (OVER localNickname))
     (effects (update localNickname remoteNickname conn rnd) s) /\
  (connOpen conn = false ->
   forall m, In (Send m) (effects (update localNickname remoteNickname conn rnd) s) ->
             m = OVER localNickname).
Proof.
  intros Hp Hm Hc Hsl Hx.
  assert (Ha : authoritative s) by (unfold authoritative; congruence).
  pose proof (update_authoritative localNickname remoteNickname conn rnd s Hp Ha) as E.
  rewrite (effects_eq _ _ _ E). clear E.
  destruct (atCollision_fields conn s)
    as (Ax & _ & _ & _ & _ & Asl & _ & _ & _ & _ & Am).
  destruct (paddleCollisions_fields conn (atCollision conn s))
    as (Px & _ & _ & _ & Psl & _ & _ & _ & _ & Pm).
  unfold atCollision in *.
  set (p := after (paddleCollisions conn)
              (after (wallCollision conn) (after moveBall (after aiControl s)))) in *.
  assert (R : (ball_x (ball p) >? GAME_WIDTH) = true).
  { apply Qgtb_true. rewrite Px, Ax. exact Hx. }
  assert (L : (ball_x (ball p) <? 0) = false).
  { apply Qltb_false. apply Qgtb_true in R. qlra. }
  assert (Es : scoring localNickname remoteNickname conn rnd p
               = (assign (fun s0 => set_scoreLeft (scoreLeft s0 + 1) s0) ;;
                  sendSound conn SCORE_PLAYER ;;
                  checkWinCondition localNickname remoteNickname conn ;;
                  resetBall Left rnd) p).
  { unfold scoring. rewrite L, R. reflexivity. }
  set (q := set_scoreLeft (scoreLeft p + 1) p).
  assert (Eq : effects (checkWinCondition localNickname remoteNickname conn) q
               = SetScores (scoreLeft q) (scoreRight q)
                 :: effects (endGame conn localNickname) q).
  { unfold checkWinCondition. rewrite effects_seq.
    unfold effects at 1. cbn [emit snd app].
    unfold effects, after. cbn [emit fst].
    assert (G : (scoreLeft q >=? WINNING_SCORE)%Z = true).
    { subst q. cbn [set_scoreLeft scoreLeft]. rewrite Psl, Asl, Hsl. reflexivity. }
    rewrite G.
    assert (Mq : Mode_eqb (mode q) CLIENT = false).
    { subst q. cbn [set_scoreLeft mode]. rewrite Pm, Am, Hm. reflexivity. }
    rewrite Mq. reflexivity. }
  assert (Mq : mode q = HOST).
  { subst q. cbn [set_scoreLeft mode]. rewrite Pm, Am, Hm. reflexivity. }
  rewrite !effects_seq, ?after_seq. fold p.
  rewrite (effects_eq _ _ _ Es), !effects_seq, ?after_seq.
  change (after (sendSound conn SCORE_PLAYER)
            (after (assign (fun s0 => set_scoreLeft (scoreLeft s0 + 1) s0)) p))
    with q.
  rewrite Eq.
  split.
  - pose proof (endGame_sends_over localNickname q Mq Hc) as Hin.
    rewrite !in_app_iff. cbn [In]. tauto.
  - intros Hopen m Hin.
    assert (Q1 : forall t u, In (Send m) (effects (sendSound conn t) u) -> False).
    { intros t u H. unfold sendSound, effects, emit in H. cbn [snd] in H.
      rewrite Hopen, andb_false_r in H. cbn in H. intuition discriminate. }
    assert (Q2 : forall c f u, In (Send m)
                   (effects (when (fun _ => c) (assign f ;; sendSound conn PADDLE_HIT)) u)
                   -> False).
    { intros c f u H. unfold when, effects in H. destruct c; [|destruct H].
      fold (effects (assign f ;; sendSound conn PADDLE_HIT) u) in H.
      rewrite effects_seq in H. apply in_app_or in H. destruct H as [H | H].
      - destruct H.
      - apply (Q1 _ _ H). }
    rewrite !in_app_iff in Hin.
    destruct Hin as [H | [H | [H | [H | [[H | [H | [H | H]]] | H]]]]].
    + rewrite aiControl_effects in H. destruct H.
    + destruct H.
    + exfalso. unfold wallCollision, when, effects in H.
      destruct (hitsWall _); [|destruct H].
      match type of H with
      | In _ (snd ((?a ;; ?b ;; ?c) ?u)) =>
        fold (effects (a ;; b ;; c) u) in H; rewrite !effects_seq in H
      end.
      rewrite !in_app_iff in H. destruct H as [H | [H | H]];
        [destruct H | destruct H | apply (Q1 _ _ H)].
    + exfalso. unfold paddleCollisions, effects in H.
      match type of H with
      | In _ (snd ((?a ;; ?b) ?u)) =>
        fold (effects (a ;; b) u) in H; rewrite effects_seq in H
      end.
      apply in_app_or in H. destruct H as [H | H]; apply (Q2 _ _ _ H).
    + destruct H.
    + exfalso. apply (Q1 _ _ H).
    + destruct H as [H | H]; [discriminate H|].
      unfold endGame, effects, seq, assign, emit in H.
      cbn [fst snd mode app] in H. rewrite Mq, Hc in H.
      cbn [Mode_eqb andb app] in H.
      destruct H as [H | [H | [H | []]]]; try discriminate H.
      injection H as <-. reflexivity.
    + destruct H.
    + exfalso. unfold when, effects, sendHostUpdate, emit in H.
      destruct (Mode_eqb _ HOST); cbn [snd] in H; [|destruct H].
      rewrite Hopen in H. destruct H.
Qed.

(** [startGame] forgets the previous record: whatever it was, the new
    record has both paddles centred (the centre of each paddle is at half
    the height of the field, the offset being 260), both scores 0, no
    winner and the ball in the middle with speed 7.  A SINGLE or HOST
    match is live and serves to the left exactly when the random draw
    exceeds 0.5; a CLIENT's record starts with dx = +7 whatever the
    draw. *)
Theorem startGame_starts_fresh (m : Mode) (rnd : Q) (s1 s2 : GameState) :
  let s := after (startGame conn m rnd) s1 in
  s = after (startGame conn m rnd) s2 /\
  paddles_ok s /\ ball_ok (ball s) /\
  ball_x (ball s) == GAME_WIDTH / 2 /\ ball_y (ball s) == GAME_HEIGHT / 2 /\
  scoreLeft s = 0%Z /\ scoreRight s = 0%Z /\ playing_state s /\ mode s = m /\
  (m <> CLIENT -> live s /\
     (0.5 < rnd -> ball_dx (ball s) = - INITIAL_BALL_SPEED) /\
     (rnd <= 0.5 -> ball_dx (ball s) = INITIAL_BALL_SPEED)) /\
  (m = CLIENT -> ball_dx (ball s) = INITIAL_BALL_SPEED) /\
  paddleLeftY s + PADDLE_HEIGHT / 2 == GAME_HEIGHT / 2 /\
  paddleRightY s + PADDLE_HEIGHT / 2 == GAME_HEIGHT / 2 /\
  paddleLeftY s == 260 /\ paddleRightY s == 260 /\
  winner s = None.
Proof.
  intro s. subst s.
  destruct (startGame_fields conn m rnd s1)
    as (Hpl & Hpr & Hsl & Hsr & Hr & Ho & Hw & Hm & _ & _).
  split; [|split; [apply startGame_paddles|split; [apply startGame_ok|]]].
  { unfold startGame, sendSound, when, after, seq, assign, emit, skip.
    destruct m; cbn [Mode_eqb negb]; destruct (rnd >? 0.5); reflexivity. }
  assert (B : ball_x (ball (after (startGame conn m rnd) s1)) = GAME_WIDTH / 2 /\
              ball_y (ball (after (startGame conn m rnd) s1)) = GAME_HEIGHT / 2 /\
              ball_dx (ball (after (startGame conn m rnd) s1))
              = (if negb (Mode_eqb m CLIENT) && (rnd >? 0.5)
                 then - INITIAL_BALL_SPEED else INITIAL_BALL_SPEED)).
  { unfold startGame, sendSound, when, after, seq, assign, emit, skip.
    destruct m; cbn [Mode_eqb negb andb]; destruct (rnd >? 0.5);
      repeat split; reflexivity. }
  destruct B as (Bx & By & Bdx).
  rewrite Bx, By, Bdx, Hpl, Hpr.
  split; [reflexivity|]. split; [reflexivity|].
  split; [exact Hsl|]. split; [exact Hsr|].
  split; [split; assumption|]. split; [exact Hm|]. split; [|split].
  - intro Hc.
    assert (G : negb (Mode_eqb m CLIENT) = true).
    { destruct m; try reflexivity. elim Hc. reflexivity. }
    rewrite G. cbn [andb]. split; [|split].
    + unfold live, authoritative, playing_state. rewrite Hm, Hsl, Hsr, Hr, Ho.
      repeat split; try reflexivity. exact Hc.
    + intro H. apply Qgtb_true in H. rewrite H. reflexivity.
    + intro H. apply Qgtb_false in H. rewrite H. reflexivity.
  - intros ->. reflexivity.
  - split; [qnorm; ring|]. split; [qnorm; ring|].
    split; [reflexivity|]. split; [reflexivity | exact Hw].
Qed.

End ClosedConnection.

Lemma over_is_sent_without_open_check_witness :
  In (Send (OVER "P1"%string)) (effects (update "P1" "P2" (Some false) 0.7) matchPoint).
Proof.
  apply (over_is_sent_without_open_check "P1" "P2" (Some false) 0.7 matchPoint).
  - split; reflexivity.
  - reflexivity.
  - reflexivity.
  - reflexivity.
  - reflexivity.
Defined.

Lemma startGame_starts_fresh_witness :
  ball_dx (ball (after (startGame (Some true) HOST 0.7) nearRightEdge))
  = - INITIAL_BALL_SPEED /\
  paddleLeftY (after (startGame (Some true) HOST 0.7) nearRightEdge)
  + PADDLE_HEIGHT / 2 == GAME_HEIGHT / 2.
Proof.
  destruct (startGame_starts_fresh (Some true) HOST 0.7 nearRightEdge nearRightEdge)
    as (_ & _ & _ & _ & _ & _ & _ & _ & _ & H & _ & C & _).
  split; [|exact C].
  assert (Hm : HOST <> CLIENT) by discriminate.
  destruct (H Hm) as (_ & H1 & _). apply H1. reflexivity.
Defined.

(** ** The winner's name and the first render

    The animation loop keeps the [update] of the first render, so the
    names [checkWinCondition] reads are the nickname the component was
    mounted with and 'CPU', whatever the peer is called. *)

Section FirstRender.

Variable conn : option bool.

Lemma remoteNicknameAfter_app (es1 es2 : list Effect) (current : string) :
  remoteNicknameAfter (es1 ++ es2) current
  = remoteNicknameAfter es2 (remoteNicknameAfter es1 current).
Proof.
  revert current. induction es1 as [|e es1 IH]; intro current; [reflexivity|].
  destruct e; cbn [app remoteNicknameAfter]; apply IH.
Qed.

Lemma remoteNicknameAfter_kept (es : list Effect) (current : string) :
  Forall keeps_remote_nickname es -> remoteNicknameAfter es current = current.
Proof.
  intro H. induction H as [|e es He Hes IH]; [reflexivity|].
  destruct e; cbn [remoteNicknameAfter]; try exact IH. destruct He.
Qed.

Lemma sendSound_keeps_name (t : SoundType) :
  raises_only keeps_remote_nickname (sendSound conn t).
Proof.
  apply raises_only_emit. intro s. constructor; [exact I|].
  destruct (Mode_eqb (mode s) HOST && connOpen conn); repeat constructor.
Qed.

Lemma endGame_keeps_name (winnerName : string) :
  raises_only keeps_remote_nickname (endGame conn winnerName).
Proof.
  unfold endGame.
  apply raises_only_seq; [apply raises_only_assign|].
  apply raises_only_seq; [apply raises_only_emit; intro s; repeat constructor|].
  apply raises_only_seq; [|apply raises_only_emit; intro s; repeat constructor].
  apply raises_only_emit. intro s.
  destruct (Mode_eqb (mode s) HOST && connPresent conn); repeat constructor.
Qed.

Lemma update_keeps_name (localNickname remoteNickname : string) (rnd : Q) :
  raises_only keeps_remote_nickname (update localNickname remoteNickname conn rnd).
Proof.
  assert (C : raises_only keeps_remote_nickname
                (checkWinCondition localNickname remoteNickname conn)).
  { unfold checkWinCondition.
    apply raises_only_seq; [apply raises_only_emit; intro s; repeat constructor|].
    intro s. unfold effects.
    destruct (scoreLeft s >=? WINNING_SCORE)%Z; [apply endGame_keeps_name|].
    destruct (scoreRight s >=? WINNING_SCORE)%Z; [apply endGame_keeps_name|].
    constructor. }
  assert (G : forall f t side,
    raises_only keeps_remote_nickname
      (assign f ;; sendSound conn t ;;
       checkWinCondition localNickname remoteNickname conn ;; resetBall side rnd)).
  { intros f t side.
    apply raises_only_seq; [apply raises_only_assign|].
    apply raises_only_seq; [apply sendSound_keeps_name|].
    apply raises_only_seq; [exact C | apply raises_only_assign]. }
  intro s. unfold effects, update.
  destruct (negb (isRunning s) || isGameOver s); [constructor|].
  destruct (Mode_eqb (mode s) CLIENT).
  - revert s. apply raises_only_seq.
    + unfold moveBall. apply raises_only_seq; apply raises_only_assign.
    + apply raises_only_emit. intro s. destruct (connOpen conn); repeat constructor.
  - revert s.
    apply raises_only_seq.
    { intro s. rewrite aiControl_effects. constructor. }
    apply raises_only_seq.
    { unfold moveBall. apply raises_only_seq; apply raises_only_assign. }
    apply raises_only_seq.
    { unfold wallCollision. apply raises_only_when.
      apply raises_only_seq; [apply raises_only_assign|].
      apply raises_only_seq; [apply raises_only_assign | apply sendSound_keeps_name]. }
    apply raises_only_seq.
    { intro s. unfold effects, paddleCollisions.
      apply raises_only_seq; apply raises_only_when;
        (apply raises_only_seq; [apply raises_only_assign | apply sendSound_keeps_name]). }
    apply raises_only_seq.
    { intro s. unfold effects, scoring.
      destruct (ball_x (ball s) <? 0); [apply G|].
      destruct (ball_x (ball s) >? GAME_WIDTH); [apply G|]. constructor. }
    apply raises_only_when. apply raises_only_emit. intro s.
    destruct (connOpen conn); repeat constructor.
Qed.

(** The events of a match never change [uiState.remoteNickname]. *)
Lemma match_keeps_name (localNickname remoteNickname : string) (es : list Event) :
  Forall match_event es ->
  raises_only keeps_remote_nickname (run localNickname remoteNickname conn es).
Proof.
  intro H. induction H as [|e es He Hes IH]; [apply raises_only_skip|].
  cbn [run]. apply raises_only_seq; [|exact IH].
  destruct e as [rnd | playing container clientY | data rnd | data rnd]; cbn [step].
  - apply update_keeps_name.
  - intro t.
    destruct (handleInput_fields playing container clientY t)
      as (_ & _ & _ & _ & _ & _ & _ & H & _).
    rewrite H. constructor.
  - destruct data; cbn [hostOnData];
      try apply raises_only_skip; try apply raises_only_assign.
    destruct He.
  - destruct He.
Qed.

(** A HOST's match from the arrival of the peer's nickname, through any
    events of the match: the UI and the scoreboard call the right side by
    the peer's name, while a win of the right side is recorded under the
    first render's 'CPU' and a win of the left side under the nickname
    the component was mounted with. *)
Lemma host_winner_is_first_render_name (mountNickname peerName : string) (rnd : Q)
      (es : list Event) (s0 : GameState) :
  Forall match_event es ->
  let session := HostData (NICKNAME peerName) rnd :: es in
  let s' := after (run mountNickname initialRemoteNickname conn session) s0 in
  let shown :=
    remoteNicknameAfter (effects (run mountNickname initialRemoteNickname conn session) s0)
                        initialRemoteNickname in
  shown = peerName /\
  name2 (getScoreboardData mountNickname shown (scoreLeft s') (scoreRight s') s')
  = peerName /\
  (scoreRight s' = WINNING_SCORE -> winner s' = Some initialRemoteNickname) /\
  (scoreLeft s' = WINNING_SCORE -> winner s' = Some mountNickname).
Proof.
  intros Hes session s' shown. subst session s' shown.
  cbn [run step hostOnData].
  rewrite !after_seq, !effects_seq, !remoteNicknameAfter_app, ?after_seq.
  set (s1 := after (startGame conn HOST rnd)
               (after (emit (fun _ => [SetRemoteNickname peerName; SetPlaying])) s0)).
  assert (L : live s1).
  { destruct (startGame_fields conn HOST rnd
                (after (emit (fun _ => [SetRemoteNickname peerName; SetPlaying])) s0))
      as (_ & _ & Hsl & Hsr & Hr & Ho & _ & Hm & _ & _).
    fold s1 in Hsl, Hsr, Hr, Ho, Hm.
    unfold live, authoritative, playing_state. rewrite Hm, Hsl, Hsr, Hr, Ho.
    repeat split; try reflexivity. discriminate. }
  assert (N : remoteNicknameAfter
                (effects (run mountNickname initialRemoteNickname conn es) s1)
                (remoteNicknameAfter
                   (effects (startGame conn HOST rnd)
                      (after (emit (fun _ => [SetRemoteNickname peerName; SetPlaying])) s0))
                   (remoteNicknameAfter
                      (effects (emit (fun _ => [SetRemoteNickname peerName; SetPlaying])) s0)
                      initialRemoteNickname)) = peerName).
  { rewrite (remoteNicknameAfter_kept _ _
               (match_keeps_name mountNickname initialRemoteNickname es Hes s1)).
    unfold startGame, sendSound, when, effects, seq, assign, emit, after.
    destruct (rnd >? 0.5); destruct (connOpen conn); reflexivity. }
  rewrite N. clear N.
  assert (A : authoritative (after (run mountNickname initialRemoteNickname conn es) s1) /\
              (scoreRight (after (run mountNickname initialRemoteNickname conn es) s1)
               = WINNING_SCORE ->
               winner (after (run mountNickname initialRemoteNickname conn es) s1)
               = Some initialRemoteNickname) /\
              (scoreLeft (after (run mountNickname initialRemoteNickname conn es) s1)
               = WINNING_SCORE ->
               winner (after (run mountNickname initialRemoteNickname conn es) s1)
               = Some mountNickname)).
  { destruct (run_live mountNickname initialRemoteNickname conn es s1 Hes L)
      as [[(Ha & _ & L1 & L2) _] | [(Ha & _ & _ & W) _]].
    - split; [exact Ha|]. split; intro H; lia.
    - split; [exact Ha|].
      destruct W as [(W1 & W2 & W3) | (W1 & W2 & W3)].
      + split; [intro H; lia | intros _; exact W3].
      + split; [intros _; exact W3 | intro H; lia]. }
  destruct A as (Ha & Wr & Wl).
  split; [reflexivity|]. split; [|split; assumption].
  unfold getScoreboardData. cbn [name2].
  unfold authoritative in Ha.
  destruct (mode (after (run mountNickname initialRemoteNickname conn es) s1));
    try reflexivity.
  elim Ha. reflexivity.
Qed.

End FirstRender.

(** C5 fails on the code: on a HOST whose component was mounted with the
    nickname "P1" and whose peer is called "P2", the right side (the
    peer) reaches 11 with the left side at 0.  The match ends, once, and
    [isRunning] is false, but the winner recorded, shown and sent in the
    OVER message is "CPU", the remote nickname of the first render, while
    the UI and the scoreboard call the right side "P2". *)
Theorem host_win_records_first_render_name :
  let session := run "P1" initialRemoteNickname (Some true) hostSession in
  let s' := after session initialGameState in
  let shown := remoteNicknameAfter (effects session initialGameState)
                                   initialRemoteNickname in
  mode s' = HOST /\ scoreLeft s' = 0%Z /\ scoreRight s' = WINNING_SCORE /\
  isGameOver s' = true /\ isRunning s' = false /\
  gameOvers (effects session initialGameState) = 1%nat /\
  shown = "P2"%string /\
  name2 (getScoreboardData "P1" shown (scoreLeft s') (scoreRight s') s') = "P2"%string /\
  winner s' = Some "CPU"%string /\
  winnersShown (effects session initialGameState) = ["CPU"%string] /\
  oversSent (effects session initialGameState) = ["CPU"%string] /\
  winner s' <> Some (name2 (getScoreboardData "P1" shown (scoreLeft s') (scoreRight s') s')).
Proof.
  vm_compute. repeat (split; [reflexivity|]). discriminate.
Qed.
